(** * InspIRCd spanning tree: the server node (treeserver.cpp)

    A shallow embedding of [TreeServer] (src/modules/m_spanningtree/
    treeserver.cpp): the node record, the object store the raw pointers
    range over, the two lookup tables of [SpanningTreeUtilities], and every
    method of the class as a computation over that store. *)

From Stdlib Require Import ZArith Lia Ascii String DecimalString.
From stdpp Require Import gmap strings list fin_maps.

Local Open Scope string_scope.
Local Open Scope Z_scope.
Local Open Scope list_scope.

(** ** Data model *)

(** A [TreeServer*]: the address of an object; [None] is the null pointer. *)
Abbreviation ptr := (option positive).

(** [TreeServer::ServerUser]: the root uses [ServerInstance->FakeClient],
    every other node owns a [new FakeUser(id, Name)]. *)
Inductive FakeUserRef :=
  | FakeClient
  | NewFakeUser (id name : string).

(** The data members of [class TreeServer], under their own names. *)
Record TreeServer := mkTreeServer {
  Parent : ptr;
  Route : ptr;
  Children : list positive;
  ServerName : string;
  ServerDesc : string;
  VersionString : string;
  Socket : option nat;
  sid : string;
  ServerUser : FakeUserRef;
  age : Z;
  Warned : bool;
  bursting : bool;
  UserCount : Z;
  OperCount : Z;
  rtt : Z;
  StartBurst : Z;
  Hidden : bool;
  NextPing : Z;
  LastPingWasGood : bool
}.

(** Modelled from the spec: class [User] and the macro [IS_LOCAL] are
    declared in users.h, which is not among the sources; the spec has each
    session expose "its affiliated server name and whether it is locally
    attached". [server] is that name, [is_local] is [IS_LOCAL(u)], [nick]
    is the key of the registry, [quietquit] the member [QuitUsers] sets. *)
Record User := mkUser {
  nick : string;
  server : string;
  is_local : bool;
  quietquit : bool
}.

(** What the node hands to its collaborators, in program order.
    [EvDestroy] records the object as it was when [delete] ran. *)
Inductive Event :=
  | EvLogDebug (id : string) (ts : Z)
  | EvApplyLines
  | EvSnoNotice (mask : ascii) (text : string)
  | EvServerEvent (name : string)
  | EvQuitUser (u : User) (quitreason : string) (operreason : option string)
  | EvCullUser (u : FakeUserRef)
  | EvDeleteUser (u : FakeUserRef)
  | EvDestroy (a : positive) (nd : TreeServer).

(** Modelled from the spec: the type of [Utils->serverlist] and
    [Utils->sidlist] is declared in utils.h, which is not among the
    sources; the spec calls them "a pair of exact-match lookup tables,
    keyed by server name and by SID". *)
Abbreviation server_hash := (gmap string positive).

(** The globals the class reaches through [ServerInstance] and [Utils]:
    the objects behind the [TreeServer*] values, the root pointer, the two
    tables, the user registry in iteration order, the calls made to
    collaborators so far, the clock and the configuration. *)
Record State := mkState {
  heap : gmap positive TreeServer;
  TreeRoot : ptr;
  serverlist : server_hash;
  sidlist : server_hash;
  clientlist : list User;
  events : list Event;
  Time : Z;
  Time_ns : Z;
  PingFreq : Z;
  quiet_bursts : bool;
  HideSplits : bool;
  cfg_ServerName : string;
  cfg_ServerDesc : string;
  cfg_SID : string;
  cfg_Version : string
}.

(** ** Field updates *)

(** One function per member that some method assigns, and per global. *)
Definition set_Route (v : ptr) (n : TreeServer) : TreeServer :=
  mkTreeServer (Parent n) v (Children n) (ServerName n) (ServerDesc n)
    (VersionString n) (Socket n) (sid n) (ServerUser n) (age n) (Warned n)
    (bursting n) (UserCount n) (OperCount n) (rtt n) (StartBurst n) (Hidden n)
    (NextPing n) (LastPingWasGood n).

Definition set_Children (v : list positive) (n : TreeServer) : TreeServer :=
  mkTreeServer (Parent n) (Route n) v (ServerName n) (ServerDesc n)
    (VersionString n) (Socket n) (sid n) (ServerUser n) (age n) (Warned n)
    (bursting n) (UserCount n) (OperCount n) (rtt n) (StartBurst n) (Hidden n)
    (NextPing n) (LastPingWasGood n).

Definition set_VersionString (v : string) (n : TreeServer) : TreeServer :=
  mkTreeServer (Parent n) (Route n) (Children n) (ServerName n) (ServerDesc n)
    v (Socket n) (sid n) (ServerUser n) (age n) (Warned n)
    (bursting n) (UserCount n) (OperCount n) (rtt n) (StartBurst n) (Hidden n)
    (NextPing n) (LastPingWasGood n).

Definition set_bursting (v : bool) (n : TreeServer) : TreeServer :=
  mkTreeServer (Parent n) (Route n) (Children n) (ServerName n) (ServerDesc n)
    (VersionString n) (Socket n) (sid n) (ServerUser n) (age n) (Warned n)
    v (UserCount n) (OperCount n) (rtt n) (StartBurst n) (Hidden n)
    (NextPing n) (LastPingWasGood n).

Definition set_StartBurst (v : Z) (n : TreeServer) : TreeServer :=
  mkTreeServer (Parent n) (Route n) (Children n) (ServerName n) (ServerDesc n)
    (VersionString n) (Socket n) (sid n) (ServerUser n) (age n) (Warned n)
    (bursting n) (UserCount n) (OperCount n) (rtt n) v (Hidden n)
    (NextPing n) (LastPingWasGood n).

Definition set_NextPing (v : Z) (n : TreeServer) : TreeServer :=
  mkTreeServer (Parent n) (Route n) (Children n) (ServerName n) (ServerDesc n)
    (VersionString n) (Socket n) (sid n) (ServerUser n) (age n) (Warned n)
    (bursting n) (UserCount n) (OperCount n) (rtt n) (StartBurst n) (Hidden n)
    v (LastPingWasGood n).

Definition set_LastPingWasGood (v : bool) (n : TreeServer) : TreeServer :=
  mkTreeServer (Parent n) (Route n) (Children n) (ServerName n) (ServerDesc n)
    (VersionString n) (Socket n) (sid n) (ServerUser n) (age n) (Warned n)
    (bursting n) (UserCount n) (OperCount n) (rtt n) (StartBurst n) (Hidden n)
    (NextPing n) v.

Definition with_heap (h : gmap positive TreeServer) (s : State) : State :=
  mkState h (TreeRoot s) (serverlist s) (sidlist s) (clientlist s) (events s)
    (Time s) (Time_ns s) (PingFreq s) (quiet_bursts s) (HideSplits s)
    (cfg_ServerName s) (cfg_ServerDesc s) (cfg_SID s) (cfg_Version s).

Definition with_TreeRoot (r : ptr) (s : State) : State :=
  mkState (heap s) r (serverlist s) (sidlist s) (clientlist s) (events s)
    (Time s) (Time_ns s) (PingFreq s) (quiet_bursts s) (HideSplits s)
    (cfg_ServerName s) (cfg_ServerDesc s) (cfg_SID s) (cfg_Version s).

Definition with_serverlist (m : gmap string positive) (s : State) : State :=
  mkState (heap s) (TreeRoot s) m (sidlist s) (clientlist s) (events s)
    (Time s) (Time_ns s) (PingFreq s) (quiet_bursts s) (HideSplits s)
    (cfg_ServerName s) (cfg_ServerDesc s) (cfg_SID s) (cfg_Version s).

Definition with_sidlist (m : gmap string positive) (s : State) : State :=
  mkState (heap s) (TreeRoot s) (serverlist s) m (clientlist s) (events s)
    (Time s) (Time_ns s) (PingFreq s) (quiet_bursts s) (HideSplits s)
    (cfg_ServerName s) (cfg_ServerDesc s) (cfg_SID s) (cfg_Version s).

Definition with_clientlist (l : list User) (s : State) : State :=
  mkState (heap s) (TreeRoot s) (serverlist s) (sidlist s) l (events s)
    (Time s) (Time_ns s) (PingFreq s) (quiet_bursts s) (HideSplits s)
    (cfg_ServerName s) (cfg_ServerDesc s) (cfg_SID s) (cfg_Version s).

Definition with_events (l : list Event) (s : State) : State :=
  mkState (heap s) (TreeRoot s) (serverlist s) (sidlist s) (clientlist s) l
    (Time s) (Time_ns s) (PingFreq s) (quiet_bursts s) (HideSplits s)
    (cfg_ServerName s) (cfg_ServerDesc s) (cfg_SID s) (cfg_Version s).

Definition with_clock (t ns : Z) (s : State) : State :=
  mkState (heap s) (TreeRoot s) (serverlist s) (sidlist s) (clientlist s)
    (events s) t ns (PingFreq s) (quiet_bursts s) (HideSplits s)
    (cfg_ServerName s) (cfg_ServerDesc s) (cfg_SID s) (cfg_Version s).

(** ** The method monad

    A method is a function from the globals to either nothing (undefined
    behaviour: a null or dangling pointer was followed, or the fuel of a
    loop ran out) or a result and the new globals. *)

(** A method returning an [A]. *)
Definition M (A : Type) : Type := State → option (A * State).

Definition ret {A} (x : A) : M A := λ s, Some (x, s).
Definition bind {A B} (m : M A) (k : A → M B) : M B :=
  λ s, match m s with
       | Some (x, s') => k x s'
       | None => None
       end.
Definition fail {A} : M A := λ _, None.

Notation "x ←← m ;; k" := (bind m (λ x, k))
  (at level 100, m at next level, k at level 200, right associativity,
   format "'[' x  ←←  m  ;;  '/' k ']'").
Notation "m ;;; k" := (bind m (λ _, k))
  (at level 100, k at level 200, right associativity).

(** Read a global; change the globals; hand an event to a collaborator. *)
Definition gets {A} (f : State → A) : M A := λ s, Some (f s, s).
Definition modify (f : State → State) : M unit := λ s, Some (tt, f s).
Definition emit (e : Event) : M unit :=
  modify (λ s, with_events (events s ++ [e]) s).

(** [*p] for a [TreeServer* p]: the object must be live. *)
Definition deref (p : positive) : M TreeServer :=
  λ s, match heap s !! p with
       | Some nd => Some (nd, s)
       | None => None
       end.

(** [p->field = v], through a live pointer. *)
Definition update (p : positive) (f : TreeServer → TreeServer) : M unit :=
  nd ←← deref p ;;
  modify (λ s, with_heap (<[p := f nd]> (heap s)) s).

(** Run a method over a vector, front to back. *)
Fixpoint for_each {A} (f : A → M unit) (l : list A) : M unit :=
  match l with
  | [] => ret tt
  | x :: l' => f x ;;; for_each f l'
  end.

(** ** Machine integers

    [time_t] and [long] are 64-bit signed, [unsigned long] is 64-bit,
    [int] is 32-bit signed (LP64); a result that does not fit wraps. *)

Definition to_long (z : Z) : Z := (z + 2 ^ 63) mod 2 ^ 64 - 2 ^ 63.
Definition to_ulong (z : Z) : Z := z mod 2 ^ 64.
Definition to_int (z : Z) : Z := (z + 2 ^ 31) mod 2 ^ 32 - 2 ^ 31.

(** [ServerInstance->Time() * 1000 + (ServerInstance->Time_ns() / 1000000)],
    stored in a [long]. *)
Definition now_ms (s : State) : Z :=
  to_long (to_long (Time s * 1000) + Z.quot (Time_ns s) 1000000).

(** [printf("%lu")] of an [unsigned long]. *)
Definition fmt_lu (z : Z) : string := NilZero.string_of_uint (N.to_uint (Z.to_N z)).

(** ** Keepalive accessors (treeserver.cpp:196-215) *)

(** [this->NextPing = t; LastPingWasGood = false;] *)
Definition SetNextPingTime (this : positive) (t : Z) : M unit :=
  update this (set_NextPing t) ;;;
  update this (set_LastPingWasGood false).

(** [return NextPing;] *)
Definition NextPingTime (this : positive) : M Z :=
  nd ←← deref this ;; ret (NextPing nd).

(** [return LastPingWasGood;] *)
Definition AnsweredLastPing (this : positive) : M bool :=
  nd ←← deref this ;; ret (LastPingWasGood nd).

(** [LastPingWasGood = true;] *)
Definition SetPingFlag (this : positive) : M unit :=
  update this (set_LastPingWasGood true).

(** ** Plain accessors (treeserver.cpp:112-115, 181-194, 217-246) *)

(** The getters return the member; [SetVersion] assigns it. *)
Definition GetID (this : positive) : M string :=
  nd ←← deref this ;; ret (sid nd).
Definition GetRoute (this : positive) : M ptr :=
  nd ←← deref this ;; ret (Route nd).
Definition GetDesc (this : positive) : M string :=
  nd ←← deref this ;; ret (ServerDesc nd).
Definition GetVersion (this : positive) : M string :=
  nd ←← deref this ;; ret (VersionString nd).
Definition GetSocket (this : positive) : M (option nat) :=
  nd ←← deref this ;; ret (Socket nd).
Definition GetParent (this : positive) : M ptr :=
  nd ←← deref this ;; ret (Parent nd).
Definition SetVersion (this : positive) (Version : string) : M unit :=
  update this (set_VersionString Version).

(** [Children.push_back(Child)] *)
Definition AddChild (this Child : positive) : M unit :=
  update this (λ nd, set_Children (Children nd ++ [Child]) nd).

(** [std::find] then [erase]: the first occurrence goes. *)
Fixpoint erase_first (c : positive) (l : list positive) : list positive :=
  match l with
  | [] => []
  | x :: l' => if decide (x = c) then l' else x :: erase_first c l'
  end.

(** treeserver.cpp:237-246. *)
Definition DelChild (this Child : positive) : M bool :=
  nd ←← deref this ;;
  if decide (Child ∈ Children nd)
  then update this (set_Children (erase_first Child (Children nd))) ;;; ret true
  else ret false.

(** Modelled from the spec: [TreeServer::IsRoot] is declared inline in
    treeserver.h, which is not among the sources; the data model says the
    parent reference is "null only for the local root". *)
Definition IsRoot (nd : TreeServer) : bool :=
  match Parent nd with None => true | Some _ => false end.

(** ** Topology index *)

(** treeserver.cpp:172-176. *)
Definition AddHashEntry (this : positive) : M unit :=
  nd ←← deref this ;;
  modify (λ s, with_serverlist (<[ServerName nd := this]> (serverlist s)) s) ;;;
  modify (λ s, with_sidlist (<[sid nd := this]> (sidlist s)) s).

(** ** Constructors *)

(** The object a fresh [new] yields: the address must not hold a live object. *)
Definition alloc (this : positive) (nd : TreeServer) : M unit :=
  λ s, match heap s !! this with
       | Some _ => None
       | None => Some (tt, with_heap (<[this := nd]> (heap s)) s)
       end.

(** treeserver.cpp:35-41. [NextPing] and [LastPingWasGood] are not in the
    initialiser list and stay indeterminate: they come in as arguments. *)
Definition TreeServer_root (this : positive) (junk_ping : Z) (junk_good : bool) : M unit :=
  name ←← gets cfg_ServerName ;;
  desc ←← gets cfg_ServerDesc ;;
  vers ←← gets cfg_Version ;;
  id ←← gets cfg_SID ;;
  now ←← gets Time ;;
  alloc this (mkTreeServer None None [] name desc vers None id FakeClient
                now false false 0 0 0 0 false junk_ping junk_good) ;;;
  AddHashEntry this.

(** The loop of treeserver.cpp:89-92, on the [Route] member of [this]. *)
Fixpoint route_walk (fuel : nat) (this : positive) : M unit :=
  match fuel with
  | O => fail
  | S fuel' =>
      me ←← deref this ;;
      match Route me with
      | None => fail
      | Some r =>
          rn ←← deref r ;;
          root ←← gets TreeRoot ;;
          if decide (Parent rn = root) then ret tt
          else update this (set_Route (Parent rn)) ;;; route_walk fuel' this
      end
  end.

(** treeserver.cpp:47-110. The initialiser list leaves [Route],
    [StartBurst], [NextPing] and [LastPingWasGood] unset and the body
    assigns each of them before anything reads it, so the values [alloc]
    is given for them are never seen; [VersionString] is
    default-constructed, the empty string. *)
Definition TreeServer_child (fuel : nat) (this : positive)
    (Name Desc id : string) (Above : ptr) (Sock : option nat) (Hide : bool) : M unit :=
  now ←← gets Time ;;
  alloc this (mkTreeServer Above None [] Name Desc "" Sock id (NewFakeUser id Name)
                now false true 0 0 0 0 Hide 0 false) ;;;
  freq ←← gets PingFreq ;;
  SetNextPingTime this (to_long (now + freq)) ;;;
  SetPingFlag this ;;;
  ts ←← gets now_ms ;;
  update this (set_StartBurst ts) ;;;
  emit (EvLogDebug id ts) ;;;
  update this (set_Route Above) ;;;
  root ←← gets TreeRoot ;;
  (if decide (Above = root)
   then update this (set_Route (Some this))
   else route_walk fuel this) ;;;
  AddHashEntry this.

(** ** Burst lifecycle (treeserver.cpp:117-138) *)

(** treeserver.cpp:117-127: clear the flag, reschedule the keepalive,
    then the same on every child, in the order of the vector. *)
Fixpoint FinishBurstInternal (fuel : nat) (this : positive) : M unit :=
  match fuel with
  | O => fail
  | S fuel' =>
      update this (set_bursting false) ;;;
      now ←← gets Time ;;
      freq ←← gets PingFreq ;;
      SetNextPingTime this (to_long (now + freq)) ;;;
      SetPingFlag this ;;;
      me ←← deref this ;;
      for_each (FinishBurstInternal fuel') (Children me)
  end.

(** The two conditional arguments of the notice. *)
Definition burst_amount (bursttime : Z) : Z :=
  if 10000 <? bursttime then bursttime / 1000 else bursttime.

(** The unit printed after it. *)
Definition burst_unit (bursttime : Z) : string :=
  if 10000 <? bursttime then "secs" else "msecs".

(** The character [\2] of the format string. *)
Definition bold : string := String (ascii_of_nat 2) "".

(** ["Received end of netburst from \2%s\2 (burst time: %lu %s)"] *)
Definition burst_notice (name : string) (bursttime : Z) : string :=
  "Received end of netburst from " +:+ bold +:+ name +:+ bold +:+
  " (burst time: " +:+ fmt_lu (burst_amount bursttime) +:+ " " +:+
  burst_unit bursttime +:+ ")".

(** [unsigned long bursttime = ts - this->StartBurst] *)
Definition burst_time (ts : Z) (me : TreeServer) : Z :=
  to_ulong (to_long (ts - StartBurst me)).

(** [Parent == Utils->TreeRoot ? 'l' : 'L'] *)
Definition burst_mask (root : ptr) (me : TreeServer) : ascii :=
  if decide (Parent me = root) then "l"%char else "L"%char.

(** treeserver.cpp:129-138. *)
Definition FinishBurst (fuel : nat) (this : positive) : M unit :=
  FinishBurstInternal fuel this ;;;
  emit EvApplyLines ;;;
  ts ←← gets now_ms ;;
  me ←← deref this ;;
  root ←← gets TreeRoot ;;
  emit (EvSnoNotice (burst_mask root me)
          (burst_notice (ServerName me) (burst_time ts me))) ;;;
  emit (EvServerEvent (ServerName me)).

(** ** Split and teardown (treeserver.cpp:140-166, 252-282) *)

(** [a->quietquit = v] *)
Definition set_quietquit (v : bool) (u : User) : User :=
  mkUser (nick u) (server u) (is_local u) v.

(** Modelled from the spec: [UserManager::QuitUser] is not among the
    sources; the spec has it "disconnect the user". The call is recorded
    and the user leaves the registry, which is keyed by nick. *)
Definition QuitUser (u : User) (quitreason : string) (operreason : option string) : M unit :=
  modify (λ s, with_clientlist
                 (filter (λ v, nick v ≠ nick u) (clientlist s)) s) ;;;
  emit (EvQuitUser u quitreason operreason).

(** The body of the second loop of [QuitUsers], for one entry. *)
Definition quit_one (reason : string) (a : User) : M unit :=
  if is_local a then ret tt
  else
    quiet ←← gets quiet_bursts ;;
    let a' := if quiet then set_quietquit true a else a in
    hide ←← gets HideSplits ;;
    if hide then QuitUser a' "*.net *.split" (Some reason)
    else QuitUser a' reason None.

(** treeserver.cpp:140-166: collect the registry entries whose server is
    this node's name, run the loop body on each, return the size of the
    collection as an [int]. *)
Definition QuitUsers (this : positive) (reason : string) : M Z :=
  me ←← deref this ;;
  users ←← gets clientlist ;;
  let time_to_die := filter (λ u, server u = ServerName me) users in
  for_each (quit_one reason) time_to_die ;;;
  ret (to_int (Z.of_nat (length time_to_die))).

(** treeserver.cpp:267-272; [classbase::cull] has no effect on the node. *)
Definition cull (this : positive) : M unit :=
  me ←← deref this ;;
  if IsRoot me then ret tt else emit (EvCullUser (ServerUser me)).

(** treeserver.cpp:274-282. *)
Definition destructor (this : positive) : M unit :=
  me ←← deref this ;;
  (if IsRoot me then ret tt else emit (EvDeleteUser (ServerUser me))) ;;;
  modify (λ s, with_sidlist (delete (sid me) (sidlist s)) s) ;;;
  modify (λ s, with_serverlist (delete (ServerName me) (serverlist s)) s).

(** [delete p]: the destructor runs, then the object is gone. *)
Definition delete_node (p : positive) : M unit :=
  me ←← deref p ;;
  emit (EvDestroy p me) ;;;
  destructor p ;;;
  modify (λ s, with_heap (delete p (heap s)) s).

(** treeserver.cpp:252-265. The iterator [a] is taken before the calls on
    [s]; [Children.erase(a)] is defined only if the vector was left alone
    in between, and then removes its first element. *)
Fixpoint Tidy (fuel : nat) (this : positive) : M unit :=
  match fuel with
  | O => fail
  | S fuel' =>
      me ←← deref this ;;
      match Children me with
      | [] => ret tt
      | s :: rest =>
          Tidy fuel' s ;;;
          cull s ;;;
          me' ←← deref this ;;
          (if decide (Children me' = s :: rest)
           then update this (set_Children rest)
           else fail) ;;;
          delete_node s ;;;
          Tidy fuel' this
      end
  end.

(** ** The operations of the subsystem

    One constructor per entry point of the class, with its arguments;
    [OpNewRoot] is [Utils->TreeRoot = new TreeServer()], [OpClock] is the
    clock of the event loop moving on. *)
Inductive Op :=
  | OpNewRoot (this : positive) (junk_ping : Z) (junk_good : bool)
  | OpNewChild (fuel : nat) (this : positive) (Name Desc id : string)
      (Above : ptr) (Sock : option nat) (Hide : bool)
  | OpFinishBurst (fuel : nat) (this : positive)
  | OpFinishBurstInternal (fuel : nat) (this : positive)
  | OpQuitUsers (this : positive) (reason : string)
  | OpSetNextPingTime (this : positive) (t : Z)
  | OpNextPingTime (this : positive)
  | OpAnsweredLastPing (this : positive)
  | OpSetPingFlag (this : positive)
  | OpGetID (this : positive)
  | OpGetRoute (this : positive)
  | OpGetDesc (this : positive)
  | OpGetVersion (this : positive)
  | OpGetSocket (this : positive)
  | OpGetParent (this : positive)
  | OpSetVersion (this : positive) (Version : string)
  | OpAddChild (this Child : positive)
  | OpDelChild (this Child : positive)
  | OpTidy (fuel : nat) (this : positive)
  | OpCull (this : positive)
  | OpDelete (this : positive)
  | OpClock (t ns : Z).

(** Call a method and drop what it returns. *)
Definition ignore {A} (m : M A) : M unit := m ;;; ret tt.

(** What an operation does to the globals. *)
Definition step (o : Op) : M unit :=
  match o with
  | OpNewRoot this jp jg =>
      TreeServer_root this jp jg ;;;
      modify (with_TreeRoot (Some this))
  | OpNewChild fuel this Name Desc id Above Sock Hide =>
      TreeServer_child fuel this Name Desc id Above Sock Hide
  | OpFinishBurst fuel this => FinishBurst fuel this
  | OpFinishBurstInternal fuel this => FinishBurstInternal fuel this
  | OpQuitUsers this reason => ignore (QuitUsers this reason)
  | OpSetNextPingTime this t => SetNextPingTime this t
  | OpNextPingTime this => ignore (NextPingTime this)
  | OpAnsweredLastPing this => ignore (AnsweredLastPing this)
  | OpSetPingFlag this => SetPingFlag this
  | OpGetID this => ignore (GetID this)
  | OpGetRoute this => ignore (GetRoute this)
  | OpGetDesc this => ignore (GetDesc this)
  | OpGetVersion this => ignore (GetVersion this)
  | OpGetSocket this => ignore (GetSocket this)
  | OpGetParent this => ignore (GetParent this)
  | OpSetVersion this v => SetVersion this v
  | OpAddChild this c => AddChild this c
  | OpDelChild this c => ignore (DelChild this c)
  | OpTidy fuel this => Tidy fuel this
  | OpCull this => cull this
  | OpDelete this => delete_node this
  | OpClock t ns => modify (with_clock t ns)
  end.

(** The state after a method, when it has one. *)
Definition exec {A} (m : M A) (s : State) : option State :=
  snd <$> m s.

(** A node is live when the store holds an object at its address. *)
Definition live (p : positive) (s : State) : bool :=
  bool_decide (is_Some (heap s !! p)).

(** Run operations in order for as long as object [p] stays live: the
    same instance is there from the first state to the last. *)
Fixpoint run_alive (p : positive) (ops : list Op) (s : State) : option State :=
  if live p s then
    match ops with
    | [] => Some s
    | o :: ops' =>
        match exec (step o) s with
        | Some s' => run_alive p ops' s'
        | None => None
        end
    end
  else None.

(** An empty process: nothing allocated, nothing indexed. *)
Definition boot (name desc id vers : string) (freq : Z) (quiet hide : bool)
    (users : list User) (t ns : Z) : State :=
  mkState ∅ None ∅ ∅ users [] t ns freq quiet hide name desc id vers.

(** * Vocabulary of the theorems

    Relations, invariants and reference functions the theorems are
    stated with, and the small network they are tried on. *)

(** ** How a live object changes *)

(** The object at [n], if any, was there before and is [R]-related to
    what it was. *)
Definition evolves (n : positive) (R : relation TreeServer) (s s' : State) : Prop :=
  ∀ nd', heap s' !! n = Some nd' → ∃ nd, heap s !! n = Some nd ∧ R nd nd'.

(** Every run of [m] evolves the store at [n]. *)
Definition evolving {A} (n : positive) (R : relation TreeServer) (m : M A) : Prop :=
  ∀ s x s', m s = Some (x, s') → evolves n R s s'.

(** ** Operations, as seen from one object *)

(** The two entry points that end a burst. *)
Definition is_finish (o : Op) : bool :=
  match o with
  | OpFinishBurst _ _ | OpFinishBurstInternal _ _ => true
  | _ => false
  end.

(** The address an operation constructs a node at. *)
Definition constructs (o : Op) : option positive :=
  match o with
  | OpNewRoot this _ _ => Some this
  | OpNewChild _ this _ _ _ _ _ _ => Some this
  | _ => None
  end.

(** [SetNextPingTime] called on [n] itself. *)
Definition reschedules (n : positive) (o : Op) : bool :=
  match o with
  | OpSetNextPingTime p _ => bool_decide (p = n)
  | _ => false
  end.

(** The answered flag stays set; the bursting flag stays cleared; the
    bursting flag is untouched. *)
Definition good_mono : relation TreeServer :=
  λ a b, LastPingWasGood a = true → LastPingWasGood b = true.
Definition burst_mono : relation TreeServer :=
  λ a b, bursting a = false → bursting b = false.
Definition same_bursting : relation TreeServer :=
  λ a b, bursting b = bursting a.

(** ** A small network, built by the constructors

    The local root A with the neighbours B and leaf; D and E behind B, F
    behind D. Every node is made by its constructor and then hooked to its
    parent with [AddChild], the way the link handlers do it. Six sessions
    are registered, five of them on "leaf.example", two of these local. *)

(** Run operations in order. *)
Fixpoint run_ops (ops : list Op) (s : State) : option State :=
  match ops with
  | [] => Some s
  | o :: ops' =>
      match exec (step o) s with
      | Some s' => run_ops ops' s'
      | None => None
      end
  end.

(** The user registry of the demo network. *)
Definition demo_users : list User :=
  [ mkUser "u1" "leaf.example" false false;
    mkUser "u2" "leaf.example" true false;
    mkUser "u3" "leaf.example" false false;
    mkUser "u4" "other.example" false false;
    mkUser "u5" "leaf.example" true false;
    mkUser "u6" "leaf.example" false false ].

(** The process before the root exists: 1000.5 s on the clock, a ping
    every 60 s. *)
Definition demo_boot : State :=
  boot "a.example" "local" "00A" "InspIRCd-2.0" 60 false false demo_users
    1000 500000000.

(** The calls that build the network: A at 1, B at 2, D at 3, E at 4, F
    at 5, leaf at 6. *)
Definition demo_ops : list Op :=
  [ OpNewRoot 1 0 false;
    OpNewChild 8 2 "b.example" "B" "00B" (Some 1%positive) (Some 7%nat) false;
    OpAddChild 1 2;
    OpNewChild 8 3 "d.example" "D" "00D" (Some 2%positive) None false;
    OpAddChild 2 3;
    OpNewChild 8 4 "e.example" "E" "00E" (Some 2%positive) None false;
    OpAddChild 2 4;
    OpNewChild 8 5 "f.example" "F" "00F" (Some 3%positive) None false;
    OpAddChild 3 5;
    OpNewChild 8 6 "leaf.example" "leaf" "00L" (Some 1%positive) (Some 9%nat) false;
    OpAddChild 1 6 ].

(** The network they build. *)
Definition demo : State := default demo_boot (run_ops demo_ops demo_boot).

(** ** Burst lifecycle *)

(** [reach h p n]: [n] is [p] or a descendant of [p] along [Children],
    every node on the way being live. *)
Inductive reach (h : gmap positive TreeServer) : positive → positive → Prop :=
  | reach_self p nd : h !! p = Some nd → reach h p p
  | reach_child p nd c n :
      h !! p = Some nd → c ∈ Children nd → reach h c n → reach h p n.

(** The tree under [p] is live and fewer than [k] levels deep. *)
Fixpoint bounded (k : nat) (h : gmap positive TreeServer) (p : positive) : bool :=
  match k with
  | O => false
  | S k' =>
      match h !! p with
      | None => false
      | Some nd => forallb (bounded k' h) (Children nd)
      end
  end.

(** Two stores with the same objects and the same child vectors. *)
Definition same_shape (h h' : gmap positive TreeServer) : Prop :=
  ∀ q, Children <$> h' !! q = Children <$> h !! q.

(** What [FinishBurstInternal] leaves of a node it is called on. *)
Definition finished (t : Z) (nd : TreeServer) : TreeServer :=
  set_LastPingWasGood true (set_NextPing t (set_bursting false nd)).

(** What the recursion does, node by node: every node reached from [p]
    ends up [finished], every other node is as it was, and nothing but
    the store changes. *)
Definition FinishBurstInternal_post (p : positive) (s s' : State) : Prop :=
  let t := to_long (Time s + PingFreq s) in
  s' = with_heap (heap s') s ∧
  (∀ n, heap s' !! n = heap s !! n ∨ heap s' !! n = finished t <$> heap s !! n) ∧
  (∀ n, reach (heap s) p n → heap s' !! n = finished t <$> heap s !! n) ∧
  (∀ n, ¬ reach (heap s) p n → heap s' !! n = heap s !! n).

(** ** Construction *)

(** The spec's recurrence, read as a function of the store: route(N) = N
    if parent(N) is the root, otherwise route(parent(N)). *)
Fixpoint spec_route (fuel : nat) (h : gmap positive TreeServer) (root : ptr)
    (n : positive) : option positive :=
  match fuel with
  | O => None
  | S fuel' =>
      match h !! n with
      | None => None
      | Some nd =>
          if decide (Parent nd = root) then Some n
          else match Parent nd with
               | Some p => spec_route fuel' h root p
               | None => None
               end
      end
  end.

(** The object the child constructor leaves at [this], given its route. *)
Definition child_node (s : State) (Name Desc id : string) (Above : ptr)
    (Sock : option nat) (Hide : bool) (route : ptr) : TreeServer :=
  mkTreeServer Above route [] Name Desc "" Sock id (NewFakeUser id Name)
    (Time s) false true 0 0 0 (now_ms s) Hide (to_long (Time s + PingFreq s)) true.

(** The globals after the child constructor. *)
Definition child_state (s : State) (this : positive) (Name Desc id : string)
    (Above : ptr) (Sock : option nat) (Hide : bool) (route : ptr) : State :=
  mkState (<[this := child_node s Name Desc id Above Sock Hide route]> (heap s))
    (TreeRoot s) (<[Name := this]> (serverlist s)) (<[id := this]> (sidlist s))
    (clientlist s) (events s ++ [EvLogDebug id (now_ms s)])
    (Time s) (Time_ns s) (PingFreq s) (quiet_bursts s) (HideSplits s)
    (cfg_ServerName s) (cfg_ServerDesc s) (cfg_SID s) (cfg_Version s).

(** The [k]-th parent of [n], following [Parent] through live objects. *)
Fixpoint nth_parent (k : nat) (h : gmap positive TreeServer) (n : positive) : ptr :=
  match k with
  | O => Some n
  | S k' =>
      match h !! n with
      | Some nd =>
          match Parent nd with
          | Some p => nth_parent k' h p
          | None => None
          end
      | None => None
      end
  end.

(** [r] is live and its parent pointer is the root pointer. *)
Definition direct_child (h : gmap positive TreeServer) (root : ptr) (r : positive) : Prop :=
  ∃ nd, h !! r = Some nd ∧ Parent nd = root.

(** The root pointer, when set, points to a live object without parent. *)
Definition root_ok (h : gmap positive TreeServer) (root : ptr) : Prop :=
  ∀ rt, root = Some rt → ∃ nd, h !! rt = Some nd ∧ Parent nd = None.

(** Every route stored in a node is the one the recurrence gives. *)
Definition routes_sound (s : State) : Prop :=
  ∀ n nd r, heap s !! n = Some nd → Route nd = Some r →
            ∃ k, spec_route k (heap s) (TreeRoot s) n = Some r.

(** [Above] can take a child: it is the root pointer, or a node to which
    the recurrence gives a route within the fuel. *)
Definition routable (fuel : nat) (s : State) (Above : ptr) : Prop :=
  Above = TreeRoot s ∨
  ∃ p r, Above = Some p ∧ spec_route fuel (heap s) (TreeRoot s) p = Some r.

(** The route the child constructor settles on, if any. *)
Definition child_route (fuel : nat) (s : State) (this : positive)
    (Name Desc id : string) (Above : ptr) (Sock : option nat) (Hide : bool)
    : option positive :=
  if decide (Above = TreeRoot s) then Some this
  else match Above with
       | Some p =>
           spec_route fuel
             (<[this := child_node s Name Desc id Above Sock Hide Above]> (heap s))
             (TreeRoot s) p
       | None => None
       end.

(** The object the root constructor leaves at [this]. *)
Definition root_node (s : State) (junk_ping : Z) (junk_good : bool) : TreeServer :=
  mkTreeServer None None [] (cfg_ServerName s) (cfg_ServerDesc s) (cfg_Version s)
    None (cfg_SID s) FakeClient (Time s) false false 0 0 0 0 false
    junk_ping junk_good.

(** ** More of the demo network *)

(** The demo network after B's burst ended, and a later run of
    operations through which D stays alive. *)
Definition demo_finished : State := default demo (exec (FinishBurst 3 2) demo).

(** D gets a child G, loses it again to [Tidy], and is pinged. *)
Definition demo_later_ops : list Op :=
  [ OpSetVersion 3 "v"; OpNextPingTime 3;
    OpNewChild 4 9 "g.example" "G" "00G" (Some 3%positive) None false;
    OpAddChild 3 9; OpTidy 4 3; OpQuitUsers 6 "bye"; OpClock 2000 0;
    OpFinishBurstInternal 2 3; OpSetNextPingTime 3 2060 ].

(** The state that run ends in. *)
Definition demo_later : State :=
  default demo (run_alive 3 demo_later_ops demo_finished).

(** ** The topology index *)

(** The two maps hold exactly the live nodes: a key leads to an address
    just when a live node with that name (that SID) sits there. *)
Definition index_exact (s : State) : Prop :=
  (∀ k a, serverlist s !! k = Some a ↔
          ∃ nd, heap s !! a = Some nd ∧ ServerName nd = k) ∧
  (∀ k a, sidlist s !! k = Some a ↔
          ∃ nd, heap s !! a = Some nd ∧ sid nd = k).

(** Live nodes have pairwise distinct names and pairwise distinct SIDs. *)
Definition distinct_ids (s : State) : Prop :=
  ∀ a b na nb, heap s !! a = Some na → heap s !! b = Some nb →
               ServerName na = ServerName nb ∨ sid na = sid nb → a = b.

(** The operations that create or destroy nodes. *)
Definition creates_or_destroys (o : Op) : bool :=
  match o with
  | OpNewRoot _ _ _ | OpNewChild _ _ _ _ _ _ _ _ | OpTidy _ _ | OpDelete _ => true
  | _ => false
  end.

(** [preserves P m]: every run of [m] from a state with [P] ends in one. *)
Definition preserves {A} (P : State → Prop) (m : M A) : Prop :=
  ∀ s x s', m s = Some (x, s') → P s → P s'.

(** An assignment to a node that leaves its name and SID alone. *)
Definition keeps_ids (f : TreeServer → TreeServer) : Prop :=
  ∀ nd, ServerName (f nd) = ServerName nd ∧ sid (f nd) = sid nd.

(** A change of the globals that leaves the store and both maps alone. *)
Definition off_index (f : State → State) : Prop :=
  ∀ s, heap (f s) = heap s ∧ serverlist (f s) = serverlist s ∧
       sidlist (f s) = sidlist s.

(** The globals after [delete p], [nd] being the object at [p]. *)
Definition destroyed_state (s : State) (p : positive) (nd : TreeServer) : State :=
  mkState (delete p (heap s)) (TreeRoot s)
    (delete (ServerName nd) (serverlist s)) (delete (sid nd) (sidlist s))
    (clientlist s)
    (events s ++ EvDestroy p nd ::
       (if IsRoot nd then [] else [EvDeleteUser (ServerUser nd)]))
    (Time s) (Time_ns s) (PingFreq s) (quiet_bursts s) (HideSplits s)
    (cfg_ServerName s) (cfg_ServerDesc s) (cfg_SID s) (cfg_Version s).

(** Both maps and the set of live addresses are the given ones. *)
Definition index_is (m1 m2 : gmap string positive) (D : gset positive)
    (s : State) : Prop :=
  serverlist s = m1 ∧ sidlist s = m2 ∧ dom (heap s) = D.

(** ** Teardown *)

(** The tree a node and its descendants form, as a value. *)
#[local] Unset Elimination Schemes.
Inductive rose := Rose (a : positive) (kids : list rose).
#[local] Set Elimination Schemes.

(** The root of a tree and the subtrees below it. *)
Definition root_of (t : rose) : positive := match t with Rose a _ => a end.
Definition kids_of (t : rose) : list rose := match t with Rose _ kids => kids end.

(** The nodes of a tree, root first. *)
Fixpoint nodes (t : rose) : list positive :=
  match t with Rose a kids => a :: concat (map nodes kids) end.

(** The nodes strictly below the root. *)
Definition strict (t : rose) : list positive := concat (map nodes (kids_of t)).

(** The nodes of a tree, every node after all nodes below it. *)
Fixpoint postorder (t : rose) : list positive :=
  match t with Rose a kids => concat (map postorder kids) ++ [a] end.

(** The nodes strictly below the root, in that order. *)
Definition strict_postorder (t : rose) : list positive :=
  concat (map postorder (kids_of t)).

(** The store holds the tree: every node is live and its child vector
    lists the roots of its subtrees, in order. *)
Fixpoint laid_out (h : gmap positive TreeServer) (t : rose) : bool :=
  match t with
  | Rose a kids =>
      match h !! a with
      | Some nd =>
          bool_decide (Children nd = map root_of kids) && forallb (laid_out h) kids
      | None => false
      end
  end.

(** The names, and the SIDs, of the live nodes among [l]. *)
Definition names_of (h : gmap positive TreeServer) (l : list positive) : list string :=
  omap (λ x, ServerName <$> h !! x) l.
Definition sids_of (h : gmap positive TreeServer) (l : list positive) : list string :=
  omap (λ x, sid <$> h !! x) l.

(** The destructions recorded in a trace: which object, and the child
    vector it had at that moment. *)
Definition destroyed_log (evs : list Event) : list (positive * list positive) :=
  omap (λ e, match e with
             | EvDestroy x nd => Some (x, Children nd)
             | _ => None
             end) evs.

(** What [Tidy] on the root of [t] makes of the globals. *)
Definition Tidy_post (t : rose) (s s' : State) : Prop :=
  (∀ x, x ∈ strict t → heap s' !! x = None) ∧
  heap s' !! root_of t = set_Children [] <$> heap s !! root_of t ∧
  (∀ x, x ∉ nodes t → heap s' !! x = heap s !! x) ∧
  (∀ k, serverlist s' !! k =
        if decide (k ∈ names_of (heap s) (strict t)) then None
        else serverlist s !! k) ∧
  (∀ k, sidlist s' !! k =
        if decide (k ∈ sids_of (heap s) (strict t)) then None
        else sidlist s !! k) ∧
  destroyed_log (events s') =
    (destroyed_log (events s) ++ map (λ x, (x, [])) (strict_postorder t))%list ∧
  TreeRoot s' = TreeRoot s ∧ clientlist s' = clientlist s.

(** Every child has its parent pointer set to the node listing it. *)
Definition children_point_back (s : State) : Prop :=
  ∀ y nd c, heap s !! y = Some nd → c ∈ Children nd →
            ∃ ndc, heap s !! c = Some ndc ∧ Parent ndc = Some y.

(** A decision procedure for [index_exact], for concrete states. *)
Definition index_exactb (s : State) : bool :=
  forallb (λ ka, bool_decide (ServerName <$> heap s !! ka.2 = Some ka.1))
    (map_to_list (serverlist s)) &&
  forallb (λ ka, bool_decide (sid <$> heap s !! ka.2 = Some ka.1))
    (map_to_list (sidlist s)) &&
  forallb (λ an, bool_decide (serverlist s !! ServerName an.2 = Some an.1) &&
                 bool_decide (sidlist s !! sid an.2 = Some an.1))
    (map_to_list (heap s)).

(** A decision procedure for [children_point_back]. *)
Definition children_point_backb (s : State) : bool :=
  forallb (λ an, forallb (λ c, bool_decide (Parent <$> heap s !! c = Some (Some an.1)))
                   (Children an.2))
    (map_to_list (heap s)).

(** The globals after [cull] on the object [nd]. *)
Definition culled_state (s : State) (nd : TreeServer) : State :=
  if IsRoot nd then s
  else with_events (events s ++ [EvCullUser (ServerUser nd)]) s.

(** B with D and E below it and F below D, as laid out in [demo]. *)
Definition demo_tree : rose := Rose 2 [Rose 3 [Rose 5 []]; Rose 4 []].

(** The claim about [Tidy] as the spec words it: afterwards no node of
    the subtree, its root B included, is reachable through either map,
    and B is gone from the child vector of the local root. *)
Definition tidy_as_stated (fuel : nat) (t : rose) (s : State) : Prop :=
  ∀ s', Tidy fuel (root_of t) s = Some (tt, s') →
    (∀ x key, x ∈ nodes t →
              serverlist s' !! key ≠ Some x ∧ sidlist s' !! key ≠ Some x) ∧
    (∀ rt nd, TreeRoot s' = Some rt → heap s' !! rt = Some nd →
              root_of t ∉ Children nd).

(** ** The burst notice *)

(** The notice as the spec words it: whole milliseconds up to ten
    seconds, seconds with one decimal place above. *)
Definition spec_burst_notice (name : string) (bursttime : Z) : string :=
  "Received end of netburst from " +:+ bold +:+ name +:+ bold +:+
  " (burst time: " +:+
  (if 10000 <? bursttime
   then fmt_lu (bursttime / 1000) +:+ "." +:+ fmt_lu ((bursttime / 100) mod 10)
        +:+ " secs"
   else fmt_lu bursttime +:+ " msecs") +:+ ")".

(** The claim about the figure: the text emitted is the spec's. *)
Definition notice_figure_as_stated : Prop :=
  ∀ name bursttime, 0 ≤ bursttime < 2 ^ 64 →
    burst_notice name bursttime = spec_burst_notice name bursttime.

(** The claim about the wording: a direct neighbour of the root and a
    node further down, of one name and one burst time, get different
    texts. *)
Definition notice_wording_as_stated : Prop :=
  ∀ (root : ptr) (ts : Z) (me1 me2 : TreeServer),
    Parent me1 = root → Parent me2 ≠ root →
    ServerName me1 = ServerName me2 → StartBurst me1 = StartBurst me2 →
    burst_notice (ServerName me1) (burst_time ts me1) ≠
    burst_notice (ServerName me2) (burst_time ts me2).

(** The demo network 12.345 seconds after the nodes started bursting. *)
Definition demo_late : State := with_clock 1012 845000000 demo.

(** ** QuitUsers *)

(** The [QuitUser] call [QuitUsers] makes for a session that is not
    local, under the two configuration switches. *)
Definition quit_event (quiet hide : bool) (reason : string) (a : User) : Event :=
  let a' := if quiet then set_quietquit true a else a in
  if hide then EvQuitUser a' "*.net *.split" (Some reason)
  else EvQuitUser a' reason None.

(** The globals after the second loop of [QuitUsers] over [l]. *)
Fixpoint quit_all (reason : string) (l : list User) (s : State) : State :=
  match l with
  | [] => s
  | a :: l' =>
      quit_all reason l'
        (if is_local a then s
         else with_events
                (events s ++ [quit_event (quiet_bursts s) (HideSplits s) reason a])
                (with_clientlist (filter (λ v, nick v ≠ nick a) (clientlist s)) s))
  end.

(** ** What the operations leave alone *)

(** The members only the constructors assign: every member but
    [Children], [VersionString], [bursting], [NextPing] and
    [LastPingWasGood]. *)
Definition keeps_identity : relation TreeServer :=
  λ a b, Parent b = Parent a ∧ Route b = Route a ∧
         ServerName b = ServerName a ∧ ServerDesc b = ServerDesc a ∧
         sid b = sid a ∧ Socket b = Socket a ∧ ServerUser b = ServerUser a ∧
         age b = age a ∧ StartBurst b = StartBurst a ∧ Hidden b = Hidden a ∧
         Warned b = Warned a ∧ UserCount b = UserCount a ∧
         OperCount b = OperCount a ∧ rtt b = rtt a.

(** The version string is untouched. *)
Definition same_version : relation TreeServer :=
  λ a b, VersionString b = VersionString a.

(** [SetVersion] called on [n] itself. *)
Definition sets_version (n : positive) (o : Op) : bool :=
  match o with
  | OpSetVersion p _ => bool_decide (p = n)
  | _ => false
  end.

(** ** Links between nodes *)

(** No live node lists [c] in its child vector. *)
Definition unlisted (c : positive) (s : State) : Prop :=
  ∀ y nd, heap s !! y = Some nd → c ∉ Children nd.

(** What the class leaves to its callers: [AddChild] is handed a live
    node whose parent pointer is the receiver, and [delete] a node that no
    child vector lists any more. *)
Definition well_used (s : State) (o : Op) : Prop :=
  match o with
  | OpAddChild p c => ∃ ndc, heap s !! c = Some ndc ∧ Parent ndc = Some p
  | OpDelete p => unlisted p s
  | _ => True
  end.

(** The parent pointer and the child vector are untouched. *)
Definition same_links : relation TreeServer :=
  λ a b, Parent b = Parent a ∧ Children b = Children a.

(** The operations that allocate or free a node or edit a child vector. *)
Definition relinks (o : Op) : bool :=
  match o with
  | OpNewRoot _ _ _ | OpNewChild _ _ _ _ _ _ _ _ | OpAddChild _ _
  | OpDelChild _ _ | OpTidy _ _ | OpDelete _ => true
  | _ => false
  end.

(** The four calls that remove [B], a child of [P], and everything below
    it: the subtree goes, [B] leaves the child vector of [P], and [B]
    itself is culled and deleted. *)
Definition teardown_ops (fuel : nat) (P B : positive) : list Op :=
  [OpTidy fuel B; OpDelChild P B; OpCull B; OpDelete B].

(** The operations after which a stored route may no longer be the one
    the recurrence gives: the root pointer replaced, a node destroyed. *)
Definition unroutes (o : Op) : bool :=
  match o with
  | OpNewRoot _ _ _ | OpTidy _ _ | OpDelete _ => true
  | _ => false
  end.

(** The parent pointer and the route are untouched. *)
Definition same_route : relation TreeServer :=
  λ a b, Parent b = Parent a ∧ Route b = Route a.

(** What the trace shows of a node going in [Tidy]: its synthetic user
    culled, the object destroyed, the synthetic user deleted. *)
Definition destroy_events (xn : positive * TreeServer) : list Event :=
  (if IsRoot xn.2 then [] else [EvCullUser (ServerUser xn.2)]) ++
  EvDestroy xn.1 xn.2 ::
  (if IsRoot xn.2 then [] else [EvDeleteUser (ServerUser xn.2)]).

(** A node is constructed under [p], linked with [AddChild] and removed
    again by the four calls above. *)
Definition lifecycle_ops (fuel fuel' : nat) (this p : positive)
    (Name Desc id : string) (Sock : option nat) (Hide : bool) : list Op :=
  [OpNewChild fuel this Name Desc id (Some p) Sock Hide; OpAddChild p this] ++
  teardown_ops fuel' p this.

(** A decision procedure for [routes_sound], the recurrence being given
    [k] steps. *)
Definition routes_soundb (k : nat) (s : State) : bool :=
  forallb (λ an, match Route an.2 with
                 | Some r => bool_decide (spec_route k (heap s) (TreeRoot s) an.1 = Some r)
                 | None => true
                 end)
    (map_to_list (heap s)).

(** ** More states of the demo network *)

(** D lists F a second time. *)
Definition demo_relisted : State := default demo (exec (AddChild 3 5) demo).

(** The clock set back to 999.0 s, 1.5 s before the nodes began bursting. *)
Definition demo_set_back : State := with_clock 999 0 demo.

(** * Unloading modules (src/commands/cmd_unloadmodule.cpp) *)

Module cmd_unloadmodule.

(** The two results the handler returns. *)
Inductive CmdResult := CMD_FAILURE | CMD_SUCCESS.

(** The two numerics the handler writes. *)
Inductive Numeric := ERR_CANTUNLOADMODULE | RPL_UNLOADEDMODULE.

(** What the handler reaches through [ServerInstance], none of it among
    the sources: the switch [<security allowcoreunload>], the matcher
    [InspIRCd::Match] under [ascii_case_insensitive_map], and the module
    manager with its state [St] and its handles [Mod]: [Find], [Unload],
    which changes the manager, and [LastError]. *)
Record Core (Mod St : Type) := mkCore {
  allowcoreunload : bool;
  Match : string → string → bool;
  Find : St → string → option Mod;
  Unload : St → Mod → bool * St;
  LastError : St → string
}.
Arguments allowcoreunload {Mod St} _.
Arguments Match {Mod St} _ _ _.
Arguments Find {Mod St} _ _ _.
Arguments Unload {Mod St} _ _ _.
Arguments LastError {Mod St} _ _.

(** What the handler writes: a numeric to the user, a notice to the
    server operators. *)
Inductive Output :=
  | WriteNumeric (numeric : Numeric) (text : string)
  | WriteGlobalSno (letter : ascii) (text : string).

(** cmd_unloadmodule.cpp:43-72. [parameters[0]] of an empty vector is
    undefined; [&&] and [||] evaluate their right operand only when the
    left one does not decide. *)
Definition Handle {Mod St} (core : Core Mod St) (parameters : list string)
    (user : User) (st : St) : option (CmdResult * list Output * St) :=
  match parameters with
  | [] => None
  | p0 :: _ =>
      if negb (allowcoreunload core) && Match core p0 "cmd_*.so" then
        Some (CMD_FAILURE,
              [WriteNumeric ERR_CANTUNLOADMODULE
                 (p0 +:+ " :You cannot unload core commands!")], st)
      else if decide (p0 = "cmd_unloadmodule.so" ∨ p0 = "cmd_loadmodule.so") then
        Some (CMD_FAILURE,
              [WriteNumeric ERR_CANTUNLOADMODULE
                 (p0 +:+ " :You cannot unload module loading commands!")], st)
      else
        match Find core st p0 with
        | Some m =>
            let r := Unload core st m in
            if r.1 then
              Some (CMD_SUCCESS,
                    [WriteGlobalSno "a"
                       ("MODULE UNLOADED: " +:+ nick user +:+ " unloaded " +:+ p0);
                     WriteNumeric RPL_UNLOADEDMODULE
                       (p0 +:+ " :Module successfully unloaded.")], r.2)
            else
              Some (CMD_FAILURE,
                    [WriteNumeric ERR_CANTUNLOADMODULE
                       (p0 +:+ " :" +:+ LastError core r.2)], r.2)
        | None =>
            Some (CMD_FAILURE,
                  [WriteNumeric ERR_CANTUNLOADMODULE (p0 +:+ " :No such module")],
                  st)
        end
  end.

(** The name passes both guards of the handler. *)
Definition unguarded {Mod St} (core : Core Mod St) (p0 : string) : Prop :=
  (allowcoreunload core = true ∨ Match core p0 "cmd_*.so" = false) ∧
  p0 ≠ "cmd_unloadmodule.so" ∧ p0 ≠ "cmd_loadmodule.so".

(** A module manager to try the handler on: the state is the list of
    loaded modules, a module is its name, unloading always succeeds, and
    the matcher looks at the first four characters only. *)
Definition demo_core (allow : bool) : Core string (list string) :=
  mkCore string (list string) allow
    (λ str _, String.prefix "cmd_" str)
    (λ st name, if decide (name ∈ st) then Some name else None)
    (λ st m, (true, filter (λ x, x ≠ m) st))
    (λ _, "").

End cmd_unloadmodule.

(** * Modes on oper (src/modules/m_opermodes.cpp) *)

Module m_opermodes.

(** The two members of [userrec] the module reads. *)
Record userrec := mkuserrec { nick : string; oper : string }.

(** The part of [ConfigReader] the module uses, not among the sources:
    [Enumerate(tag)], the number of tags of that name, and
    [ReadValue(tag, name, index)], a value of the tag with that index. *)
Record ConfigReader := mkConfigReader {
  Enumerate : string → Z;
  ReadValue : string → string → Z → string
}.

(** A call [Srv->SendMode(modes, 2, user)]. *)
Inductive Call := SendMode (modes : list string) (pcnt : Z) (user : userrec).

(** The loop of m_opermodes.cpp:69-84 from index [j] on, [fuel] bounding
    the iterations left; the calls made, in order. [strcmp] returning 0 is
    equality of the two strings. *)
Fixpoint OnOper_from (Conf : ConfigReader) (user : userrec) (fuel : nat) (j : Z)
    : option (list Call) :=
  match fuel with
  | O => None
  | S fuel' =>
      if j <? Enumerate Conf "type" then
        let typen := ReadValue Conf "type" "name" j in
        if decide (typen = oper user) then
          let ThisOpersModes := ReadValue Conf "type" "modes" j in
          if decide (ThisOpersModes ≠ "")
          then Some [SendMode [nick user; ThisOpersModes] 2 user]
          else Some []
        else OnOper_from Conf user fuel' (j + 1)
      else Some []
  end.

(** m_opermodes.cpp:64-85; one iteration per tag and one for the test
    that ends the loop. *)
Definition OnOper (Conf : ConfigReader) (user : userrec) : option (list Call) :=
  OnOper_from Conf user (S (Z.to_nat (Enumerate Conf "type"))) 0.

(** A configuration given as the list of its [<type>] tags, name and
    modes; a value that is not there reads as the empty string. *)
Definition conf_of (types : list (string * string)) : ConfigReader :=
  mkConfigReader
    (λ tag, if decide (tag = "type") then Z.of_nat (length types) else 0)
    (λ tag name j,
       if decide (tag = "type" ∧ 0 ≤ j) then
         match types !! Z.to_nat j with
         | Some t => if decide (name = "name") then t.1
                     else if decide (name = "modes") then t.2 else ""
         | None => ""
         end
       else "").

(** Three oper types, two of them called Helper. *)
Definition demo_conf : ConfigReader :=
  conf_of [("NetAdmin", "+s"); ("Helper", ""); ("Helper", "+w")].

End m_opermodes.

(** * Reasoning about methods *)

Section monad_facts.
Context {A B : Type}.

Lemma bind_Some (m : M A) (k : A → M B) s y s' :
  bind m k s = Some (y, s') ↔ ∃ x s1, m s = Some (x, s1) ∧ k x s1 = Some (y, s').
Proof.
  unfold bind. split.
  - destruct (m s) as [[x s1]|] eqn:E; [|done]. eauto.
  - intros (x & s1 & -> & ?). done.
Qed.

Lemma bind_run (m : M A) (k : A → M B) s x s1 :
  m s = Some (x, s1) → bind m k s = k x s1.
Proof. unfold bind. by intros ->. Qed.

Lemma ret_Some (x y : A) s s' : ret x s = Some (y, s') ↔ y = x ∧ s' = s.
Proof. unfold ret. split; [by intros [= -> ->] | by intros [-> ->]]. Qed.

Lemma gets_Some (f : State → A) s y s' : gets f s = Some (y, s') ↔ y = f s ∧ s' = s.
Proof. unfold gets. split; [by intros [= <- <-] | by intros [-> ->]]. Qed.

Lemma fail_Some s (r : A * State) : fail s = Some r ↔ False.
Proof. unfold fail. naive_solver. Qed.
End monad_facts.

Lemma modify_Some f s u s' : modify f s = Some (u, s') ↔ s' = f s.
Proof. unfold modify. destruct u. naive_solver. Qed.

Lemma emit_Some e s u s' :
  emit e s = Some (u, s') ↔ s' = with_events (events s ++ [e]) s.
Proof. unfold emit. by rewrite modify_Some. Qed.

Lemma deref_Some p s nd s' :
  deref p s = Some (nd, s') ↔ heap s !! p = Some nd ∧ s' = s.
Proof. unfold deref. destruct (heap s !! p); naive_solver. Qed.

Lemma update_Some p f s u s' :
  update p f s = Some (u, s') ↔
  ∃ nd, heap s !! p = Some nd ∧ s' = with_heap (<[p := f nd]> (heap s)) s.
Proof.
  unfold update. rewrite bind_Some. split.
  - intros (nd & s1 & [? ->]%deref_Some & ->%modify_Some). eauto.
  - intros (nd & ? & ->). exists nd, s. by rewrite deref_Some, modify_Some.
Qed.

Lemma alloc_Some p nd s u s' :
  alloc p nd s = Some (u, s') ↔
  heap s !! p = None ∧ s' = with_heap (<[p := nd]> (heap s)) s.
Proof. unfold alloc. destruct u, (heap s !! p); naive_solver. Qed.

Lemma exec_Some {A} (m : M A) s s' :
  exec m s = Some s' ↔ ∃ x, m s = Some (x, s').
Proof.
  unfold exec. destruct (m s) as [[x s1]|]; simpl; [|naive_solver].
  split; [intros [= ->]; eauto | intros [? [= _ ->]]; done].
Qed.

Lemma live_Some p s : live p s = true ↔ ∃ nd, heap s !! p = Some nd.
Proof. unfold live. rewrite bool_decide_eq_true. done. Qed.

Lemma with_heap_idem h h' s : with_heap h (with_heap h' s) = with_heap h s.
Proof. done. Qed.

(** Take a successful run apart, one call at a time. *)
Ltac minv1 :=
  match goal with
  | H : bind _ _ _ = Some _ |- _ =>
      let x := fresh "x" in let s := fresh "s" in let H1 := fresh "H" in
      apply bind_Some in H as (x & s & H1 & H)
  | H : ret _ _ = Some _ |- _ => apply ret_Some in H as [? ?]
  | H : gets _ _ = Some _ |- _ => apply gets_Some in H as [? ?]
  | H : fail _ = Some _ |- _ => apply fail_Some in H as []
  | H : modify _ _ = Some _ |- _ => apply modify_Some in H
  | H : emit _ _ = Some _ |- _ => apply emit_Some in H
  | H : deref _ _ = Some _ |- _ => apply deref_Some in H as [? ?]
  | H : update _ _ _ = Some _ |- _ =>
      let nd := fresh "nd" in apply update_Some in H as (nd & ? & ?)
  | H : alloc _ _ _ = Some _ |- _ => apply alloc_Some in H as [? ?]
  | H : exec _ _ = Some _ |- _ =>
      let x := fresh "x" in apply exec_Some in H as [x H]
  | H : ignore _ _ = Some _ |- _ => unfold ignore in H
  end.
Ltac minv :=
  repeat (minv1; simplify_eq/=;
          try rewrite ?lookup_insert_eq in *; simplify_eq/=);
  try rewrite ?with_heap_idem, ?insert_insert_eq in *.

(** ** How a live object changes *)

Section evolving.
Context (n : positive) (R : relation TreeServer).
Context `{!Reflexive R, !Transitive R}.

Lemma evolves_refl s : evolves n R s s.
Proof. intros nd' ?. eauto. Qed.

Lemma evolves_trans s1 s2 s3 :
  evolves n R s1 s2 → evolves n R s2 s3 → evolves n R s1 s3.
Proof.
  intros H12 H23 nd3 H3. destruct (H23 _ H3) as (nd2 & H2 & ?).
  destruct (H12 _ H2) as (nd1 & ? & ?). exists nd1. split; [done|by etrans].
Qed.

Lemma evolves_same_heap s s' : heap s' = heap s → evolves n R s s'.
Proof. intros E nd' ?. rewrite E in *. eauto. Qed.

Lemma evolving_bind {A B} (m : M A) (k : A → M B) :
  evolving n R m → (∀ x, evolving n R (k x)) → evolving n R (bind m k).
Proof.
  intros Hm Hk s y s' (x & s1 & ? & ?)%bind_Some.
  eapply evolves_trans; [by eapply Hm | by eapply Hk].
Qed.

Lemma evolving_ret {A} (x : A) : evolving n R (ret x).
Proof. intros s y s' [_ ->]%ret_Some. apply evolves_refl. Qed.

Lemma evolving_fail {A} : evolving n R (@fail A).
Proof. intros s y s' []%fail_Some. Qed.

Lemma evolving_gets {A} (f : State → A) : evolving n R (gets f).
Proof. intros s y s' [_ ->]%gets_Some. apply evolves_refl. Qed.

Lemma evolving_deref p : evolving n R (deref p).
Proof. intros s y s' [_ ->]%deref_Some. apply evolves_refl. Qed.

Lemma evolving_modify f :
  (∀ s, heap (f s) = heap s) → evolving n R (modify f).
Proof. intros Hf s y s' ->%modify_Some. by apply evolves_same_heap. Qed.

Lemma evolving_emit e : evolving n R (emit e).
Proof. by apply evolving_modify. Qed.

Lemma evolving_update p f :
  (p = n → ∀ nd, R nd (f nd)) → evolving n R (update p f).
Proof.
  intros Hf s y s' (nd & Hp & ->)%update_Some nd'. simpl.
  destruct (decide (p = n)) as [->|].
  - rewrite lookup_insert_eq. intros [= <-]. eauto.
  - rewrite lookup_insert_ne by done. eauto.
Qed.

Lemma evolving_alloc p nd : p ≠ n → evolving n R (alloc p nd).
Proof.
  intros Hp s y s' [_ ->]%alloc_Some nd'. simpl.
  rewrite lookup_insert_ne by done. eauto.
Qed.

Lemma evolving_free p :
  evolving n R (modify (λ s, with_heap (delete p (heap s)) s)).
Proof.
  intros s y s' ->%modify_Some nd'. simpl.
  intros [_ ?]%lookup_delete_Some. eauto.
Qed.

Lemma evolving_for_each {A} (f : A → M unit) l :
  (∀ x, evolving n R (f x)) → evolving n R (for_each f l).
Proof.
  intros Hf. induction l as [|x l IH]; simpl.
  - apply evolving_ret.
  - apply evolving_bind; [apply Hf | done].
Qed.

Lemma evolving_if {A} (b : bool) (m1 m2 : M A) :
  evolving n R m1 → evolving n R m2 → evolving n R (if b then m1 else m2).
Proof. by destruct b. Qed.

Lemma evolving_decide {A} P `{!Decision P} (m1 m2 : M A) :
  evolving n R m1 → evolving n R m2 → evolving n R (if decide P then m1 else m2).
Proof. by destruct (decide P). Qed.

(** [SetNextPingTime] directly followed by [SetPingFlag] is one
    assignment of the pair. *)
Lemma evolving_reping {B} p t (k : M B) :
  (p = n → ∀ nd, R nd (set_LastPingWasGood true (set_NextPing t nd))) →
  evolving n R k →
  evolving n R (SetNextPingTime p t ;;; SetPingFlag p ;;; k).
Proof.
  intros Hf Hk s y s' Hrun. unfold SetNextPingTime, SetPingFlag in Hrun. minv.
  eapply evolves_trans; [|by eapply Hk].
  intros nd'. simpl.
  destruct (decide (p = n)) as [->|].
  - rewrite lookup_insert_eq. intros [= <-]. eexists; split; [done|].
    by apply Hf.
  - rewrite !lookup_insert_ne by done. eauto.
Qed.
End evolving.

Ltac evo1 :=
  lazymatch goal with
  | |- ∀ _, _ => intro
  | |- Reflexive _ => exact _
  | |- Transitive _ => exact _
  | |- evolving _ _ (ret _) => apply evolving_ret
  | |- evolving _ _ fail => apply evolving_fail
  | |- evolving _ _ (gets _) => apply evolving_gets
  | |- evolving _ _ (deref _) => apply evolving_deref
  | |- evolving _ _ (emit _) => apply evolving_emit
  | |- evolving _ _ (update _ _) =>
      apply evolving_update; try solve [intros; first [done | auto]]
  | |- evolving _ _ (alloc _ _) => apply evolving_alloc; try done
  | |- evolving _ _ (modify (λ s, with_heap (delete _ (heap s)) s)) =>
      apply evolving_free
  | |- evolving _ _ (modify _) => apply evolving_modify; done
  | |- evolving _ _ (bind (SetNextPingTime _ _) (λ _, bind (SetPingFlag _) _)) =>
      apply evolving_reping; try solve [intros; first [done | auto]]
  | |- evolving _ _ (bind _ _) => apply evolving_bind
  | |- evolving _ _ (for_each _ _) => apply evolving_for_each
  | |- evolving _ _ (if decide _ then _ else _) => apply evolving_decide
  | |- evolving _ _ (if _ then _ else _) => apply evolving_if
  | |- evolving _ _ (ignore _) => unfold ignore
  end.
Ltac evo := repeat first [assumption | evo1].

(** The methods, one by one. *)
Section methods_evolving.
Context (n : positive) (R : relation TreeServer).
Context `{!Reflexive R, !Transitive R}.

Lemma evolving_AddHashEntry p : evolving n R (AddHashEntry p).
Proof. unfold AddHashEntry. evo. Qed.

Lemma evolving_route_walk fuel p : p ≠ n → evolving n R (route_walk fuel p).
Proof.
  intros Hp. induction fuel as [|fuel IH]; simpl; [apply evolving_fail; done|].
  evo. destruct (Route x); evo.
Qed.

Lemma evolving_child fuel this Name Desc id Above Sock Hide :
  this ≠ n →
  evolving n R (TreeServer_child fuel this Name Desc id Above Sock Hide).
Proof.
  intros Hp. unfold TreeServer_child, SetNextPingTime, SetPingFlag. evo.
  - by apply evolving_route_walk.
  - apply evolving_AddHashEntry.
Qed.

Lemma evolving_root this jp jg :
  this ≠ n → evolving n R (TreeServer_root this jp jg).
Proof. intros Hp. unfold TreeServer_root. evo. apply evolving_AddHashEntry. Qed.

Lemma evolving_QuitUsers p reason : evolving n R (QuitUsers p reason).
Proof.
  unfold QuitUsers. evo. unfold quit_one, QuitUser. evo.
Qed.

Lemma evolving_cull p : evolving n R (cull p).
Proof. unfold cull. evo. Qed.

Lemma evolving_delete p : evolving n R (delete_node p).
Proof. unfold delete_node, destructor. evo. Qed.

Lemma evolving_reads p :
  evolving n R (NextPingTime p) ∧ evolving n R (AnsweredLastPing p) ∧
  evolving n R (GetID p) ∧ evolving n R (GetRoute p) ∧
  evolving n R (GetDesc p) ∧ evolving n R (GetVersion p) ∧
  evolving n R (GetSocket p) ∧ evolving n R (GetParent p).
Proof.
  unfold NextPingTime, AnsweredLastPing, GetID, GetRoute, GetDesc,
    GetVersion, GetSocket, GetParent.
  repeat split; evo.
Qed.

Section children.
Hypothesis R_Children : ∀ c nd, R nd (set_Children c nd).

Lemma evolving_AddChild p c : evolving n R (AddChild p c).
Proof. unfold AddChild. evo. Qed.

Lemma evolving_DelChild p c : evolving n R (DelChild p c).
Proof. unfold DelChild. evo. Qed.

Lemma evolving_Tidy fuel p : evolving n R (Tidy fuel p).
Proof.
  revert p. induction fuel as [|fuel IH]; intros p; simpl; [evo|].
  evo. destruct (Children x) as [|c rest]; evo.
  - apply IH.
  - apply evolving_cull.
  - apply evolving_delete.
  - apply IH.
Qed.
End children.

Section burst.
Hypothesis R_bursting : ∀ nd, R nd (set_bursting false nd).
Hypothesis R_reping :
  ∀ t nd, R nd (set_LastPingWasGood true (set_NextPing t nd)).

Lemma evolving_FinishBurstInternal fuel p :
  evolving n R (FinishBurstInternal fuel p).
Proof.
  revert p. induction fuel as [|fuel IH]; intros p; simpl; evo.
Qed.

Lemma evolving_FinishBurst fuel p : evolving n R (FinishBurst fuel p).
Proof.
  unfold FinishBurst. evo. apply evolving_FinishBurstInternal.
Qed.
End burst.
End methods_evolving.

(** ** Operations, as seen from one object *)

#[local] Instance good_mono_refl : Reflexive good_mono.
Proof. intros a ?. done. Qed.
#[local] Instance good_mono_trans : Transitive good_mono.
Proof. intros a b c Hab Hbc ?. auto. Qed.
#[local] Instance burst_mono_refl : Reflexive burst_mono.
Proof. intros a ?. done. Qed.
#[local] Instance burst_mono_trans : Transitive burst_mono.
Proof. intros a b c Hab Hbc ?. auto. Qed.
#[local] Instance same_bursting_refl : Reflexive same_bursting.
Proof. intros a. by unfold same_bursting. Qed.
#[local] Instance same_bursting_trans : Transitive same_bursting.
Proof. intros a b c Hab Hbc. unfold same_bursting in *. congruence. Qed.

Lemma step_constructs_fresh o p s s' :
  constructs o = Some p → exec (step o) s = Some s' → heap s !! p = None.
Proof.
  destruct o; intros [= <-] Hrun; simpl in Hrun;
    unfold TreeServer_root, TreeServer_child in Hrun; minv; done.
Qed.

Section step_evolving.
Context (n : positive) (R : relation TreeServer).
Context `{!Reflexive R, !Transitive R}.
Hypothesis R_Children : ∀ c nd, R nd (set_Children c nd).
Hypothesis R_Version : ∀ v nd, R nd (set_VersionString v nd).
Hypothesis R_PingFlag : ∀ nd, R nd (set_LastPingWasGood true nd).
Hypothesis R_reping :
  ∀ t nd, R nd (set_LastPingWasGood true (set_NextPing t nd)).

Lemma evolving_SetNextPingTime p t :
  (p = n → ∀ nd, R nd (set_LastPingWasGood false (set_NextPing t nd))) →
  evolving n R (SetNextPingTime p t).
Proof.
  intros Hf s y s' Hrun. unfold SetNextPingTime in Hrun. minv.
  intros nd'. simpl.
  destruct (decide (p = n)) as [->|].
  - rewrite lookup_insert_eq. intros [= <-]. eexists; split; [done|].
    by apply Hf.
  - rewrite !lookup_insert_ne by done. eauto.
Qed.

Lemma evolving_step o :
  (is_finish o = true → ∀ nd, R nd (set_bursting false nd)) →
  (reschedules n o = true →
   ∀ t nd, R nd (set_LastPingWasGood false (set_NextPing t nd))) →
  constructs o ≠ Some n →
  evolving n R (step o).
Proof.
  intros Hfin Hres Hnew.
  pose proof (evolving_reads n R) as Hreads.
  destruct o; simpl in *; evo; try (by apply Hreads).
  - apply evolving_root; evo. by intros ->.
  - apply evolving_child; evo. by intros ->.
  - apply evolving_FinishBurst; evo; auto.
  - apply evolving_FinishBurstInternal; evo; auto.
  - apply evolving_QuitUsers; evo.
  - apply evolving_SetNextPingTime. intros ->. apply Hres.
    by rewrite bool_decide_eq_true.
  - unfold SetPingFlag. evo.
  - unfold SetVersion. evo.
  - apply evolving_AddChild; evo.
  - apply evolving_DelChild; evo.
  - apply evolving_Tidy; evo.
  - apply evolving_cull; evo.
  - apply evolving_delete; evo.
Qed.

(** Along a run that keeps the object alive, the first and the last
    state of the object are related. *)
Lemma run_alive_evolves ops s s' :
  Forall (λ o, (is_finish o = true → ∀ nd, R nd (set_bursting false nd)) ∧
               (reschedules n o = true →
                ∀ t nd, R nd (set_LastPingWasGood false (set_NextPing t nd)))) ops →
  run_alive n ops s = Some s' →
  ∃ nd nd', heap s !! n = Some nd ∧ heap s' !! n = Some nd' ∧ R nd nd'.
Proof.
  intros Hops. revert s. induction Hops as [|o ops [Hf Hr] _ IH]; intros s; simpl.
  - destruct (live n s) eqn:Hl; [|done]. intros [= <-].
    apply live_Some in Hl as [nd Hnd]. by exists nd, nd.
  - destruct (live n s) eqn:Hl; [|done].
    destruct (exec (step o) s) as [s1|] eqn:Hstep; [|done]. intros Hrun.
    destruct (IH _ Hrun) as (nd1 & nd' & H1 & Hn' & HR).
    apply live_Some in Hl as [nd Hnd].
    assert (constructs o ≠ Some n) as Hnew.
    { intros Hc. pose proof (step_constructs_fresh _ _ _ _ Hc Hstep). congruence. }
    apply exec_Some in Hstep as [[] Hstep].
    destruct (evolving_step o Hf Hr Hnew _ _ _ Hstep _ H1) as (nd0 & ? & ?).
    exists nd0, nd'. split_and!; [done..|by etrans].
Qed.
End step_evolving.

(** ** The demo network *)

Example demo_built : run_ops demo_ops demo_boot = Some demo.
Proof. vm_compute. reflexivity. Qed.

(** * Keepalive *)

Lemma read_NextPingTime n s nd :
  heap s !! n = Some nd → NextPingTime n s = Some (NextPing nd, s).
Proof. intros H. unfold NextPingTime, bind, deref, ret. by rewrite H. Qed.

Lemma read_AnsweredLastPing n s nd :
  heap s !! n = Some nd → AnsweredLastPing n s = Some (LastPingWasGood nd, s).
Proof. intros H. unfold AnsweredLastPing, bind, deref, ret. by rewrite H. Qed.

Lemma update_run p f s nd :
  heap s !! p = Some nd →
  update p f s = Some (tt, with_heap (<[p := f nd]> (heap s)) s).
Proof. intros H. unfold update, bind, deref, modify. by rewrite H. Qed.

Lemma SetNextPingTime_run n t s nd :
  heap s !! n = Some nd →
  SetNextPingTime n t s =
  Some (tt, with_heap (<[n := set_LastPingWasGood false (set_NextPing t nd)]> (heap s)) s).
Proof.
  intros H. unfold SetNextPingTime.
  erewrite bind_run by (by apply update_run).
  erewrite update_run by (simpl; apply lookup_insert_eq).
  simpl. by rewrite insert_insert_eq.
Qed.

Lemma SetPingFlag_run n s nd :
  heap s !! n = Some nd →
  SetPingFlag n s =
  Some (tt, with_heap (<[n := set_LastPingWasGood true nd]> (heap s)) s).
Proof. intros H. unfold SetPingFlag. by apply update_run. Qed.

(** C6. [SetNextPingTime(t)] stores [t] as the due time and clears the
    answered flag; [SetPingFlag()] sets the flag, and the flag is still
    set after any run of operations on the live node none of which is a
    [SetNextPingTime] on it; [NextPingTime()] and [AnsweredLastPing()]
    return a value and leave the state as it was. *)
Theorem keepalive_protocol (n : positive) (t : Z) (s : State) :
  live n s = true →
  (∃ s1, SetNextPingTime n t s = Some (tt, s1) ∧
         NextPingTime n s1 = Some (t, s1) ∧
         AnsweredLastPing n s1 = Some (false, s1)) ∧
  (∃ s1, SetPingFlag n s = Some (tt, s1) ∧
         ∀ ops s2, Forall (λ o, reschedules n o = false) ops →
                   run_alive n ops s1 = Some s2 →
                   AnsweredLastPing n s2 = Some (true, s2)) ∧
  (∃ v, NextPingTime n s = Some (v, s)) ∧
  (∃ b, AnsweredLastPing n s = Some (b, s)).
Proof.
  intros [nd Hnd]%live_Some. split_and!.
  - eexists. split; [by apply SetNextPingTime_run|]. split.
    + erewrite read_NextPingTime by (simpl; apply lookup_insert_eq). done.
    + erewrite read_AnsweredLastPing by (simpl; apply lookup_insert_eq). done.
  - eexists. split; [by apply SetPingFlag_run|]. intros ops s2 Hops Hrun.
    assert (Forall (λ o, (is_finish o = true →
                            ∀ nd, good_mono nd (set_bursting false nd)) ∧
                         (reschedules n o = true →
                            ∀ t nd, good_mono nd (set_LastPingWasGood false
                                                    (set_NextPing t nd)))) ops)
      as Hops'.
    { eapply Forall_impl; [exact Hops|]. intros o Ho. simpl in Ho.
      split; [by intros _ nd' ?|]. by rewrite Ho. }
    destruct (run_alive_evolves n good_mono (λ _ _ H, H) (λ _ _ H, H)
                (λ _ _, eq_refl) (λ _ _ _, eq_refl) ops _ s2 Hops' Hrun)
      as (nd1 & nd2 & H1 & H2 & Hmono).
    simpl in H1. rewrite lookup_insert_eq in H1. simplify_eq.
    erewrite read_AnsweredLastPing by done. by rewrite Hmono.
  - eexists. by apply read_NextPingTime.
  - eexists. by apply read_AnsweredLastPing.
Qed.

Lemma keepalive_protocol_witness :
  live 2 demo = true ∧
  ∃ s1, SetPingFlag 2 demo = Some (tt, s1) ∧
        ∀ ops s2, Forall (λ o, reschedules 2 o = false) ops →
                  run_alive 2 ops s1 = Some s2 →
                  AnsweredLastPing 2 s2 = Some (true, s2).
Proof.
  split; [vm_compute; reflexivity|].
  apply (keepalive_protocol 2 77 demo). vm_compute; reflexivity.
Defined.

(** * Burst lifecycle *)

Lemma same_shape_trans h1 h2 h3 :
  same_shape h1 h2 → same_shape h2 h3 → same_shape h1 h3.
Proof. intros H12 H23 q. by rewrite H23, H12. Qed.

Lemma same_shape_sym h1 h2 : same_shape h1 h2 → same_shape h2 h1.
Proof. intros H q. by rewrite H. Qed.

Lemma same_shape_lookup h h' q nd :
  same_shape h h' → h !! q = Some nd →
  ∃ nd', h' !! q = Some nd' ∧ Children nd' = Children nd.
Proof.
  intros H Hq. specialize (H q). rewrite Hq in H.
  destruct (h' !! q) as [nd'|]; [|done]. exists nd'. by simplify_eq/=.
Qed.

Lemma reach_same_shape h h' p n :
  same_shape h h' → reach h p n → reach h' p n.
Proof.
  intros Hs Hr. induction Hr as [p nd Hp | p nd c n Hp Hc _ IH].
  - destruct (same_shape_lookup _ _ _ _ Hs Hp) as (nd' & ? & _).
    by eapply reach_self.
  - destruct (same_shape_lookup _ _ _ _ Hs Hp) as (nd' & ? & Hch).
    eapply reach_child; [done | by rewrite Hch | done].
Qed.

Lemma bounded_same_shape k h h' p :
  same_shape h h' → bounded k h' p = bounded k h p.
Proof.
  intros Hs. revert p. induction k as [|k IH]; intros p; simpl; [done|].
  pose proof (Hs p) as Hp.
  destruct (h !! p) as [nd|], (h' !! p) as [nd'|]; simplify_eq/=; [|done].
  rewrite Hp. clear Hp. induction (Children nd) as [|c l IHl]; simpl; [done|].
  by rewrite IH, IHl.
Qed.

Lemma reach_live h p n : reach h p n → is_Some (h !! n).
Proof. induction 1; eauto. Qed.

Lemma either_same_shape t (h h' : gmap positive TreeServer) :
  (∀ n, h' !! n = h !! n ∨ h' !! n = finished t <$> h !! n) → same_shape h h'.
Proof.
  intros H q. destruct (H q) as [->| ->]; [done|].
  by destruct (h !! q).
Qed.

Lemma for_each_FinishBurstInternal fuel l :
  (∀ c s s', FinishBurstInternal fuel c s = Some (tt, s') →
             FinishBurstInternal_post c s s') →
  ∀ (T : positive → Prop) s0 s s',
    let t := to_long (Time s0 + PingFreq s0) in
    for_each (FinishBurstInternal fuel) l s = Some (tt, s') →
    s = with_heap (heap s) s0 →
    (∀ n, heap s !! n = heap s0 !! n ∨ heap s !! n = finished t <$> heap s0 !! n) →
    (∀ n, T n → heap s !! n = finished t <$> heap s0 !! n) →
    (∀ n, ¬ T n → heap s !! n = heap s0 !! n) →
    s' = with_heap (heap s') s0 ∧
    (∀ n, heap s' !! n = heap s0 !! n ∨ heap s' !! n = finished t <$> heap s0 !! n) ∧
    (∀ n, T n ∨ (∃ c, c ∈ l ∧ reach (heap s0) c n) →
          heap s' !! n = finished t <$> heap s0 !! n) ∧
    (∀ n, ¬ (T n ∨ ∃ c, c ∈ l ∧ reach (heap s0) c n) → heap s' !! n = heap s0 !! n).
Proof.
  intros IH. induction l as [|c l IHl]; intros T s0 s s' t Hrun Hfr Hei HT HnT; simpl in Hrun.
  - minv. split_and!; [done..| |].
    + intros n [?|(c & []%elem_of_nil & _)]. auto.
    + intros n Hn. apply HnT. tauto.
  - apply bind_Some in Hrun as ([] & s1 & Hc & Hrest).
    destruct (IH _ _ _ Hc) as (Hfr1 & Hei1 & Hre1 & Hnre1).
    assert (to_long (Time s + PingFreq s) = t) as Ht by (by rewrite Hfr).
    rewrite Ht in Hei1, Hre1. clear Ht.
    assert (same_shape (heap s0) (heap s)) as Hsh by (by eapply either_same_shape).
    destruct (IHl (λ n, T n ∨ reach (heap s0) c n) s0 s1 s' Hrest)
      as (Hfr' & Hei' & Hre' & Hnre').
    + rewrite Hfr1. by rewrite Hfr.
    + intros n. destruct (Hei1 n) as [->| ->]; [done|].
      destruct (Hei n) as [->| ->]; [by right|]. right.
      by destruct (heap s0 !! n).
    + intros n [Hn|Hn].
      * destruct (Hei1 n) as [->| ->]; [by apply HT|].
        rewrite (HT n Hn). by destruct (heap s0 !! n).
      * rewrite Hre1 by (by eapply reach_same_shape).
        destruct (Hei n) as [->| ->]; [done|]. by destruct (heap s0 !! n).
    + intros n Hn. rewrite Hnre1.
      * apply HnT. tauto.
      * intros Hr. apply Hn. right.
        eapply reach_same_shape; [|done]. by apply same_shape_sym.
    + split_and!; [done..| |].
      * intros n [Hn|(c' & [->|Hc']%elem_of_cons & Hr)]; apply Hre'; eauto.
      * intros n Hn. apply Hnre'. intros [[?|?]|(c' & ? & ?)]; apply Hn; eauto.
        -- right. exists c. split; [left|done].
        -- right. exists c'. split; [by right|done].
Qed.

Lemma FinishBurstInternal_unfold fuel p s me :
  heap s !! p = Some me →
  FinishBurstInternal (S fuel) p s =
  for_each (FinishBurstInternal fuel) (Children me)
    (with_heap (<[p := finished (to_long (Time s + PingFreq s)) me]> (heap s)) s).
Proof.
  intros Hme. simpl.
  unfold SetNextPingTime, SetPingFlag, update, bind, deref, modify, gets.
  repeat first [rewrite Hme | rewrite lookup_insert_eq | progress simpl].
  by rewrite !insert_insert_eq.
Qed.

Lemma FinishBurstInternal_live fuel p s r :
  FinishBurstInternal fuel p s = Some r → is_Some (heap s !! p).
Proof.
  destruct fuel; simpl; [by intros []%fail_Some|]. destruct r as [[] s'].
  intros Hrun. minv. eauto.
Qed.

Lemma FinishBurstInternal_spec fuel p s s' :
  FinishBurstInternal fuel p s = Some (tt, s') →
  FinishBurstInternal_post p s s'.
Proof.
  revert p s s'. induction fuel as [|fuel IH]; intros p s s' Hrun.
  { by apply fail_Some in Hrun. }
  destruct (FinishBurstInternal_live _ _ _ _ Hrun) as [me Hme].
  rewrite (FinishBurstInternal_unfold _ _ _ _ Hme) in Hrun.
  set (t := to_long (Time s + PingFreq s)) in *.
  destruct (for_each_FinishBurstInternal fuel (Children me) IH
              (λ n, n = p) s _ s' Hrun) as (Hfr & Hei & Hre & Hnre); simpl.
  - done.
  - intros n. destruct (decide (n = p)) as [->|].
    + right. by rewrite lookup_insert_eq, Hme.
    + left. by rewrite lookup_insert_ne.
  - intros n ->. by rewrite lookup_insert_eq, Hme.
  - intros n ?. by rewrite lookup_insert_ne.
  - split_and!; [done..| |].
    + intros n Hr. apply Hre. inversion Hr; simplify_eq; [by left|].
      right. eauto.
    + intros n Hn. apply Hnre. intros [->|(c & Hc & Hr)]; apply Hn.
      * by eapply reach_self.
      * by eapply reach_child.
Qed.

Lemma for_each_FinishBurstInternal_total fuel l s0 :
  (∀ c s, bounded fuel (heap s) c = true →
          ∃ s', FinishBurstInternal fuel c s = Some (tt, s')) →
  ∀ s, same_shape (heap s0) (heap s) →
       forallb (bounded fuel (heap s0)) l = true →
       ∃ s', for_each (FinishBurstInternal fuel) l s = Some (tt, s').
Proof.
  intros IH. induction l as [|c l IHl]; intros s Hsh Hl; simpl in *.
  - by eexists.
  - apply andb_prop in Hl as [Hc Hl].
    destruct (IH c s) as [s1 Hs1]; [by rewrite (bounded_same_shape _ _ _ _ Hsh)|].
    destruct (FinishBurstInternal_spec _ _ _ _ Hs1) as (_ & Hei & _).
    destruct (IHl s1) as [s' Hs']; [|done|].
    + eapply same_shape_trans; [done|]. by eapply either_same_shape.
    + exists s'. by erewrite bind_run.
Qed.

Lemma FinishBurstInternal_total fuel p s :
  bounded fuel (heap s) p = true →
  ∃ s', FinishBurstInternal fuel p s = Some (tt, s').
Proof.
  revert p s. induction fuel as [|fuel IH]; intros p s Hb; simpl in Hb; [done|].
  destruct (heap s !! p) as [me|] eqn:Hme; [|done].
  set (t := to_long (Time s + PingFreq s)).
  destruct (for_each_FinishBurstInternal_total fuel (Children me) s IH
              (with_heap (<[p := finished t me]> (heap s)) s)) as [s' Hs']; [|done|].
  - simpl. intros q. destruct (decide (q = p)) as [->|].
    + by rewrite lookup_insert_eq, Hme.
    + by rewrite lookup_insert_ne.
  - exists s'. by rewrite (FinishBurstInternal_unfold _ _ _ _ Hme).
Qed.

(** Where the child vectors do not describe a tree the recursion has no
    result: with B listed below F it never ends, and with F destroyed
    behind D's back it follows a dangling pointer. *)
Example FinishBurst_on_a_cycle :
  (s ← exec (AddChild 5 2) demo; exec (FinishBurst 50 2) s) = None.
Proof. vm_compute. reflexivity. Qed.

Example FinishBurst_on_a_dangling_child :
  (s ← exec (delete_node 5) demo; exec (FinishBurst 50 2) s) = None.
Proof. vm_compute. reflexivity. Qed.

#[local] Opaque burst_notice burst_time burst_mask now_ms.

Lemma FinishBurst_exact fuel B s s1 nb :
  FinishBurstInternal fuel B s = Some (tt, s1) →
  heap s !! B = Some nb →
  FinishBurst fuel B s =
  Some (tt, with_events
              (events s ++
                 [ EvApplyLines;
                   EvSnoNotice (burst_mask (TreeRoot s) nb)
                     (burst_notice (ServerName nb) (burst_time (now_ms s) nb));
                   EvServerEvent (ServerName nb) ]) s1).
Proof.
  intros Hrun Hnb.
  destruct (FinishBurstInternal_spec _ _ _ _ Hrun) as (Hfr & _ & Hre & _).
  pose proof (Hre B (reach_self _ _ _ Hnb)) as HB. rewrite Hnb in HB. simpl in HB.
  unfold FinishBurst. erewrite bind_run by done.
  unfold emit at 1, modify at 1, bind at 1.
  unfold gets at 1, bind at 1.
  erewrite bind_run by (apply deref_Some; simpl; eauto).
  unfold gets at 1, bind at 1. unfold emit, modify, bind.
  cbn [events with_events]. rewrite <- !app_assoc.
  rewrite Hfr. reflexivity.
Qed.

#[local] Transparent burst_notice burst_time burst_mask now_ms.


(** * Construction *)

Lemma set_Route_same nd : set_Route (Route nd) nd = nd.
Proof. by destruct nd. Qed.

Lemma route_walk_inv fuel this s s' :
  route_walk fuel this s = Some (tt, s') →
  ∃ nd r, heap s !! this = Some nd ∧
          s' = with_heap (<[this := set_Route r nd]> (heap s)) s.
Proof.
  revert s s'. induction fuel as [|fuel IH]; intros s s' Hrun; simpl in Hrun.
  { by apply fail_Some in Hrun. }
  apply bind_Some in Hrun as (me & s1 & [Hme ->]%deref_Some & Hrun).
  destruct (Route me) as [r|] eqn:Hr; [|by apply fail_Some in Hrun].
  apply bind_Some in Hrun as (rn & s1 & [Hrn ->]%deref_Some & Hrun).
  apply bind_Some in Hrun as (root & s1 & [-> ->]%gets_Some & Hrun).
  destruct (decide (Parent rn = TreeRoot s)).
  - apply ret_Some in Hrun as [_ ->]. exists me, (Route me).
    split; [done|]. rewrite set_Route_same, insert_id by done. by destruct s.
  - apply bind_Some in Hrun as ([] & s1 & Hup & Hrun).
    apply update_Some in Hup as (me' & ? & ->). simplify_eq.
    destruct (IH _ _ Hrun) as (nd & r' & Hnd & ->). simpl in *.
    rewrite lookup_insert_eq in Hnd. simplify_eq.
    exists me, r'. split; [done|]. by rewrite insert_insert_eq.
Qed.

(** The constructor body up to the route computation, as one state. *)
Lemma TreeServer_child_unfold fuel this Name Desc id Above Sock Hide s :
  heap s !! this = None →
  TreeServer_child fuel this Name Desc id Above Sock Hide s =
  ((if decide (Above = TreeRoot s)
    then update this (set_Route (Some this))
    else route_walk fuel this) ;;; AddHashEntry this)
    (with_events (events s ++ [EvLogDebug id (now_ms s)])
       (with_heap (<[this := child_node s Name Desc id Above Sock Hide Above]>
                     (heap s)) s)).
Proof.
  intros Hfresh.
  unfold TreeServer_child, SetNextPingTime, SetPingFlag, update, bind, deref,
    modify, gets, alloc, emit.
  repeat first [rewrite Hfresh | rewrite lookup_insert_eq | progress simpl].
  by rewrite !insert_insert_eq.
Qed.

Lemma AddHashEntry_run this s nd :
  heap s !! this = Some nd →
  AddHashEntry this s =
  Some (tt, with_sidlist (<[sid nd := this]> (sidlist s))
              (with_serverlist (<[ServerName nd := this]> (serverlist s)) s)).
Proof.
  intros H. unfold AddHashEntry, bind, deref, modify. by rewrite H.
Qed.

Lemma TreeServer_child_fresh fuel this Name Desc id Above Sock Hide s r :
  TreeServer_child fuel this Name Desc id Above Sock Hide s = Some r →
  heap s !! this = None.
Proof.
  destruct r as [[] s']. unfold TreeServer_child. intros Hrun.
  apply bind_Some in Hrun as (? & ? & [-> ->]%gets_Some & Hrun).
  apply bind_Some in Hrun as (? & ? & [? _]%alloc_Some & _). done.
Qed.

Lemma TreeServer_child_inv fuel this Name Desc id Above Sock Hide s s' :
  TreeServer_child fuel this Name Desc id Above Sock Hide s = Some (tt, s') →
  heap s !! this = None ∧
  ∃ route, s' = child_state s this Name Desc id Above Sock Hide route.
Proof.
  intros Hrun. pose proof (TreeServer_child_fresh _ _ _ _ _ _ _ _ _ _ Hrun) as Hf.
  split; [done|]. rewrite TreeServer_child_unfold in Hrun by done.
  apply bind_Some in Hrun as ([] & s1 & Hroute & Hadd).
  assert (∃ route, s1 = with_events (events s ++ [EvLogDebug id (now_ms s)])
            (with_heap (<[this := child_node s Name Desc id Above Sock Hide route]>
                          (heap s)) s)) as [route ->].
  { destruct (decide (Above = TreeRoot s)).
    - apply update_Some in Hroute as (nd & Hnd & ->). simpl in *.
      rewrite lookup_insert_eq in Hnd. simplify_eq.
      exists (Some this). by rewrite insert_insert_eq.
    - apply route_walk_inv in Hroute as (nd & r & Hnd & ->). simpl in *.
      rewrite lookup_insert_eq in Hnd. simplify_eq.
      exists r. by rewrite insert_insert_eq. }
  erewrite AddHashEntry_run in Hadd by (simpl; apply lookup_insert_eq).
  exists route. by simplify_eq.
Qed.

Lemma spec_route_mono fuel fuel' h root n r :
  spec_route fuel h root n = Some r → (fuel ≤ fuel')%nat →
  spec_route fuel' h root n = Some r.
Proof.
  revert fuel' n. induction fuel as [|fuel IH]; intros fuel' n Hr Hle; [done|].
  destruct fuel' as [|fuel']; [lia|]. simpl in *.
  destruct (h !! n) as [nd|]; [|done].
  destruct (decide (Parent nd = root)); [done|].
  destruct (Parent nd); [|done]. apply IH; [done|lia].
Qed.

Lemma spec_route_det k k' h root n r r' :
  spec_route k h root n = Some r → spec_route k' h root n = Some r' → r = r'.
Proof.
  intros H H'.
  apply (spec_route_mono _ (k `max` k')) in H; [|lia].
  apply (spec_route_mono _ (k `max` k')) in H'; [|lia]. congruence.
Qed.

Lemma spec_route_insert_fresh fuel (h : gmap positive TreeServer) root n r this x :
  h !! this = None →
  spec_route fuel h root n = Some r →
  spec_route fuel (<[this := x]> h) root n = Some r.
Proof.
  intros Hf. revert n. induction fuel as [|fuel IH]; intros n Hr; [done|].
  simpl in *. destruct (h !! n) as [nd|] eqn:Hn; [|done].
  rewrite lookup_insert_ne by (intros ->; congruence). rewrite Hn.
  destruct (decide (Parent nd = root)); [done|].
  destruct (Parent nd); [|done]. by apply IH.
Qed.

Lemma spec_route_first fuel h root n r :
  spec_route fuel h root n = Some r →
  ∃ k, nth_parent k h n = Some r ∧ direct_child h root r ∧
       ∀ j a, (j < k)%nat → nth_parent j h n = Some a → ¬ direct_child h root a.
Proof.
  revert n. induction fuel as [|fuel IH]; intros n Hr; [done|]. simpl in Hr.
  destruct (h !! n) as [nd|] eqn:Hn; [|done].
  destruct (decide (Parent nd = root)) as [Hp|Hp].
  - simplify_eq. exists O. split_and!; [done|by exists nd|lia].
  - destruct (Parent nd) as [p|] eqn:Hpar; [|done].
    destruct (IH _ Hr) as (k & Hk & Hd & Hfirst). exists (S k). split_and!.
    + simpl. by rewrite Hn, Hpar.
    + done.
    + intros [|j] a Hj; simpl.
      * intros [= <-] (nd' & ? & ?). simplify_eq.
      * rewrite Hn, Hpar. apply Hfirst. lia.
Qed.

Lemma nth_parent_above_direct h root r j a :
  root_ok h root → direct_child h root r → direct_child h root a →
  nth_parent j h r = Some a → a = r.
Proof.
  intros Hroot (nd & Hr & Hp) (nda & Ha & Hpa) Hj.
  destruct j as [|j]; simpl in Hj; [congruence|].
  rewrite Hr, Hp in Hj. destruct root as [rt|]; [|done].
  destruct (Hroot rt eq_refl) as (ndrt & Hrt & Hprt).
  destruct j as [|j]; simpl in Hj.
  - simplify_eq.
  - by rewrite Hrt, Hprt in Hj.
Qed.

Lemma nth_parent_split j k h n a :
  nth_parent k h n = Some a → nth_parent (k + j) h n = nth_parent j h a.
Proof.
  revert n. induction k as [|k IH]; intros n Hk; simpl in *; [congruence|].
  destruct (h !! n) as [nd|]; [|done]. destruct (Parent nd); [|done]. by apply IH.
Qed.

(** Only one node among [n] and its ancestors is a direct child of the
    root: the one the recurrence finds. *)
Lemma spec_route_unique fuel h root n r :
  root_ok h root → spec_route fuel h root n = Some r →
  ∀ j a, nth_parent j h n = Some a → direct_child h root a → a = r.
Proof.
  intros Hroot Hr j a Hj Ha.
  destruct (spec_route_first _ _ _ _ _ Hr) as (k & Hk & Hd & Hfirst).
  destruct (decide (j < k)%nat) as [Hlt|Hge].
  - by destruct (Hfirst j a Hlt Hj).
  - replace j with (k + (j - k))%nat in Hj by lia.
    rewrite (nth_parent_split _ _ _ _ _ Hk) in Hj.
    by eapply nth_parent_above_direct.
Qed.

Lemma spec_route_same_parents fuel (h h' : gmap positive TreeServer) root n :
  (∀ q, Parent <$> h' !! q = Parent <$> h !! q) →
  spec_route fuel h' root n = spec_route fuel h root n.
Proof.
  intros Hp. revert n. induction fuel as [|fuel IH]; intros n; [done|]. simpl.
  pose proof (Hp n) as Hn.
  destruct (h !! n) as [nd|], (h' !! n) as [nd'|]; simplify_eq/=; [|done].
  rewrite Hn. destruct (decide (Parent nd = root)); [done|].
  destruct (Parent nd); [|done]. apply IH.
Qed.

Lemma with_heap_same s : with_heap (heap s) s = s.
Proof. by destruct s. Qed.

(** The loop computes the recurrence from the node [Route] starts at. *)
Lemma route_walk_exact fuel this s me r0 :
  heap s !! this = Some me → Route me = Some r0 →
  route_walk fuel this s =
  match spec_route fuel (heap s) (TreeRoot s) r0 with
  | Some r => Some (tt, with_heap (<[this := set_Route (Some r) me]> (heap s)) s)
  | None => None
  end.
Proof.
  revert s me r0. induction fuel as [|fuel IH]; intros s me r0 Hme Hr0; [done|].
  simpl. erewrite bind_run by (by apply deref_Some). rewrite Hr0.
  destruct (heap s !! r0) as [rn|] eqn:Hrn.
  2:{ unfold bind, deref. by rewrite Hrn. }
  erewrite bind_run by (by apply deref_Some).
  unfold gets at 1, bind at 1.
  destruct (decide (Parent rn = TreeRoot s)).
  - rewrite <- Hr0, set_Route_same, insert_id, with_heap_same by done. done.
  - erewrite bind_run by (by apply update_run).
    destruct (Parent rn) as [p'|] eqn:Hp.
    + erewrite (IH _ (set_Route (Some p') me) p');
        [|simpl; apply lookup_insert_eq|done]. simpl.
      rewrite (spec_route_same_parents _ (heap s)).
      * destruct (spec_route fuel (heap s) (TreeRoot s) p'); [|done].
        by rewrite insert_insert_eq.
      * intros q. destruct (decide (q = this)) as [->|].
        -- by rewrite lookup_insert_eq, Hme.
        -- by rewrite lookup_insert_ne.
    + destruct fuel; [done|]. simpl.
      erewrite bind_run by (apply deref_Some; simpl; by rewrite lookup_insert_eq).
      done.
Qed.

Lemma TreeServer_child_exact fuel this Name Desc id Above Sock Hide s :
  heap s !! this = None →
  TreeServer_child fuel this Name Desc id Above Sock Hide s =
  match child_route fuel s this Name Desc id Above Sock Hide with
  | Some r => Some (tt, child_state s this Name Desc id Above Sock Hide (Some r))
  | None => None
  end.
Proof.
  intros Hf. rewrite TreeServer_child_unfold by done. unfold child_route.
  destruct (decide (Above = TreeRoot s)) as [Hroot|Hroot].
  - erewrite bind_run by (apply update_run; simpl; apply lookup_insert_eq).
    erewrite AddHashEntry_run by (simpl; apply lookup_insert_eq).
    simpl. by rewrite insert_insert_eq.
  - destruct Above as [p|].
    + unfold bind at 1.
      erewrite route_walk_exact; [|simpl; apply lookup_insert_eq|done]. simpl.
      destruct (spec_route fuel _ (TreeRoot s) p) as [r|]; [|done].
      erewrite AddHashEntry_run by (simpl; apply lookup_insert_eq).
      simpl. by rewrite insert_insert_eq.
    + unfold bind at 1. destruct fuel; [done|]. simpl.
      erewrite bind_run by (apply deref_Some; simpl; by rewrite lookup_insert_eq).
      done.
Qed.

(** At a fresh address and under a parent that can take a child the
    constructor returns. *)
Lemma TreeServer_child_returns fuel this Name Desc id Above Sock Hide s :
  heap s !! this = None → routable fuel s Above →
  ∃ r, TreeServer_child fuel this Name Desc id Above Sock Hide s =
       Some (tt, child_state s this Name Desc id Above Sock Hide (Some r)).
Proof.
  intros Hf Hroute. rewrite TreeServer_child_exact by done. unfold child_route.
  destruct (decide (Above = TreeRoot s)) as [Hroot|Hroot]; [by eexists|].
  destruct Hroute as [?|(p & r & -> & Hr)]; [done|].
  exists r. by rewrite (spec_route_insert_fresh _ _ _ _ _ _ _ Hf Hr).
Qed.

Lemma routes_sound_child s this Name Desc id Above Sock Hide fuel r :
  heap s !! this = None →
  child_route fuel s this Name Desc id Above Sock Hide = Some r →
  routes_sound s →
  routes_sound (child_state s this Name Desc id Above Sock Hide (Some r)).
Proof.
  intros Hf Hroute Hsound n nd r' Hn Hr'. simpl in *.
  destruct (decide (n = this)) as [->|Hne].
  - rewrite lookup_insert_eq in Hn. simplify_eq/=. unfold child_route in Hroute.
    destruct (decide (Above = TreeRoot s)) as [Hroot|Hroot].
    + simplify_eq. exists 1%nat. simpl. rewrite lookup_insert_eq. simpl.
      by rewrite decide_True.
    + destruct Above as [p|]; [|done]. exists (S fuel). simpl.
      rewrite lookup_insert_eq. simpl. rewrite decide_False by done.
      rewrite <- Hroute. apply spec_route_same_parents.
      intros q. destruct (decide (q = this)) as [->|].
      * by rewrite !lookup_insert_eq.
      * by rewrite !lookup_insert_ne.
  - rewrite lookup_insert_ne in Hn by done.
    destruct (Hsound _ _ _ Hn Hr') as [k Hk]. exists k.
    by apply spec_route_insert_fresh.
Qed.

(** C1. The child constructor, run at a fresh address: when the parent
    is the local root the new node routes through itself; otherwise, when
    the recurrence gives the parent a route [r] within the fuel, the
    constructor returns and the new node's route is [r] — the value of the
    recurrence at the new node, an ancestor of it that is a direct child of
    the root and, the root being live and parentless, the only such — and
    equals the route stored in the parent when the stored routes are those
    of the recurrence, which then stays so. In the network built by the
    constructors, D and E behind B route through B, and the direct
    children B and leaf route through themselves. *)
Theorem child_route_recurrence :
  (∀ fuel this Name Desc id Above Sock Hide s,
     heap s !! this = None →
     (Above = TreeRoot s →
      ∃ s' nd,
        TreeServer_child fuel this Name Desc id Above Sock Hide s = Some (tt, s') ∧
        heap s' !! this = Some nd ∧ Parent nd = Above ∧
        Route nd = Some this ∧
        spec_route 1 (heap s') (TreeRoot s') this = Some this ∧
        (routes_sound s → routes_sound s')) ∧
     (∀ p r,
        Above = Some p → Above ≠ TreeRoot s →
        spec_route fuel (heap s) (TreeRoot s) p = Some r →
        ∃ s' nd,
          TreeServer_child fuel this Name Desc id Above Sock Hide s = Some (tt, s') ∧
          heap s' !! this = Some nd ∧ Parent nd = Above ∧
          Route nd = Some r ∧
          spec_route (S fuel) (heap s') (TreeRoot s') this = Some r ∧
          spec_route fuel (heap s') (TreeRoot s') p = Some r ∧
          (∃ k, nth_parent (S k) (heap s') this = Some r) ∧
          direct_child (heap s') (TreeRoot s') r ∧
          (root_ok (heap s) (TreeRoot s) →
           ∀ j a, nth_parent j (heap s') this = Some a →
                  direct_child (heap s') (TreeRoot s') a → a = r) ∧
          (routes_sound s →
           routes_sound s' ∧
           ∀ ndp, heap s !! p = Some ndp → is_Some (Route ndp) →
                  Route nd = Route ndp))) ∧
  Route <$> heap demo !! 2%positive = Some (Some 2%positive) ∧
  Route <$> heap demo !! 3%positive = Some (Some 2%positive) ∧
  Route <$> heap demo !! 4%positive = Some (Some 2%positive) ∧
  Route <$> heap demo !! 5%positive = Some (Some 2%positive) ∧
  Route <$> heap demo !! 6%positive = Some (Some 6%positive).
Proof.
  split; [|by vm_compute].
  intros fuel this Name Desc id Above Sock Hide s Hf. split.
  - intros Hroot.
    assert (child_route fuel s this Name Desc id Above Sock Hide = Some this) as Hr.
    { unfold child_route. by rewrite decide_True. }
    eexists _, _. split_and!.
    + rewrite TreeServer_child_exact by done. by rewrite Hr.
    + simpl. apply lookup_insert_eq.
    + done.
    + done.
    + simpl. rewrite lookup_insert_eq. simpl. by rewrite decide_True.
    + by eapply routes_sound_child.
  - intros p r -> Hroot Hspec.
    set (me := child_node s Name Desc id (Some p) Sock Hide (Some p)).
    assert (spec_route fuel (<[this := me]> (heap s)) (TreeRoot s) p = Some r) as Hspec'
      by (by apply spec_route_insert_fresh).
    assert (child_route fuel s this Name Desc id (Some p) Sock Hide = Some r) as Hr.
    { unfold child_route. by rewrite decide_False. }
    set (me' := child_node s Name Desc id (Some p) Sock Hide (Some r)).
    assert (spec_route fuel (<[this := me']> (heap s)) (TreeRoot s) p = Some r) as Hspec''
      by (by apply spec_route_insert_fresh).
    destruct (spec_route_first _ _ _ _ _ Hspec'') as (k & Hk & Hd & _).
    eexists _, _. split_and!.
    + rewrite TreeServer_child_exact by done. by rewrite Hr.
    + simpl. apply lookup_insert_eq.
    + done.
    + done.
    + simpl. rewrite lookup_insert_eq. simpl. by rewrite decide_False.
    + done.
    + exists k. simpl. rewrite lookup_insert_eq. done.
    + done.
    + intros Hrootok j a Hj Ha. simpl in *.
      assert (root_ok (<[this := me']> (heap s)) (TreeRoot s)) as Hrootok'.
      { intros rt Hrt. destruct (Hrootok rt Hrt) as (ndrt & ? & ?).
        exists ndrt. rewrite lookup_insert_ne by (intros ->; congruence). done. }
      destruct j as [|j]; simpl in Hj.
      * simplify_eq. destruct Ha as (nda & Hnda & Hpa).
        rewrite lookup_insert_eq in Hnda. by simplify_eq.
      * rewrite lookup_insert_eq in Hj. simpl in Hj.
        by eapply spec_route_unique.
    + intros Hsound. split; [by eapply routes_sound_child|].
      intros ndp Hp [rp Hrp]. simpl. rewrite Hrp. f_equal.
      destruct (Hsound _ _ _ Hp Hrp) as [k' Hk'].
      exact (spec_route_det _ _ _ _ _ _ _ Hspec Hk').
Qed.

Lemma child_route_recurrence_witness :
  heap demo !! 9%positive = None ∧
  Some 3%positive ≠ TreeRoot demo ∧
  spec_route 4 (heap demo) (TreeRoot demo) 3 = Some 2%positive ∧
  ∃ s' nd,
    TreeServer_child 4 9 "g.example" "G" "00G" (Some 3%positive) None false demo
      = Some (tt, s') ∧
    heap s' !! 9%positive = Some nd ∧ Route nd = Some 2%positive.
Proof.
  split; [vm_compute; reflexivity|].
  split; [vm_compute; discriminate|].
  split; [vm_compute; reflexivity|].
  destruct (proj2 (proj1 child_route_recurrence 4%nat 9%positive
                     "g.example" "G" "00G" (Some 3%positive) None false demo
                     ltac:(vm_compute; reflexivity))
              3%positive 2%positive eq_refl
              ltac:(vm_compute; discriminate) ltac:(vm_compute; reflexivity))
    as (s' & nd & H1 & H2 & _ & H3 & _).
  exists s', nd. split_and!; assumption.
Defined.

Lemma TreeServer_root_exact this jp jg s :
  TreeServer_root this jp jg s =
  match heap s !! this with
  | Some _ => None
  | None =>
      Some (tt, with_sidlist (<[cfg_SID s := this]> (sidlist s))
                  (with_serverlist (<[cfg_ServerName s := this]> (serverlist s))
                     (with_heap (<[this := root_node s jp jg]> (heap s)) s)))
  end.
Proof.
  unfold TreeServer_root, gets, bind, alloc. simpl.
  destruct (heap s !! this); [done|].
  erewrite AddHashEntry_run by (simpl; apply lookup_insert_eq). done.
Qed.

(** C10. At a fresh address and under a parent that can take a child the
    constructor returns, and whenever it returns the new node reports its
    last ping as answered; on a live subtree of bounded depth
    [FinishBurstInternal] returns, and whenever it returns every node the
    recursion was called on reports its last ping as answered. *)
Theorem new_and_finished_nodes_answered :
  (∀ fuel this Name Desc id Above Sock Hide s,
     heap s !! this = None → routable fuel s Above →
     ∃ s', TreeServer_child fuel this Name Desc id Above Sock Hide s
             = Some (tt, s')) ∧
  (∀ fuel this Name Desc id Above Sock Hide s s',
     TreeServer_child fuel this Name Desc id Above Sock Hide s = Some (tt, s') →
     AnsweredLastPing this s' = Some (true, s')) ∧
  (∀ fuel p s,
     bounded fuel (heap s) p = true →
     ∃ s', FinishBurstInternal fuel p s = Some (tt, s')) ∧
  (∀ fuel p s s' n,
     FinishBurstInternal fuel p s = Some (tt, s') →
     reach (heap s) p n →
     AnsweredLastPing n s' = Some (true, s')).
Proof.
  split_and!.
  - intros fuel this Name Desc id Above Sock Hide s Hf Hroute.
    destruct (TreeServer_child_returns fuel this Name Desc id Above Sock Hide s
                Hf Hroute) as [r Hr]. eauto.
  - intros fuel this Name Desc id Above Sock Hide s s' Hrun.
    apply TreeServer_child_inv in Hrun as (_ & route & ->).
    erewrite read_AnsweredLastPing by (simpl; apply lookup_insert_eq). done.
  - intros fuel p s. apply FinishBurstInternal_total.
  - intros fuel p s s' n Hrun Hr.
    destruct (FinishBurstInternal_spec _ _ _ _ Hrun) as (_ & _ & Hre & _).
    destruct (reach_live _ _ _ Hr) as [nd Hnd].
    erewrite read_AnsweredLastPing by (rewrite (Hre n Hr), Hnd; done). done.
Qed.

Lemma new_and_finished_nodes_answered_witness :
  (∃ s', TreeServer_child 4 9 "g.example" "G" "00G" (Some 3%positive) None false demo
           = Some (tt, s') ∧
         AnsweredLastPing 9 s' = Some (true, s')) ∧
  (∃ s', FinishBurstInternal 3 2 demo = Some (tt, s') ∧
         reach (heap demo) 2 5 ∧
         AnsweredLastPing 5 s' = Some (true, s')).
Proof.
  split.
  - destruct (proj1 new_and_finished_nodes_answered 4%nat 9%positive "g.example"
                "G" "00G" (Some 3%positive) None false demo
                ltac:(vm_compute; reflexivity)
                ltac:(right; exists 3%positive, 2%positive;
                      split; vm_compute; reflexivity)) as [s' Hs'].
    exists s'. split; [exact Hs'|].
    exact (proj1 (proj2 new_and_finished_nodes_answered) _ _ _ _ _ _ _ _ _ _ Hs').
  - assert (reach (heap demo) 2 5) as Hr.
    { eapply (reach_child _ 2 _ 3); [vm_compute; reflexivity | vm_compute; left |].
      eapply (reach_child _ 3 _ 5); [vm_compute; reflexivity | vm_compute; left |].
      eapply reach_self. vm_compute; reflexivity. }
    destruct (proj1 (proj2 (proj2 new_and_finished_nodes_answered)) 3%nat
                2%positive demo ltac:(vm_compute; reflexivity)) as [s' Hs'].
    exists s'. split; [exact Hs'|]. split; [exact Hr|].
    exact (proj2 (proj2 (proj2 new_and_finished_nodes_answered)) _ _ _ _ _ Hs' Hr).
Defined.

(** * The bursting flag *)

Lemma FinishBurst_inv fuel p s s' :
  FinishBurst fuel p s = Some (tt, s') →
  ∃ s1, FinishBurstInternal fuel p s = Some (tt, s1) ∧ heap s' = heap s1.
Proof.
  unfold FinishBurst. intros Hrun.
  apply bind_Some in Hrun as ([] & s1 & H1 & Hrun). exists s1. split; [done|].
  by minv.
Qed.

(** C7. At a fresh address the child constructor, under a parent that can
    take a child, and the root constructor return, the first with a
    bursting node (as whenever it returns), the second with a node that is
    not. While the instance lives, an operation that is not a finish-burst
    leaves the flag as it is; [FinishBurstInternal] returns on a live
    subtree of bounded depth, and it and [FinishBurst] clear the flag on
    every node they reach and leave the nodes they do not reach untouched;
    and no run of operations turns a cleared flag back on. *)
Theorem bursting_never_reverts :
  (∀ fuel this Name Desc id Above Sock Hide s,
     heap s !! this = None → routable fuel s Above →
     ∃ s', TreeServer_child fuel this Name Desc id Above Sock Hide s
             = Some (tt, s')) ∧
  (∀ fuel this Name Desc id Above Sock Hide s s',
     TreeServer_child fuel this Name Desc id Above Sock Hide s = Some (tt, s') →
     bursting <$> heap s' !! this = Some true) ∧
  (∀ this jp jg s,
     heap s !! this = None →
     ∃ s', TreeServer_root this jp jg s = Some (tt, s') ∧
           bursting <$> heap s' !! this = Some false) ∧
  (∀ n ops s s',
     run_alive n ops s = Some s' →
     Forall (λ o, is_finish o = false) ops →
     bursting <$> heap s' !! n = bursting <$> heap s !! n) ∧
  (∀ fuel p s,
     bounded fuel (heap s) p = true →
     ∃ s', FinishBurstInternal fuel p s = Some (tt, s')) ∧
  (∀ fuel p s s' n,
     FinishBurstInternal fuel p s = Some (tt, s') ∨
     FinishBurst fuel p s = Some (tt, s') →
     (reach (heap s) p n → bursting <$> heap s' !! n = Some false) ∧
     (¬ reach (heap s) p n → heap s' !! n = heap s !! n)) ∧
  (∀ n ops s s',
     run_alive n ops s = Some s' →
     bursting <$> heap s !! n = Some false →
     bursting <$> heap s' !! n = Some false).
Proof.
  split_and!.
  - intros fuel this Name Desc id Above Sock Hide s Hf Hroute.
    destruct (TreeServer_child_returns fuel this Name Desc id Above Sock Hide s
                Hf Hroute) as [r Hr]. eauto.
  - intros fuel this Name Desc id Above Sock Hide s s' Hrun.
    apply TreeServer_child_inv in Hrun as (_ & route & ->).
    simpl. by rewrite lookup_insert_eq.
  - intros this jp jg s Hf. rewrite TreeServer_root_exact, Hf.
    eexists. split; [done|]. simpl. by rewrite lookup_insert_eq.
  - intros n ops s s' Hrun Hops.
    assert (Forall (λ o, (is_finish o = true →
                            ∀ nd, same_bursting nd (set_bursting false nd)) ∧
                         (reschedules n o = true →
                            ∀ t nd, same_bursting nd (set_LastPingWasGood false
                                                        (set_NextPing t nd)))) ops)
      as Hops'.
    { eapply Forall_impl; [exact Hops|]. intros o Ho. simpl in Ho.
      split; [by rewrite Ho|]. by intros _ t nd. }
    destruct (run_alive_evolves n same_bursting (λ _ _, eq_refl) (λ _ _, eq_refl)
                (λ _, eq_refl) (λ _ _, eq_refl) ops _ _ Hops' Hrun)
      as (nd1 & nd2 & -> & -> & Hsame).
    simpl. by rewrite Hsame.
  - intros fuel p s. apply FinishBurstInternal_total.
  - intros fuel p s s' n Hrun.
    assert (∃ s1, FinishBurstInternal fuel p s = Some (tt, s1) ∧
                  heap s' = heap s1) as (s1 & Hrun1 & ->).
    { destruct Hrun as [?|?]; [by exists s'|by apply FinishBurst_inv]. }
    destruct (FinishBurstInternal_spec _ _ _ _ Hrun1) as (_ & _ & Hre & Hnre).
    split; [|by apply Hnre]. intros Hr.
    destruct (reach_live _ _ _ Hr) as [nd Hnd]. by rewrite (Hre n Hr), Hnd.
  - intros n ops s s' Hrun Hoff.
    assert (Forall (λ o, (is_finish o = true →
                            ∀ nd, burst_mono nd (set_bursting false nd)) ∧
                         (reschedules n o = true →
                            ∀ t nd, burst_mono nd (set_LastPingWasGood false
                                                     (set_NextPing t nd)))) ops)
      as Hops'.
    { apply Forall_forall. intros o _. split; [by intros _ nd|].
      by intros _ t nd ?. }
    destruct (run_alive_evolves n burst_mono (λ _ _ H, H) (λ _ _ H, H)
                (λ _ H, H) (λ _ _ H, H) ops _ _ Hops' Hrun)
      as (nd1 & nd2 & H1 & -> & Hmono).
    rewrite H1 in Hoff. simpl in *. f_equal. apply Hmono. congruence.
Qed.

Lemma bursting_never_reverts_witness :
  run_alive 3 demo_later_ops demo_finished = Some demo_later ∧
  bursting <$> heap demo_finished !! 3%positive = Some false ∧
  bursting <$> heap demo_later !! 3%positive = Some false.
Proof.
  split; [vm_compute; reflexivity|].
  split; [vm_compute; reflexivity|].
  apply (proj2 (proj2 (proj2 (proj2 (proj2 (proj2 bursting_never_reverts)))))
           3%positive demo_later_ops demo_finished demo_later).
  - vm_compute; reflexivity.
  - vm_compute; reflexivity.
Defined.


(** * The topology index *)

Section preserves.
Context (P : State → Prop).

Lemma preserves_bind {A B} (m : M A) (k : A → M B) :
  preserves P m → (∀ x, preserves P (k x)) → preserves P (bind m k).
Proof.
  intros Hm Hk s y s' (x & s1 & ? & ?)%bind_Some HP.
  eapply Hk; [done|]. by eapply Hm.
Qed.

Lemma preserves_ret {A} (x : A) : preserves P (ret x).
Proof. by intros s y s' [_ ->]%ret_Some. Qed.

Lemma preserves_fail {A} : preserves P (@fail A).
Proof. by intros s y s' []%fail_Some. Qed.

Lemma preserves_gets {A} (f : State → A) : preserves P (gets f).
Proof. by intros s y s' [_ ->]%gets_Some. Qed.

Lemma preserves_deref p : preserves P (deref p).
Proof. by intros s y s' [_ ->]%deref_Some. Qed.

Lemma preserves_for_each {A} (f : A → M unit) l :
  (∀ x, preserves P (f x)) → preserves P (for_each f l).
Proof.
  intros Hf. induction l as [|x l IH]; simpl.
  - apply preserves_ret.
  - apply preserves_bind; [apply Hf | done].
Qed.

Lemma preserves_if {A} (b : bool) (m1 m2 : M A) :
  preserves P m1 → preserves P m2 → preserves P (if b then m1 else m2).
Proof. by destruct b. Qed.

Lemma preserves_decide {A} Q `{!Decision Q} (m1 m2 : M A) :
  preserves P m1 → preserves P m2 → preserves P (if decide Q then m1 else m2).
Proof. by destruct (decide Q). Qed.

Hypothesis P_update : ∀ p f, keeps_ids f → preserves P (update p f).
Hypothesis P_modify : ∀ f, off_index f → preserves P (modify f).

Lemma preserves_emit e : preserves P (emit e).
Proof. by apply P_modify. Qed.
End preserves.

Ltac pres1 :=
  lazymatch goal with
  | |- ∀ _, _ => intro
  | |- preserves _ (ret _) => apply preserves_ret
  | |- preserves _ fail => apply preserves_fail
  | |- preserves _ (gets _) => apply preserves_gets
  | |- preserves _ (deref _) => apply preserves_deref
  | |- preserves _ (emit _) => apply preserves_emit
  | |- preserves _ (bind _ _) => apply preserves_bind
  | |- preserves _ (for_each _ _) => apply preserves_for_each
  | |- preserves _ (if decide _ then _ else _) => apply preserves_decide
  | |- preserves _ (if _ then _ else _) => apply preserves_if
  | |- preserves _ (ignore _) => unfold ignore
  | |- keeps_ids _ => by intros ?
  | |- off_index _ => by intros ?
  end.
Ltac pres := repeat first [assumption | pres1].

Section methods_preserve.
Context (P : State → Prop).
Hypothesis P_update : ∀ p f, keeps_ids f → preserves P (update p f).
Hypothesis P_modify : ∀ f, off_index f → preserves P (modify f).

Lemma preserves_FinishBurstInternal fuel p :
  preserves P (FinishBurstInternal fuel p).
Proof.
  revert p. induction fuel as [|fuel IH]; intros p; simpl; [pres|].
  unfold SetNextPingTime, SetPingFlag. pres; apply P_update; pres.
Qed.

Lemma preserves_FinishBurst fuel p : preserves P (FinishBurst fuel p).
Proof. unfold FinishBurst. pres. apply preserves_FinishBurstInternal. Qed.

Lemma preserves_QuitUsers p reason : preserves P (QuitUsers p reason).
Proof.
  unfold QuitUsers. pres. unfold quit_one, QuitUser. pres.
  - apply P_modify; pres.
  - apply P_modify; pres.
Qed.

Lemma preserves_cull p : preserves P (cull p).
Proof. unfold cull. pres. Qed.

Lemma preserves_simple_methods p :
  (∀ t, preserves P (SetNextPingTime p t)) ∧ preserves P (SetPingFlag p) ∧
  (∀ v, preserves P (SetVersion p v)) ∧
  (∀ c, preserves P (AddChild p c)) ∧ (∀ c, preserves P (DelChild p c)) ∧
  preserves P (NextPingTime p) ∧ preserves P (AnsweredLastPing p) ∧
  preserves P (GetID p) ∧ preserves P (GetRoute p) ∧
  preserves P (GetDesc p) ∧ preserves P (GetVersion p) ∧
  preserves P (GetSocket p) ∧ preserves P (GetParent p).
Proof.
  unfold SetNextPingTime, SetPingFlag, SetVersion, AddChild, DelChild,
    NextPingTime, AnsweredLastPing, GetID, GetRoute, GetDesc,
    GetVersion, GetSocket, GetParent.
  split_and!; pres; apply P_update; pres.
Qed.

Lemma preserves_Tidy fuel p :
  (∀ q, preserves P (delete_node q)) → preserves P (Tidy fuel p).
Proof.
  intros Hdel. revert p. induction fuel as [|fuel IH]; intros p; simpl; [pres|].
  pres. destruct (Children x) as [|c rest]; pres.
  - apply IH.
  - apply preserves_cull.
  - apply P_update; pres.
  - apply Hdel.
  - apply IH.
Qed.

Lemma preserves_step_quiet o :
  creates_or_destroys o = false → preserves P (step o).
Proof.
  intros Ho. pose proof preserves_simple_methods as Hs.
  destruct o; simplify_eq/=; pres; try (by apply Hs).
  - apply preserves_FinishBurst.
  - apply preserves_FinishBurstInternal.
  - apply preserves_QuitUsers.
  - apply preserves_cull.
  - apply P_modify; pres.
Qed.
End methods_preserve.

Lemma delete_node_exact p s :
  delete_node p s =
  match heap s !! p with
  | Some nd => Some (tt, destroyed_state s p nd)
  | None => None
  end.
Proof.
  unfold delete_node, destructor, bind, deref, emit, modify. simpl.
  destruct (heap s !! p) as [nd|] eqn:Hp; simpl; rewrite ?Hp; [|done].
  unfold destroyed_state. destruct (IsRoot nd); simpl.
  - done.
  - by rewrite <- app_assoc.
Qed.

Lemma index_exact_distinct s : index_exact s → distinct_ids s.
Proof.
  intros [Hn Hs] a b na nb Ha Hb [Heq|Heq].
  - assert (serverlist s !! ServerName na = Some a) as H1 by (apply Hn; eauto).
    assert (serverlist s !! ServerName na = Some b) as H2 by (apply Hn; eauto).
    congruence.
  - assert (sidlist s !! sid na = Some a) as H1 by (apply Hs; eauto).
    assert (sidlist s !! sid na = Some b) as H2 by (apply Hs; eauto).
    congruence.
Qed.

Lemma index_exact_update p f : keeps_ids f → preserves index_exact (update p f).
Proof.
  intros Hf s [] s' (nd & Hp & ->)%update_Some [Hn Hs].
  split; intros k a; simpl; [rewrite Hn | rewrite Hs];
    (destruct (decide (a = p)) as [->|];
     [rewrite lookup_insert_eq, Hp | by rewrite lookup_insert_ne]);
    destruct (Hf nd) as [E1 E2]; split; intros (x & [= <-] & <-); eauto.
Qed.

Lemma index_exact_modify f : off_index f → preserves index_exact (modify f).
Proof.
  intros Hf s [] s' ->%modify_Some [Hn Hs]. destruct (Hf s) as (E1 & E2 & E3).
  split; intros k a; rewrite E1; [rewrite E2 | rewrite E3]; auto.
Qed.

Lemma index_exact_delete p : preserves index_exact (delete_node p).
Proof.
  intros s [] s' Hrun Hidx. pose proof (index_exact_distinct _ Hidx) as Hd.
  destruct Hidx as [Hn Hs]. rewrite delete_node_exact in Hrun.
  destruct (heap s !! p) as [nd|] eqn:Hp; simplify_eq/=.
  split; intros k a; simpl; rewrite lookup_delete_Some; [rewrite Hn | rewrite Hs].
  - split.
    + intros (Hk & nda & Ha & <-). exists nda. split; [|done].
      apply lookup_delete_Some. split; [|done]. intros ->. congruence.
    + intros (nda & [Hne Ha]%lookup_delete_Some & <-). split; [|eauto].
      intros Heq. apply Hne. eapply Hd; eauto.
  - split.
    + intros (Hk & nda & Ha & <-). exists nda. split; [|done].
      apply lookup_delete_Some. split; [|done]. intros ->. congruence.
    + intros (nda & [Hne Ha]%lookup_delete_Some & <-). split; [|eauto].
      intros Heq. apply Hne. eapply Hd; eauto.
Qed.

Lemma index_exact_insert (s s' : State) this nd :
  heap s !! this = None →
  heap s' = <[this := nd]> (heap s) →
  serverlist s' = <[ServerName nd := this]> (serverlist s) →
  sidlist s' = <[sid nd := this]> (sidlist s) →
  index_exact s → distinct_ids s' → index_exact s'.
Proof.
  intros Hf Hh Hn Hs [In Is] Hd.
  assert (heap s' !! this = Some nd) as Hthis by (rewrite Hh; apply lookup_insert_eq).
  split; intros k a; [rewrite Hn | rewrite Hs]; rewrite lookup_insert_Some.
  - rewrite In, Hh. split.
    + intros [[<- <-]|[Hk (nda & Ha & <-)]].
      * exists nd. by rewrite lookup_insert_eq.
      * exists nda. rewrite lookup_insert_ne by (intros ->; congruence). done.
    + intros (nda & Ha & <-). destruct (decide (a = this)) as [->|Hne].
      * rewrite lookup_insert_eq in Ha. simplify_eq. by left.
      * rewrite lookup_insert_ne in Ha by done. right. split; [|eauto].
        intros Heq. apply Hne.
        apply (Hd a this nda nd); [by rewrite Hh, lookup_insert_ne|done|by left].
  - rewrite Is, Hh. split.
    + intros [[<- <-]|[Hk (nda & Ha & <-)]].
      * exists nd. by rewrite lookup_insert_eq.
      * exists nda. rewrite lookup_insert_ne by (intros ->; congruence). done.
    + intros (nda & Ha & <-). destruct (decide (a = this)) as [->|Hne].
      * rewrite lookup_insert_eq in Ha. simplify_eq. by left.
      * rewrite lookup_insert_ne in Ha by done. right. split; [|eauto].
        intros Heq. apply Hne.
        apply (Hd a this nda nd); [by rewrite Hh, lookup_insert_ne|done|by right].
Qed.

Lemma index_exact_step o s s' :
  exec (step o) s = Some s' → index_exact s → distinct_ids s' → index_exact s'.
Proof.
  intros Hrun Hidx Hd. apply exec_Some in Hrun as [[] Hrun].
  destruct (creates_or_destroys o) eqn:Ho.
  - destruct o; simplify_eq/=.
    + apply bind_Some in Hrun as ([] & s1 & Hroot & ->%modify_Some).
      rewrite TreeServer_root_exact in Hroot.
      destruct (heap s !! this) eqn:Hf; simplify_eq/=.
      by eapply (index_exact_insert s _ this (root_node s junk_ping junk_good)).
    + apply TreeServer_child_inv in Hrun as (Hf & route & ->).
      by eapply (index_exact_insert s _ this
                   (child_node s Name Desc id Above Sock Hide route)).
    + eapply preserves_Tidy; [apply index_exact_update | apply index_exact_modify
                             | apply index_exact_delete | done | done].
    + by eapply index_exact_delete.
  - eapply preserves_step_quiet;
      [apply index_exact_update | apply index_exact_modify | done..].
Qed.

Lemma index_is_update m1 m2 D p f : preserves (index_is m1 m2 D) (update p f).
Proof.
  intros s [] s' (nd & Hp & ->)%update_Some (? & ? & HD). split_and!; [done..|].
  simpl. rewrite dom_insert_L, HD. apply elem_of_dom_2 in Hp. set_solver.
Qed.

Lemma index_is_modify m1 m2 D f :
  off_index f → preserves (index_is m1 m2 D) (modify f).
Proof.
  intros Hf s [] s' ->%modify_Some (<- & <- & <-).
  destruct (Hf s) as (E1 & E2 & E3). unfold index_is. by rewrite E1, E2, E3.
Qed.

(** C8. The two maps hold exactly the live nodes, and stay so: an empty
    process has the property; every operation keeps it, the nodes of the
    resulting state having pairwise distinct names and SIDs; each
    constructor, run at a fresh address (the child constructor under a
    parent that can take a child), returns with the new node live and
    under its name and its SID and every other key as before, as the child
    constructor does whenever it returns; [delete] on a live node returns
    and erases the node, its name and its SID and nothing else; and an
    operation that neither constructs nor destroys leaves both maps and
    the set of live nodes as they were. *)
Theorem topology_index_exact :
  (∀ name desc id vers freq quiet hide users t ns,
     index_exact (boot name desc id vers freq quiet hide users t ns)) ∧
  (∀ o s s',
     exec (step o) s = Some s' →
     index_exact s → distinct_ids s' → index_exact s') ∧
  (∀ fuel this Name Desc id Above Sock Hide s,
     heap s !! this = None → routable fuel s Above →
     ∃ s', TreeServer_child fuel this Name Desc id Above Sock Hide s
             = Some (tt, s')) ∧
  (∀ fuel this Name Desc id Above Sock Hide s s',
     TreeServer_child fuel this Name Desc id Above Sock Hide s = Some (tt, s') →
     heap s !! this = None ∧ is_Some (heap s' !! this) ∧
     serverlist s' = <[Name := this]> (serverlist s) ∧
     sidlist s' = <[id := this]> (sidlist s)) ∧
  (∀ this jp jg s,
     heap s !! this = None →
     ∃ s', TreeServer_root this jp jg s = Some (tt, s') ∧
           is_Some (heap s' !! this) ∧
           serverlist s' = <[cfg_ServerName s := this]> (serverlist s) ∧
           sidlist s' = <[cfg_SID s := this]> (sidlist s)) ∧
  (∀ p s nd,
     heap s !! p = Some nd →
     ∃ s', delete_node p s = Some (tt, s') ∧
           heap s' = delete p (heap s) ∧
           serverlist s' = delete (ServerName nd) (serverlist s) ∧
           sidlist s' = delete (sid nd) (sidlist s)) ∧
  (∀ o s s',
     creates_or_destroys o = false →
     exec (step o) s = Some s' →
     serverlist s' = serverlist s ∧ sidlist s' = sidlist s ∧
     dom (heap s') = dom (heap s)).
Proof.
  split_and!.
  - intros. split; intros k a; simpl; rewrite !lookup_empty; naive_solver.
  - apply index_exact_step.
  - intros fuel this Name Desc id Above Sock Hide s Hf Hroute.
    destruct (TreeServer_child_returns fuel this Name Desc id Above Sock Hide s
                Hf Hroute) as [r Hr]. eauto.
  - intros fuel this Name Desc id Above Sock Hide s s' Hrun.
    apply TreeServer_child_inv in Hrun as (Hf & route & ->). simpl.
    rewrite lookup_insert_eq. eauto.
  - intros this jp jg s Hf. rewrite TreeServer_root_exact, Hf.
    eexists. split; [done|]. simpl. rewrite lookup_insert_eq. eauto.
  - intros p s nd Hp. rewrite delete_node_exact, Hp. eexists. split; [done|].
    done.
  - intros o s s' Ho Hrun. apply exec_Some in Hrun as [[] Hrun].
    eapply (preserves_step_quiet
              (index_is (serverlist s) (sidlist s) (dom (heap s)))); try done.
    + intros. apply index_is_update.
    + intros. by apply index_is_modify.
Qed.

Lemma topology_index_exact_witness :
  index_exact demo_boot ∧
  exec (step (OpNewRoot 1 0 false)) demo_boot ≠ None ∧
  creates_or_destroys (OpFinishBurst 3 2) = false ∧
  exec (step (OpFinishBurst 3 2)) demo = Some demo_finished ∧
  serverlist demo_finished = serverlist demo.
Proof.
  split; [apply (proj1 topology_index_exact)|].
  split; [vm_compute; discriminate|].
  split; [reflexivity|].
  split; [vm_compute; reflexivity|].
  apply (proj2 (proj2 (proj2 (proj2 (proj2 (proj2 topology_index_exact)))))
           (OpFinishBurst 3 2) demo demo_finished).
  - reflexivity.
  - vm_compute; reflexivity.
Defined.

(** * Teardown *)

Lemma rose_induction (P : rose → Prop) :
  (∀ a kids, Forall P kids → P (Rose a kids)) → ∀ t, P t.
Proof.
  intros H. fix IH 1. intros [a kids]. apply H.
  induction kids as [|k kids IHk]; constructor; [apply IH | exact IHk].
Qed.

Lemma index_exactb_sound s : index_exactb s = true → index_exact s.
Proof.
  unfold index_exactb. intros [[H1 H2]%andb_prop H3]%andb_prop.
  rewrite forallb_forall in H1, H2, H3.
  split; intros k a; split.
  - intros Hk. apply elem_of_map_to_list, list_elem_of_In, H1 in Hk.
    apply bool_decide_eq_true in Hk. simpl in Hk.
    destruct (heap s !! a) as [nd|]; simplify_eq/=. eauto.
  - intros (nd & Ha & <-). apply elem_of_map_to_list, list_elem_of_In, H3 in Ha.
    apply andb_prop in Ha as [Ha _]. by apply bool_decide_eq_true in Ha.
  - intros Hk. apply elem_of_map_to_list, list_elem_of_In, H2 in Hk.
    apply bool_decide_eq_true in Hk. simpl in Hk.
    destruct (heap s !! a) as [nd|]; simplify_eq/=. eauto.
  - intros (nd & Ha & <-). apply elem_of_map_to_list, list_elem_of_In, H3 in Ha.
    apply andb_prop in Ha as [_ Ha]. by apply bool_decide_eq_true in Ha.
Qed.

Lemma children_point_backb_sound s :
  children_point_backb s = true → children_point_back s.
Proof.
  unfold children_point_backb. rewrite forallb_forall.
  intros H y nd c Hy Hc.
  apply elem_of_map_to_list, list_elem_of_In, H in Hy. simpl in Hy.
  rewrite forallb_forall in Hy. apply list_elem_of_In, Hy in Hc.
  apply bool_decide_eq_true in Hc.
  destruct (heap s !! c) as [ndc|]; simplify_eq/=. eauto.
Qed.

Lemma laid_out_inv h a kids :
  laid_out h (Rose a kids) = true →
  ∃ me, h !! a = Some me ∧ Children me = map root_of kids ∧
        forallb (laid_out h) kids = true.
Proof.
  simpl. destruct (h !! a) as [me|]; [|done].
  intros [?%bool_decide_eq_true ?]%andb_prop. eauto.
Qed.

Lemma laid_out_ext (h h' : gmap positive TreeServer) t :
  (∀ x, x ∈ nodes t → h' !! x = h !! x) → laid_out h' t = laid_out h t.
Proof.
  induction t as [a kids IH] using rose_induction. intros Hx. simpl.
  rewrite (Hx a) by (simpl; left). destruct (h !! a) as [me|]; [|done].
  f_equal. assert (∀ x, x ∈ concat (map nodes kids) → h' !! x = h !! x) as Hk.
  { intros x Hin. apply Hx. simpl. by right. }
  clear Hx. induction IH as [|k kids Hk1 _ IHk]; simpl in *; [done|].
  rewrite Hk1, IHk; [done| |].
  - intros x Hin. apply Hk. apply elem_of_app. by right.
  - intros x Hin. apply Hk. apply elem_of_app. by left.
Qed.

Lemma nodes_root t : nodes t = root_of t :: strict t.
Proof. by destruct t. Qed.

Lemma postorder_root t : postorder t = strict_postorder t ++ [root_of t].
Proof. by destruct t. Qed.

Lemma names_of_ext (h h' : gmap positive TreeServer) l :
  (∀ x, x ∈ l → h' !! x = h !! x) → names_of h' l = names_of h l.
Proof.
  intros H. induction l as [|x l IH]; [done|]. unfold names_of in *.
  assert (∀ y, y ∈ l → h' !! y = h !! y) as Hl by (intros y ?; apply H; by right).
  specialize (IH Hl). unfold omap in *. simpl.
  rewrite (H x) by left. by rewrite IH.
Qed.

Lemma sids_of_ext (h h' : gmap positive TreeServer) l :
  (∀ x, x ∈ l → h' !! x = h !! x) → sids_of h' l = sids_of h l.
Proof.
  intros H. induction l as [|x l IH]; [done|]. unfold sids_of in *.
  assert (∀ y, y ∈ l → h' !! y = h !! y) as Hl by (intros y ?; apply H; by right).
  specialize (IH Hl). unfold omap in *. simpl.
  rewrite (H x) by left. by rewrite IH.
Qed.

Lemma set_Children_same nd : set_Children (Children nd) nd = nd.
Proof. by destruct nd. Qed.

Lemma cull_exact p s :
  cull p s =
  match heap s !! p with
  | Some nd =>
      Some (tt, if IsRoot nd then s
                else with_events (events s ++ [EvCullUser (ServerUser nd)]) s)
  | None => None
  end.
Proof.
  unfold cull, bind, deref. destruct (heap s !! p) as [nd|]; [|done].
  by destruct (IsRoot nd).
Qed.

Lemma destroyed_log_app l1 l2 :
  destroyed_log (l1 ++ l2) = (destroyed_log l1 ++ destroyed_log l2)%list.
Proof. apply omap_app. Qed.

(** One turn of the loop of [Tidy], the first child being [c]. *)
Lemma Tidy_unfold_cons fuel a s me c rest s1 nc :
  heap s !! a = Some me → Children me = c :: rest →
  Tidy fuel c s = Some (tt, s1) →
  heap s1 !! a = Some me → heap s1 !! c = Some nc → a ≠ c →
  Tidy (S fuel) a s =
  Tidy fuel a
    (destroyed_state
       (with_heap (<[a := set_Children rest me]> (heap s1)) (culled_state s1 nc))
       c nc).
Proof.
  intros Hme Hch Hrun Hme1 Hc1 Hne. simpl.
  erewrite bind_run by (by apply deref_Some). rewrite Hch.
  erewrite bind_run by done.
  erewrite bind_run by (rewrite cull_exact, Hc1; done).
  fold (culled_state s1 nc).
  assert (heap (culled_state s1 nc) = heap s1) as Hh
    by (unfold culled_state; by destruct (IsRoot nc)).
  erewrite bind_run by (apply deref_Some; rewrite Hh; done).
  rewrite Hch, decide_True by done.
  erewrite bind_run by (apply update_run; rewrite Hh; done).
  erewrite bind_run.
  2:{ rewrite delete_node_exact. simpl. rewrite Hh, lookup_insert_ne, Hc1 by done.
      done. }
  done.
Qed.

Lemma elem_of_names_of h l k :
  k ∈ names_of h l ↔ ∃ x nd, x ∈ l ∧ h !! x = Some nd ∧ ServerName nd = k.
Proof.
  unfold names_of. rewrite list_elem_of_omap. split.
  - intros (x & Hx & Hk). destruct (h !! x) as [nd|] eqn:E; simplify_eq/=. eauto.
  - intros (x & nd & Hx & Hnd & <-). exists x. by rewrite Hnd.
Qed.

Lemma elem_of_sids_of h l k :
  k ∈ sids_of h l ↔ ∃ x nd, x ∈ l ∧ h !! x = Some nd ∧ sid nd = k.
Proof.
  unfold sids_of. rewrite list_elem_of_omap. split.
  - intros (x & Hx & Hk). destruct (h !! x) as [nd|] eqn:E; simplify_eq/=. eauto.
  - intros (x & nd & Hx & Hnd & <-). exists x. by rewrite Hnd.
Qed.

Lemma Tidy_post_leaf a s me :
  heap s !! a = Some me → Children me = [] → Tidy_post (Rose a []) s s.
Proof.
  intros Hme Hch. unfold Tidy_post, strict, strict_postorder. simpl.
  split_and!; try done.
  - by intros x ?%elem_of_nil.
  - rewrite Hme. simpl. by rewrite <- Hch, set_Children_same.
  - by rewrite app_nil_r.
Qed.

Lemma Tidy_post_cons a k ks s s1 s' me nk :
  let b := root_of k in
  let s4 := destroyed_state
              (with_heap (<[a := set_Children (map root_of ks) me]> (heap s1))
                 (culled_state s1 (set_Children [] nk)))
              b (set_Children [] nk) in
  NoDup (nodes (Rose a (k :: ks))) →
  heap s !! a = Some me → heap s !! b = Some nk →
  Tidy_post k s s1 → Tidy_post (Rose a ks) s4 s' →
  Tidy_post (Rose a (k :: ks)) s s'.
Proof.
  intros b s4 Hnd Hme Hnk (K1 & K2 & K3 & KM1 & KM2 & KE & KR & KC)
    (T1 & T2 & T3 & TM1 & TM2 & TE & TR & TC).
  simpl in Hnd. apply NoDup_cons in Hnd as [Ha Hnd].
  apply NoDup_app in Hnd as (Hndk & Hdisj & Hndks).
  apply not_elem_of_app in Ha as [Hak Haks].
  assert (b ∈ nodes k) as Hbk by (rewrite nodes_root; left).
  assert (a ≠ b) as Hab by (intros ->; done).
  assert (heap (culled_state s1 (set_Children [] nk)) = heap s1) as Hcull.
  { unfold culled_state. by destruct (IsRoot _). }
  assert (∀ x, heap s4 !! x =
               if decide (x = b) then None
               else if decide (x = a) then Some (set_Children (map root_of ks) me)
               else heap s1 !! x) as Hs4.
  { intros x. unfold s4, destroyed_state, with_heap. cbn [heap].
    destruct (decide (x = b)) as [->|]; [by rewrite lookup_delete_eq|].
    rewrite lookup_delete_ne by done.
    destruct (decide (x = a)) as [->|]; [by rewrite lookup_insert_eq|].
    by rewrite lookup_insert_ne. }
  assert (∀ x, x ∈ strict (Rose a ks) → heap s4 !! x = heap s !! x) as Hks.
  { intros x Hx. rewrite Hs4.
    rewrite decide_False by (intros ->; by apply (Hdisj b)).
    rewrite decide_False by (intros ->; done).
    apply K3. intros ?. by apply (Hdisj x). }
  unfold Tidy_post. simpl root_of in *.
  change (strict (Rose a (k :: ks))) with (nodes k ++ strict (Rose a ks)).
  change (strict_postorder (Rose a (k :: ks)))
    with (postorder k ++ strict_postorder (Rose a ks)).
  change (nodes (Rose a (k :: ks))) with (a :: nodes k ++ strict (Rose a ks)).
  change (nodes (Rose a ks)) with (a :: strict (Rose a ks)) in T3.
  split_and!.
  - intros x [Hx|Hx]%elem_of_app; [|by apply T1].
    rewrite T3.
    2:{ intros [->|?]%elem_of_cons; [done|]. by apply (Hdisj x). }
    rewrite Hs4. destruct (decide (x = b)) as [->|Hxb]; [done|].
    rewrite decide_False by (intros ->; done).
    apply K1. rewrite nodes_root in Hx. by apply elem_of_cons in Hx as [?|?].
  - rewrite T2, Hs4, decide_False, decide_True, Hme by done. done.
  - intros x Hx. apply not_elem_of_cons in Hx as [Hxa Hx].
    apply not_elem_of_app in Hx as [Hxk Hxks].
    rewrite T3 by (by intros [?|?]%elem_of_cons).
    rewrite Hs4, !decide_False; [by apply K3|done|]. by intros ->.
  - intros key. rewrite TM1. unfold s4, destroyed_state, with_heap.
    cbn [serverlist ServerName set_Children].
    rewrite (names_of_ext (heap s)) by done.
    assert (serverlist (culled_state s1 (set_Children [] nk)) = serverlist s1) as ->.
    { unfold culled_state. by destruct (IsRoot _). }
    assert (key ∈ names_of (heap s) (nodes k) ↔
            key = ServerName nk ∨ key ∈ names_of (heap s) (strict k)) as Hnk'.
    { rewrite nodes_root, !elem_of_names_of. split.
      - intros (x & nd & [->|Hx]%elem_of_cons & Hnd & <-).
        + left. unfold b in *. congruence.
        + right. eauto.
      - intros [->|(x & nd & Hx & Hnd & <-)].
        + exists b, nk. split_and!; [left|done..].
        + exists x, nd. split_and!; [by right|done..]. }
    assert (key ∈ names_of (heap s) (nodes k ++ strict (Rose a ks)) ↔
            key ∈ names_of (heap s) (nodes k) ∨
            key ∈ names_of (heap s) (strict (Rose a ks))) as Happ.
    { unfold names_of. rewrite omap_app. apply elem_of_app. }
    repeat case_decide; try done; try tauto.
    + destruct (decide (key = ServerName nk)) as [->|].
      * by rewrite lookup_delete_eq.
      * rewrite lookup_delete_ne by done. rewrite KM1, decide_True; [done|tauto].
    + rewrite lookup_delete_ne by (intros <-; tauto).
      rewrite KM1, decide_False; [done|tauto].
  - intros key. rewrite TM2. unfold s4, destroyed_state, with_heap.
    cbn [sidlist sid set_Children].
    rewrite (sids_of_ext (heap s)) by done.
    assert (sidlist (culled_state s1 (set_Children [] nk)) = sidlist s1) as ->.
    { unfold culled_state. by destruct (IsRoot _). }
    assert (key ∈ sids_of (heap s) (nodes k) ↔
            key = sid nk ∨ key ∈ sids_of (heap s) (strict k)) as Hnk'.
    { rewrite nodes_root, !elem_of_sids_of. split.
      - intros (x & nd & [->|Hx]%elem_of_cons & Hnd & <-).
        + left. unfold b in *. congruence.
        + right. eauto.
      - intros [->|(x & nd & Hx & Hnd & <-)].
        + exists b, nk. split_and!; [left|done..].
        + exists x, nd. split_and!; [by right|done..]. }
    assert (key ∈ sids_of (heap s) (nodes k ++ strict (Rose a ks)) ↔
            key ∈ sids_of (heap s) (nodes k) ∨
            key ∈ sids_of (heap s) (strict (Rose a ks))) as Happ.
    { unfold sids_of. rewrite omap_app. apply elem_of_app. }
    repeat case_decide; try done; try tauto.
    + destruct (decide (key = sid nk)) as [->|].
      * by rewrite lookup_delete_eq.
      * rewrite lookup_delete_ne by done. rewrite KM2, decide_True; [done|tauto].
    + rewrite lookup_delete_ne by (intros <-; tauto).
      rewrite KM2, decide_False; [done|tauto].
  - rewrite TE. unfold s4, destroyed_state, with_heap. cbn [events].
    rewrite destroyed_log_app.
    assert (destroyed_log (events (culled_state s1 (set_Children [] nk))) =
            destroyed_log (events s1)) as ->.
    { unfold culled_state. destruct (IsRoot _); [done|]. simpl.
      rewrite destroyed_log_app. simpl. by rewrite app_nil_r. }
    rewrite KE, postorder_root, !map_app, <- !app_assoc. f_equal. f_equal.
    simpl. by destruct (IsRoot _).
  - rewrite TR. unfold s4, culled_state. simpl. by destruct (IsRoot _).
  - rewrite TC. unfold s4, culled_state. simpl. by destruct (IsRoot _).
Qed.

Lemma forallb_laid_out_ext (h h' : gmap positive TreeServer) ks :
  (∀ x, x ∈ concat (map nodes ks) → h' !! x = h !! x) →
  forallb (laid_out h') ks = forallb (laid_out h) ks.
Proof.
  induction ks as [|k ks IH]; intros Hx; simpl in *; [done|].
  rewrite IH by (intros x ?; apply Hx, elem_of_app; by right).
  f_equal. apply laid_out_ext. intros x ?. apply Hx, elem_of_app. by left.
Qed.

Lemma nodes_nonempty t : (1 ≤ length (nodes t))%nat.
Proof. destruct t. simpl. lia. Qed.

(** [Tidy] on a tree laid out in the store without sharing returns, and
    leaves what [Tidy_post] says. *)
Lemma Tidy_spec fuel t s :
  (length (nodes t) ≤ fuel)%nat →
  laid_out (heap s) t = true → NoDup (nodes t) →
  ∃ s', Tidy fuel (root_of t) s = Some (tt, s') ∧ Tidy_post t s s'.
Proof.
  revert t s. induction fuel as [|fuel IH]; intros [a kids] s Hsz Hlo Hnd.
  { simpl in Hsz. lia. }
  destruct (laid_out_inv _ _ _ Hlo) as (me & Hme & Hch & Hkids).
  destruct kids as [|k ks].
  - exists s. split; [|by eapply Tidy_post_leaf].
    simpl. erewrite bind_run by (by apply deref_Some). by rewrite Hch.
  - simpl in Hch, Hkids, Hsz. apply andb_prop in Hkids as [Hk Hks].
    rewrite length_app in Hsz. pose proof (nodes_nonempty k) as Hk1.
    pose proof Hnd as Hnd'. simpl in Hnd'. apply NoDup_cons in Hnd' as [Ha Hnd'].
    apply NoDup_app in Hnd' as (Hndk & Hdisj & Hndks).
    apply not_elem_of_app in Ha as [Hak Haks].
    destruct (IH k s) as (s1 & Hrun1 & Hpost1); [lia|done..|].
    assert (∃ nk, heap s !! root_of k = Some nk) as [nk Hnk].
    { destruct k as [b kk]. destruct (laid_out_inv _ _ _ Hk) as (nk & ? & _). eauto. }
    pose proof Hpost1 as (K1 & K2 & K3 & _).
    assert (root_of k ∈ nodes k) as Hbk by (rewrite nodes_root; left).
    assert (a ≠ root_of k) as Hab by (intros ->; done).
    set (s4 := destroyed_state
              (with_heap (<[a := set_Children (map root_of ks) me]> (heap s1))
                 (culled_state s1 (set_Children [] nk)))
              (root_of k) (set_Children [] nk)).
    destruct (IH (Rose a ks) s4) as (s' & Hrun' & Hpost').
    + simpl. lia.
    + simpl. unfold s4, destroyed_state, with_heap. cbn [heap].
      rewrite lookup_delete_ne, lookup_insert_eq by done. simpl.
      rewrite bool_decide_eq_true_2 by done. simpl.
      rewrite <- Hks. apply forallb_laid_out_ext.
      intros x Hx. rewrite lookup_delete_ne by (intros <-; by apply (Hdisj (root_of k))).
      rewrite lookup_insert_ne by (intros <-; done).
      apply K3. intros ?. by apply (Hdisj x).
    + simpl. apply NoDup_cons. split; [done|done].
    + exists s'. split; [|by eapply Tidy_post_cons].
      simpl root_of.
      erewrite (Tidy_unfold_cons fuel a s me (root_of k) (map root_of ks) s1
                  (set_Children [] nk)); [done..| | |done].
      * by rewrite K3.
      * by rewrite K2, Hnk.
Qed.

(** On the demo network [Tidy] on B destroys F, then D, then E; a second
    [Tidy] on B finds nothing to do. *)
Example Tidy_demo_order :
  (s ← exec (Tidy 5 2) demo; Some (map fst (destroyed_log (events s)))) =
  Some [5; 3; 4]%positive.
Proof. vm_compute. reflexivity. Qed.

Example Tidy_demo_twice :
  (s ← exec (Tidy 5 2) demo; s' ← exec (Tidy 1 2) s;
   Some (map fst (destroyed_log (events s')))) =
  Some [5; 3; 4]%positive.
Proof. vm_compute. reflexivity. Qed.

Lemma elem_of_strict t c :
  c ∈ strict t ↔ ∃ k, k ∈ kids_of t ∧ c ∈ nodes k.
Proof.
  unfold strict. induction (kids_of t) as [|k ks IH]; simpl.
  - split; [by intros ?%elem_of_nil | by intros (k & ?%elem_of_nil & _)].
  - rewrite elem_of_app, IH. split.
    + intros [?|(k' & ? & ?)]; [exists k | exists k']; split; try done;
        [left | by right].
    + intros (k' & [->|?]%elem_of_cons & ?); [by left | right; eauto].
Qed.

Lemma laid_out_kid h t k :
  laid_out h t = true → k ∈ kids_of t → laid_out h k = true.
Proof.
  destruct t as [a kids]. intros (me & _ & _ & Hks)%laid_out_inv Hk. simpl in Hk.
  rewrite forallb_forall in Hks. by apply Hks, list_elem_of_In.
Qed.

(** In a laid-out tree the children of a node of the tree are nodes
    strictly below the root. *)
Lemma laid_out_children h t :
  laid_out h t = true →
  ∀ y ndy c, y ∈ nodes t → h !! y = Some ndy → c ∈ Children ndy → c ∈ strict t.
Proof.
  induction t as [a kids IH] using rose_induction. intros Hlo y ndy c Hy Hndy Hc.
  destruct (laid_out_inv _ _ _ Hlo) as (me & Hme & Hch & Hks).
  rewrite nodes_root in Hy. apply elem_of_cons in Hy as [->|Hy].
  - simpl in *. simplify_eq. rewrite Hch in Hc.
    apply list_elem_of_fmap in Hc as (k & -> & Hk).
    apply elem_of_strict. exists k. split; [done|]. rewrite nodes_root. left.
  - apply elem_of_strict in Hy as (k & Hk & Hy). simpl in Hk.
    apply elem_of_strict. exists k. split; [done|].
    rewrite nodes_root. right.
    rewrite Forall_forall in IH. eapply (IH k Hk); [|done..].
    by eapply (laid_out_kid h (Rose a kids)).
Qed.

(** Every node strictly below the root is the child of a node of the tree. *)
Lemma laid_out_has_parent h t :
  laid_out h t = true →
  ∀ c, c ∈ strict t → ∃ p ndp, p ∈ nodes t ∧ h !! p = Some ndp ∧ c ∈ Children ndp.
Proof.
  induction t as [a kids IH] using rose_induction. intros Hlo c Hc.
  destruct (laid_out_inv _ _ _ Hlo) as (me & Hme & Hch & Hks).
  apply elem_of_strict in Hc as (k & Hk & Hc). simpl in Hk.
  rewrite nodes_root in Hc. apply elem_of_cons in Hc as [->|Hc].
  - exists a, me. split_and!; [left|done|]. rewrite Hch.
    apply list_elem_of_fmap. eauto.
  - rewrite Forall_forall in IH.
    destruct (IH k Hk (laid_out_kid h (Rose a kids) k Hlo Hk) c Hc)
      as (p & ndp & Hp & Hndp & Hcp).
    exists p, ndp. split_and!; [|done..]. rewrite nodes_root. right.
    apply elem_of_strict. eauto.
Qed.

Lemma index_exact_Tidy fuel p : preserves index_exact (Tidy fuel p).
Proof.
  apply preserves_Tidy;
    [apply index_exact_update | apply index_exact_modify | apply index_exact_delete].
Qed.

(** What [Tidy] does to the node it is called on, to the nodes below it
    and to everything else, the index being exact beforehand. *)
Lemma Tidy_effect (fuel : nat) (t : rose) (s : State) :
  (length (nodes t) ≤ fuel)%nat →
  laid_out (heap s) t = true → NoDup (nodes t) → index_exact s →
  ∃ s' nd,
    Tidy fuel (root_of t) s = Some (tt, s') ∧
    heap s !! root_of t = Some nd ∧
    heap s' !! root_of t = Some (set_Children [] nd) ∧
    serverlist s' !! ServerName nd = Some (root_of t) ∧
    sidlist s' !! sid nd = Some (root_of t) ∧
    (∀ P ndP, heap s !! P = Some ndP → root_of t ∈ Children ndP →
              heap s' !! P = Some ndP) ∧
    (∀ x, x ∈ strict t → heap s' !! x = None) ∧
    (∀ x, x ∉ nodes t → heap s' !! x = heap s !! x) ∧
    destroyed_log (events s') =
      destroyed_log (events s) ++ map (λ x, (x, [])) (strict_postorder t).
Proof.
  intros Hsz Hlo Hnd Hidx.
  destruct (Tidy_spec fuel t s Hsz Hlo Hnd)
    as (s' & Hrun & H1 & H2 & H3 & HM1 & HM2 & HE & _).
  assert (∃ nd, heap s !! root_of t = Some nd) as [nd Hn].
  { destruct t as [a kids]. destruct (laid_out_inv _ _ _ Hlo) as (me & ? & _). eauto. }
  pose proof (index_exact_distinct _ Hidx) as Hd.
  assert (root_of t ∉ strict t) as Hroot.
  { rewrite nodes_root in Hnd. by apply NoDup_cons in Hnd as [? _]. }
  rewrite Hn in H2. simpl in H2.
  exists s', nd. split_and!; try done.
  - rewrite HM1, decide_False.
    + apply Hidx. eauto.
    + intros (x & ndx & Hx & Hndx & Heq)%elem_of_names_of.
      assert (x = root_of t) as -> by (eapply Hd; eauto). done.
  - rewrite HM2, decide_False.
    + apply Hidx. eauto.
    + intros (x & ndx & Hx & Hndx & Heq)%elem_of_sids_of.
      assert (x = root_of t) as -> by (eapply Hd; eauto). done.
  - intros P ndP HP Hin. rewrite H3; [done|]. intros HPt.
    apply Hroot. by eapply laid_out_children.
Qed.

(** C9. [Tidy] on N, the root of a subtree laid out in the store without
    sharing, returns with N's child vector empty and N otherwise as it
    was, parent pointer included; N is still under its name and its SID
    in the two maps and still in the child vector of its parent; exactly
    the nodes strictly below N were destroyed, every other node is as
    before; and N goes only with a [delete] of its own, which then takes
    its two index entries with it. *)
Theorem tidy_spares_the_node (fuel : nat) (t : rose) (s : State) :
  (length (nodes t) ≤ fuel)%nat →
  laid_out (heap s) t = true → NoDup (nodes t) → index_exact s →
  ∃ s' nd,
    Tidy fuel (root_of t) s = Some (tt, s') ∧
    heap s !! root_of t = Some nd ∧
    heap s' !! root_of t = Some (set_Children [] nd) ∧
    Parent (set_Children [] nd) = Parent nd ∧
    serverlist s' !! ServerName nd = Some (root_of t) ∧
    sidlist s' !! sid nd = Some (root_of t) ∧
    (∀ P ndP, heap s !! P = Some ndP → root_of t ∈ Children ndP →
              heap s' !! P = Some ndP) ∧
    (∀ x, x ∈ strict t → heap s' !! x = None) ∧
    (∀ x, x ∉ nodes t → heap s' !! x = heap s !! x) ∧
    map fst (destroyed_log (events s')) =
      map fst (destroyed_log (events s)) ++ strict_postorder t ∧
    ∃ s'', delete_node (root_of t) s' = Some (tt, s'') ∧
           heap s'' !! root_of t = None ∧
           serverlist s'' !! ServerName nd = None ∧
           sidlist s'' !! sid nd = None.
Proof.
  intros Hsz Hlo Hnd Hidx.
  destruct (Tidy_effect fuel t s Hsz Hlo Hnd Hidx)
    as (s' & nd & Hrun & Hn & H2 & HN & HS & HP & H1 & H3 & HE).
  exists s', nd. split_and!; try done.
  - rewrite HE, map_app, map_map. simpl. by rewrite map_id.
  - rewrite delete_node_exact, H2. eexists. split; [done|]. simpl.
    by rewrite !lookup_delete_eq.
Qed.

Lemma tidy_spares_the_node_witness :
  (length (nodes demo_tree) ≤ 5)%nat ∧
  laid_out (heap demo) demo_tree = true ∧
  NoDup (nodes demo_tree) ∧
  index_exact demo ∧
  ∃ s' nd,
    Tidy 5 (root_of demo_tree) demo = Some (tt, s') ∧
    heap demo !! root_of demo_tree = Some nd ∧
    heap s' !! root_of demo_tree = Some (set_Children [] nd) ∧
    serverlist s' !! ServerName nd = Some (root_of demo_tree).
Proof.
  assert (NoDup (nodes demo_tree)) as Hnd
    by (apply (bool_decide_unpack _); vm_compute; exact I).
  assert (index_exact demo) as Hidx
    by (apply index_exactb_sound; vm_compute; reflexivity).
  split; [vm_compute; lia|].
  split; [vm_compute; reflexivity|].
  split; [exact Hnd|]. split; [exact Hidx|].
  destruct (tidy_spares_the_node 5 demo_tree demo
              ltac:(vm_compute; lia) ltac:(vm_compute; reflexivity) Hnd Hidx)
    as (s' & nd & H1 & H2 & H3 & _ & H4 & _).
  exists s', nd. split_and!; assumption.
Defined.

(** On the demo network [Tidy] on B leaves B under its name and in the
    child vector of the root. *)
Lemma tidy_as_stated_counterexample : ¬ tidy_as_stated 5 demo_tree demo.
Proof.
  intros H.
  destruct (Tidy 5 (root_of demo_tree) demo) as [[[] s']|] eqn:Hrun;
    [|by vm_compute in Hrun].
  destruct (H s' Hrun) as [Hidx _].
  destruct (Hidx 2%positive "b.example") as [Hn _]; [simpl; left|].
  apply Hn. vm_compute in Hrun. injection Hrun as <-. vm_compute. reflexivity.
Qed.

(** C4, amended. [Tidy] on B, the root of a subtree laid out in the store
    without sharing: afterwards no node strictly below B is live or
    reachable through either map, under any key; B itself is still live,
    still indexed and still in the child vector of whichever node listed
    it; the nodes were destroyed in post-order, each with an empty child
    vector at that moment; and, children pointing back to their parents,
    no live node lists a destroyed node as a child. The index remains
    exact. *)
Theorem tidy_destroys_descendants_postorder (fuel : nat) (t : rose) (s : State) :
  (length (nodes t) ≤ fuel)%nat →
  laid_out (heap s) t = true → NoDup (nodes t) →
  index_exact s → children_point_back s →
  ∃ s',
    Tidy fuel (root_of t) s = Some (tt, s') ∧
    (∀ x, x ∈ strict t →
          heap s' !! x = None ∧
          ∀ key, serverlist s' !! key ≠ Some x ∧ sidlist s' !! key ≠ Some x) ∧
    (∃ nd, heap s' !! root_of t = Some nd ∧ Children nd = [] ∧
           serverlist s' !! ServerName nd = Some (root_of t) ∧
           sidlist s' !! sid nd = Some (root_of t)) ∧
    (∀ P ndP, heap s !! P = Some ndP → root_of t ∈ Children ndP →
              heap s' !! P = Some ndP) ∧
    destroyed_log (events s') =
      destroyed_log (events s) ++ map (λ x, (x, [])) (strict_postorder t) ∧
    (∀ y ndy c, heap s' !! y = Some ndy → c ∈ Children ndy → c ∉ strict t) ∧
    index_exact s'.
Proof.
  intros Hsz Hlo Hnd Hidx Hback.
  destruct (Tidy_effect fuel t s Hsz Hlo Hnd Hidx)
    as (s' & nd & Hrun & Hn & H2 & HN & HS & HP & H1 & H3 & HE).
  pose proof (index_exact_Tidy fuel (root_of t) s tt s' Hrun Hidx) as Hidx'.
  assert (root_of t ∉ strict t) as Hroot.
  { rewrite nodes_root in Hnd. by apply NoDup_cons in Hnd as [? _]. }
  exists s'. split_and!; try done.
  - intros x Hx. split; [by apply H1|]. intros key.
    split; intros Hk; apply Hidx' in Hk as (ndx & Hndx & _);
      rewrite (H1 x Hx) in Hndx; done.
  - exists (set_Children [] nd). done.
  - intros y ndy c Hy Hc Hcs.
    destruct (decide (y = root_of t)) as [->|Hne].
    { rewrite H2 in Hy. simplify_eq/=. by apply elem_of_nil in Hc. }
    assert (y ∉ nodes t) as Hyt.
    { rewrite nodes_root. intros [?|Hys]%elem_of_cons; [done|].
      by rewrite (H1 y Hys) in Hy. }
    rewrite (H3 y Hyt) in Hy.
    destruct (Hback y ndy c Hy Hc) as (ndc & Hndc & Hpar).
    destruct (laid_out_has_parent _ _ Hlo c Hcs) as (p & ndp & Hp & Hndp & Hcp).
    destruct (Hback p ndp c Hndp Hcp) as (ndc' & Hndc' & Hpar').
    by simplify_eq.
Qed.

Lemma tidy_destroys_descendants_postorder_witness :
  (length (nodes demo_tree) ≤ 5)%nat ∧
  laid_out (heap demo) demo_tree = true ∧
  NoDup (nodes demo_tree) ∧
  index_exact demo ∧ children_point_back demo ∧
  ∃ s',
    Tidy 5 (root_of demo_tree) demo = Some (tt, s') ∧
    destroyed_log (events s') =
      destroyed_log (events demo) ++
      map (λ x, (x, [])) (strict_postorder demo_tree).
Proof.
  assert (NoDup (nodes demo_tree)) as Hnd
    by (apply (bool_decide_unpack _); vm_compute; exact I).
  assert (index_exact demo) as Hidx
    by (apply index_exactb_sound; vm_compute; reflexivity).
  assert (children_point_back demo) as Hback
    by (apply children_point_backb_sound; vm_compute; reflexivity).
  split; [vm_compute; lia|].
  split; [vm_compute; reflexivity|].
  split; [exact Hnd|]. split; [exact Hidx|]. split; [exact Hback|].
  destruct (tidy_destroys_descendants_postorder 5 demo_tree demo
              ltac:(vm_compute; lia) ltac:(vm_compute; reflexivity) Hnd Hidx Hback)
    as (s' & H1 & _ & _ & _ & H2 & _).
  exists s'. split; assumption.
Defined.

(** * The burst notice *)

(** At 12345 ms the code prints "12 secs" where one decimal place would
    read "12.3 secs"; and the text for B, a neighbour of the root, is the
    text for a node further down with B's name and burst start. *)
Lemma notice_as_stated_counterexample :
  ¬ notice_figure_as_stated ∧ ¬ notice_wording_as_stated ∧
  ∃ s', FinishBurst 3 2 demo_late = Some (tt, s') ∧
        events s' = events demo_late ++
          [ EvApplyLines;
            EvSnoNotice "l" ("Received end of netburst from " +:+ bold +:+
                             "b.example" +:+ bold +:+ " (burst time: 12 secs)");
            EvServerEvent "b.example" ].
Proof.
  split_and!.
  - intros H. specialize (H "b.example" 12345 ltac:(lia)). by vm_compute in H.
  - intros H.
    set (me1 := mkTreeServer (Some 1%positive) None [] "b.example" "B" "" None
                  "00B" (NewFakeUser "00B" "b.example") 1000 false true 0 0 0
                  1000500 false 1060 true).
    set (me2 := set_Children [] (mkTreeServer (Some 2%positive) None [] "b.example"
                  "B" "" None "00B" (NewFakeUser "00B" "b.example") 1000 false
                  true 0 0 0 1000500 false 1060 true)).
    apply (H (Some 1%positive) 1012845 me1 me2); [done|done|done|done|].
    reflexivity.
  - eexists. split; vm_compute; reflexivity.
Qed.

(** C5, amended. The notice of [FinishBurst] gives the burst time in
    whole seconds, the division by 1000 truncating, with the unit "secs"
    when it exceeds 10000 ms, and in milliseconds with the unit "msecs"
    otherwise; the wording is the same for every node, and a direct
    neighbour of the root is told apart by the notice class, 'l' against
    'L' for a node further down. *)
Theorem burst_notice_format (fuel : nat) (B : positive) (s : State) :
  bounded fuel (heap s) B = true →
  ∃ s' nb mask text,
    FinishBurst fuel B s = Some (tt, s') ∧
    heap s !! B = Some nb ∧
    events s' = events s ++
      [EvApplyLines; EvSnoNotice mask text; EvServerEvent (ServerName nb)] ∧
    mask = (if decide (Parent nb = TreeRoot s) then "l" else "L")%char ∧
    let bursttime := to_ulong (to_long (now_ms s - StartBurst nb)) in
    0 ≤ bursttime < 2 ^ 64 ∧
    text = "Received end of netburst from " +:+ bold +:+ ServerName nb +:+ bold +:+
           " (burst time: " +:+
           (if 10000 <? bursttime
            then fmt_lu (bursttime / 1000) +:+ " secs)"
            else fmt_lu bursttime +:+ " msecs)").
Proof.
  intros Hb. destruct (FinishBurstInternal_total _ _ _ Hb) as [s1 Hs1].
  destruct (FinishBurstInternal_live _ _ _ _ Hs1) as [nb Hnb].
  eexists _, nb, _, _. split; [by apply FinishBurst_exact|].
  split; [done|]. split; [simpl; reflexivity|]. split; [done|].
  split; [unfold to_ulong; apply Z.mod_pos_bound; lia|].
  unfold burst_notice, burst_amount, burst_unit, burst_time.
  by destruct (10000 <? _).
Qed.

Lemma burst_notice_format_witness :
  bounded 3 (heap demo_late) 2 = true ∧
  ∃ s' nb mask text,
    FinishBurst 3 2 demo_late = Some (tt, s') ∧
    heap demo_late !! 2%positive = Some nb ∧
    events s' = events demo_late ++
      [EvApplyLines; EvSnoNotice mask text; EvServerEvent (ServerName nb)] ∧
    mask = (if decide (Parent nb = TreeRoot demo_late) then "l" else "L")%char.
Proof.
  split; [vm_compute; reflexivity|].
  destruct (burst_notice_format 3 2 demo_late ltac:(vm_compute; reflexivity))
    as (s' & nb & mask & text & H1 & H2 & H3 & H4 & _).
  exists s', nb, mask, text. split_and!; assumption.
Defined.

(** * QuitUsers *)

Lemma for_each_quit_one reason l s :
  for_each (quit_one reason) l s = Some (tt, quit_all reason l s).
Proof.
  revert s. induction l as [|a l IH]; intros s; simpl; [done|].
  unfold bind at 1, quit_one at 1. destruct (is_local a); simpl; [apply IH|].
  unfold gets, bind, QuitUser, modify, emit, quit_event. simpl.
  destruct (quiet_bursts s), (HideSplits s); simpl; apply IH.
Qed.

(** [QuitUsers] always returns on a live node; its result is the number
    of registry entries affiliated with the node's name. *)
Lemma QuitUsers_exact this reason s :
  QuitUsers this reason s =
  match heap s !! this with
  | Some me =>
      let time_to_die := filter (λ u, server u = ServerName me) (clientlist s) in
      Some (to_int (Z.of_nat (length time_to_die)), quit_all reason time_to_die s)
  | None => None
  end.
Proof.
  unfold QuitUsers, bind at 1, deref. destruct (heap s !! this) as [me|]; [|done].
  unfold gets at 1, bind at 1. unfold bind. by rewrite for_each_quit_one.
Qed.

Lemma quit_all_events reason l s :
  events (quit_all reason l s) =
  events s ++ map (quit_event (quiet_bursts s) (HideSplits s) reason)
                (filter (λ u, is_local u = false) l) ∧
  quiet_bursts (quit_all reason l s) = quiet_bursts s ∧
  HideSplits (quit_all reason l s) = HideSplits s ∧
  heap (quit_all reason l s) = heap s.
Proof.
  revert s. induction l as [|a l IH]; intros s; simpl.
  { by rewrite app_nil_r. }
  destruct (IH (if is_local a then s
                else with_events
                       (events s ++ [quit_event (quiet_bursts s) (HideSplits s) reason a])
                       (with_clientlist (filter (λ v, nick v ≠ nick a) (clientlist s)) s)))
    as (E1 & E2 & E3 & E4).
  rewrite E1, E2, E3, E4. rewrite filter_cons.
  destruct (is_local a) eqn:Hl; simpl.
  - done.
  - by rewrite <- app_assoc.
Qed.

(** The sessions [QuitUsers] disconnects are those affiliated with the
    node's name that are not local, once each and in registry order. *)
Lemma QuitUsers_disconnects this reason s n s' me :
  QuitUsers this reason s = Some (n, s') → heap s !! this = Some me →
  events s' =
  events s ++ map (quit_event (quiet_bursts s) (HideSplits s) reason)
                (filter (λ u, is_local u = false)
                   (filter (λ u, server u = ServerName me) (clientlist s))) ∧
  n = to_int (Z.of_nat (length (filter (λ u, server u = ServerName me)
                                  (clientlist s)))).
Proof.
  rewrite QuitUsers_exact. intros Hrun Hme. rewrite Hme in Hrun. simpl in Hrun.
  simplify_eq. split; [|done]. apply quit_all_events.
Qed.

(** C3, at the input of the spec's own example. Five sessions are
    affiliated with "leaf.example", two of them local: [QuitUsers]
    disconnects the three that are not local and leaves the two local
    ones in the registry, but the count it returns is 5, the size of
    [time_to_die], not the 3 sessions it removed. *)
Theorem QuitUsers_counts_local_sessions :
  length (filter (λ u, server u = "leaf.example") (clientlist demo)) = 5%nat ∧
  length (filter (λ u, server u = "leaf.example" ∧ is_local u = true)
            (clientlist demo)) = 2%nat ∧
  ∃ s',
    QuitUsers 6 "reason" demo = Some (5, s') ∧
    events s' = events demo ++
      [ EvQuitUser (mkUser "u1" "leaf.example" false false) "reason" None;
        EvQuitUser (mkUser "u3" "leaf.example" false false) "reason" None;
        EvQuitUser (mkUser "u6" "leaf.example" false false) "reason" None ] ∧
    clientlist s' =
      [ mkUser "u2" "leaf.example" true false;
        mkUser "u4" "other.example" false false;
        mkUser "u5" "leaf.example" true false ].
Proof.
  split; [vm_compute; reflexivity|]. split; [vm_compute; reflexivity|].
  eexists. split; [vm_compute; reflexivity|]. split; vm_compute; reflexivity.
Qed.

(** * Child vectors *)

Lemma erase_first_app c l1 l2 :
  c ∉ l1 → erase_first c (l1 ++ c :: l2) = l1 ++ l2.
Proof.
  induction l1 as [|x l1 IH]; simpl; intros Hc.
  - by rewrite decide_True.
  - apply not_elem_of_cons in Hc as [Hx Hc].
    rewrite decide_False by done. by rewrite IH.
Qed.

Lemma elem_of_erase_first x c l : x ∈ erase_first c l → x ∈ l.
Proof.
  induction l as [|y l IH]; simpl; [done|].
  destruct (decide (y = c)).
  - by right.
  - intros [->|?]%elem_of_cons; [left | right; auto].
Qed.

Lemma elem_of_first_split (c : positive) l :
  c ∈ l → ∃ k1 k2, l = k1 ++ c :: k2 ∧ c ∉ k1.
Proof.
  induction l as [|x l IH]; [by intros ?%elem_of_nil|].
  destruct (decide (x = c)) as [->|Hne].
  - intros _. exists [], l. split; [done|]. apply not_elem_of_nil.
  - intros [?|Hc]%elem_of_cons; [congruence|].
    destruct (IH Hc) as (k1 & k2 & -> & Hk1).
    exists (x :: k1), k2. split; [done|]. apply not_elem_of_cons. split; [congruence|done].
Qed.

Lemma DelChild_run this Child s nd :
  heap s !! this = Some nd →
  DelChild this Child s =
  if decide (Child ∈ Children nd)
  then Some (true, with_heap (<[this := set_Children (erase_first Child (Children nd)) nd]>
                                (heap s)) s)
  else Some (false, s).
Proof.
  intros Hnd. unfold DelChild. erewrite bind_run by (by apply deref_Some).
  destruct (decide (Child ∈ Children nd)); [|done].
  by erewrite bind_run by (by apply update_run).
Qed.

Lemma AddChild_run this Child s nd :
  heap s !! this = Some nd →
  AddChild this Child s =
  Some (tt, with_heap (<[this := set_Children (Children nd ++ [Child]) nd]> (heap s)) s).
Proof. intros Hnd. unfold AddChild. by erewrite update_run. Qed.

(** X1. [DelChild] on a live node: a child that is not in the vector
    gives [false] and changes nothing; otherwise the result is [true] and
    exactly the first occurrence is gone, the entries before and after it,
    later occurrences included, staying in their order. *)
Theorem DelChild_erases_first_occurrence (this Child : positive) (s : State)
    (nd : TreeServer) :
  heap s !! this = Some nd →
  (Child ∉ Children nd → DelChild this Child s = Some (false, s)) ∧
  (∀ l1 l2, Children nd = l1 ++ Child :: l2 → Child ∉ l1 →
     DelChild this Child s =
     Some (true, with_heap (<[this := set_Children (l1 ++ l2) nd]> (heap s)) s)).
Proof.
  intros Hnd. rewrite (DelChild_run _ _ _ _ Hnd). split.
  - intros Hc. by rewrite decide_False.
  - intros l1 l2 Hl Hc. rewrite decide_True.
    + by rewrite Hl, erase_first_app.
    + rewrite Hl. apply elem_of_app. right. left.
Qed.

Lemma DelChild_erases_first_occurrence_witness :
  ∃ nd, heap demo !! 2%positive = Some nd ∧
        Children nd = [3%positive] ++ 4%positive :: [] ∧
        DelChild 2 4 demo =
        Some (true, with_heap (<[2%positive := set_Children ([3%positive] ++ []) nd]>
                                 (heap demo)) demo).
Proof.
  destruct (heap demo !! 2%positive) as [nd|] eqn:Hnd; [|by vm_compute in Hnd].
  assert (Children nd = [3%positive] ++ 4%positive :: []) as Hl.
  { vm_compute in Hnd. injection Hnd as <-. reflexivity. }
  exists nd. split; [reflexivity|]. split; [exact Hl|].
  apply (proj2 (DelChild_erases_first_occurrence 2 4 demo nd Hnd) _ _ Hl).
  intros [?|[]%elem_of_nil]%elem_of_cons. discriminate.
Defined.

(** X2. [AddChild] followed by [DelChild] of the same child: when the
    child was not in the vector the two cancel and the globals are as they
    were; when it was, the vector is not restored: the earlier occurrence
    is the one that goes and the child ends up last. *)
Theorem AddChild_DelChild_round_trip (this Child : positive) (s : State)
    (nd : TreeServer) :
  heap s !! this = Some nd →
  (Child ∉ Children nd →
   (AddChild this Child ;;; DelChild this Child) s = Some (true, s)) ∧
  (Child ∈ Children nd →
   (AddChild this Child ;;; DelChild this Child) s =
   Some (true, with_heap
                 (<[this := set_Children (erase_first Child (Children nd) ++ [Child]) nd]>
                    (heap s)) s)).
Proof.
  intros Hnd. erewrite bind_run by (by apply AddChild_run).
  erewrite DelChild_run by (simpl; apply lookup_insert_eq).
  cbn [Children set_Children]. rewrite decide_True by (apply elem_of_app; right; left).
  split; intros Hc.
  - rewrite erase_first_app by done. rewrite app_nil_r. cbn [heap with_heap].
    rewrite insert_insert_eq.
    replace (set_Children (Children nd) (set_Children (Children nd ++ [Child]) nd))
      with nd by (by destruct nd).
    rewrite insert_id by done. by destruct s.
  - destruct (elem_of_first_split _ _ Hc) as (k1 & k2 & Hk & Hk1).
    rewrite Hk. rewrite <- !app_assoc. simpl.
    rewrite !erase_first_app by done. cbn [heap with_heap].
    rewrite insert_insert_eq, <- app_assoc. done.
Qed.

Lemma AddChild_DelChild_round_trip_witness :
  ∃ nd, heap demo !! 2%positive = Some nd ∧ (9%positive ∉ Children nd) ∧
        (AddChild 2 9 ;;; DelChild 2 9) demo = Some (true, demo).
Proof.
  destruct (heap demo !! 2%positive) as [nd|] eqn:Hnd; [|by vm_compute in Hnd].
  assert (9%positive ∉ Children nd) as Hc.
  { vm_compute in Hnd. injection Hnd as <-.
    apply (bool_decide_unpack _). vm_compute. exact I. }
  exists nd. split; [reflexivity|]. split; [exact Hc|].
  exact (proj1 (AddChild_DelChild_round_trip 2 9 demo nd Hnd) Hc).
Defined.

(** * More on [Tidy] *)

Lemma Tidy_live fuel p s r : Tidy fuel p s = Some r → is_Some (heap s !! p).
Proof.
  destruct fuel; simpl; [by intros []%fail_Some|]. destruct r as [[] s'].
  intros (me & s1 & [Hme ->]%deref_Some & _)%bind_Some. eauto.
Qed.

Lemma heap_culled_state s nd : heap (culled_state s nd) = heap s.
Proof. unfold culled_state. by destruct (IsRoot nd). Qed.

(** One turn of the loop of [Tidy], read backwards from its result. *)
Lemma Tidy_cons_inv fuel n s s' nd x rest :
  heap s !! n = Some nd → Children nd = x :: rest →
  Tidy (S fuel) n s = Some (tt, s') →
  ∃ s1 me' nx,
    Tidy fuel x s = Some (tt, s1) ∧
    heap s1 !! n = Some me' ∧ Children me' = x :: rest ∧
    heap s1 !! x = Some nx ∧ n ≠ x ∧
    Tidy fuel n
      (destroyed_state
         (with_heap (<[n := set_Children rest me']> (heap s1)) (culled_state s1 nx))
         x nx) = Some (tt, s').
Proof.
  intros Hnd Hch Hrun. simpl in Hrun.
  erewrite bind_run in Hrun by (by apply deref_Some). rewrite Hch in Hrun.
  apply bind_Some in Hrun as ([] & s1 & Hx & Hrun).
  apply bind_Some in Hrun as ([] & s2 & Hcull & Hrun).
  rewrite cull_exact in Hcull.
  destruct (heap s1 !! x) as [nx|] eqn:Hnx; [|done].
  fold (culled_state s1 nx) in Hcull. injection Hcull as <-.
  apply bind_Some in Hrun as (me' & s3 & [Hme' ->]%deref_Some & Hrun).
  rewrite heap_culled_state in Hme'.
  apply bind_Some in Hrun as ([] & s3 & Hup & Hrun).
  destruct (decide (Children me' = x :: rest)) as [Hch'|]; [|by apply fail_Some in Hup].
  erewrite update_run in Hup by (by rewrite heap_culled_state).
  injection Hup as <-. rewrite heap_culled_state in Hrun.
  apply bind_Some in Hrun as ([] & s4 & Hdel & Hrun).
  assert (n ≠ x) as Hne.
  { intros ->. rewrite delete_node_exact in Hdel. simpl in Hdel.
    rewrite lookup_insert_eq in Hdel. injection Hdel as <-.
    destruct (Tidy_live _ _ _ _ Hrun) as [? Hl]. simpl in Hl.
    by rewrite lookup_delete_eq in Hl. }
  rewrite delete_node_exact in Hdel. simpl in Hdel.
  rewrite lookup_insert_ne, Hnx in Hdel by done. injection Hdel as <-.
  exists s1, me', nx. split_and!; done.
Qed.

Lemma Tidy_returns_empty fuel n s s' :
  Tidy fuel n s = Some (tt, s') →
  ∃ nd, heap s' !! n = Some nd ∧ Children nd = [].
Proof.
  revert s. induction fuel as [|fuel IH]; intros s Hrun.
  { by apply fail_Some in Hrun. }
  destruct (Tidy_live _ _ _ _ Hrun) as [nd Hnd].
  destruct (Children nd) as [|x rest] eqn:Hch.
  - simpl in Hrun. erewrite bind_run in Hrun by (by apply deref_Some).
    rewrite Hch in Hrun. apply ret_Some in Hrun as [_ ->]. eauto.
  - destruct (Tidy_cons_inv _ _ _ _ _ _ _ Hnd Hch Hrun)
      as (s1 & me' & nx & _ & _ & _ & _ & _ & Hrest).
    by eapply IH.
Qed.

Lemma Tidy_leaf fuel n s nd :
  heap s !! n = Some nd → Children nd = [] → Tidy (S fuel) n s = Some (tt, s).
Proof.
  intros Hnd Hch. simpl. erewrite bind_run by (by apply deref_Some).
  by rewrite Hch.
Qed.

(** X3. Whenever [Tidy] returns, the node it was called on is live with
    an empty child vector, and a second [Tidy] on it, with whatever fuel,
    returns at once and leaves the globals as they are. *)
Theorem Tidy_idempotent (fuel fuel' : nat) (n : positive) (s s' : State) :
  Tidy fuel n s = Some (tt, s') →
  (∃ nd, heap s' !! n = Some nd ∧ Children nd = []) ∧
  Tidy (S fuel') n s' = Some (tt, s').
Proof.
  intros Hrun. destruct (Tidy_returns_empty _ _ _ _ Hrun) as (nd & Hnd & Hch).
  split; [eauto|]. by eapply Tidy_leaf.
Qed.

Lemma Tidy_idempotent_witness :
  ∃ s', Tidy 5 2 demo = Some (tt, s') ∧ Tidy 1 2 s' = Some (tt, s').
Proof.
  destruct (Tidy 5 2 demo) as [[[] s']|] eqn:Hrun; [|by vm_compute in Hrun].
  exists s'. split; [reflexivity|].
  exact (proj2 (Tidy_idempotent 5 0 2 demo s' Hrun)).
Defined.

Lemma Tidy_keeps_dead fuel p c s s' :
  Tidy fuel p s = Some (tt, s') → heap s !! c = None → heap s' !! c = None.
Proof.
  intros Hrun Hc.
  pose proof (@evolving_Tidy c (λ _ _, True) (λ _, I) (λ _ _ _ _ _, I)
                (λ _ _, I) fuel p s tt s' Hrun) as Hev.
  destruct (heap s' !! c) as [nd'|] eqn:Hc'; [|done].
  destruct (Hev nd' Hc') as (nd & ? & _). congruence.
Qed.

(** A child that is no longer live stops the loop. *)
Lemma Tidy_dead_child fuel n s nd c :
  heap s !! n = Some nd → c ∈ Children nd → heap s !! c = None →
  Tidy fuel n s = None.
Proof.
  revert s nd. induction fuel as [|fuel IH]; intros s nd Hnd Hc Hdead; [done|].
  destruct (Tidy (S fuel) n s) as [[[] s']|] eqn:Hrun; [exfalso|done].
  destruct (Children nd) as [|x rest] eqn:Hch; [by apply elem_of_nil in Hc|].
  destruct (Tidy_cons_inv _ _ _ _ _ _ _ Hnd Hch Hrun)
    as (s1 & me' & nx & Hx & Hme' & Hch' & Hnx & Hne & Hrest).
  apply elem_of_cons in Hc as [->|Hc].
  { destruct (Tidy_live _ _ _ _ Hx) as [? ?]. congruence. }
  assert (c ≠ x) as Hcx.
  { intros ->. destruct (Tidy_live _ _ _ _ Hx) as [? ?]. congruence. }
  pose proof (Tidy_keeps_dead _ _ _ _ _ Hx Hdead) as Hdead1.
  assert (c ≠ n) as Hcn by (intros ->; congruence).
  erewrite (IH _ (set_Children rest me')) in Hrest; [done| | |].
  - simpl. rewrite lookup_delete_ne, lookup_insert_eq by done. done.
  - done.
  - simpl. by rewrite lookup_delete_ne, lookup_insert_ne.
Qed.

(** X4. [Tidy] has no result on a node whose child vector names a node
    that is no longer live, or names a node twice: the second time round
    the loop follows a pointer to an object it has deleted. *)
Theorem Tidy_undefined_on_stale_child (fuel : nat) (n : positive) (s : State)
    (nd : TreeServer) :
  heap s !! n = Some nd →
  (∃ c, c ∈ Children nd ∧ heap s !! c = None) ∨ ¬ NoDup (Children nd) →
  Tidy fuel n s = None.
Proof.
  intros Hnd [(c & Hc & Hdead)|Hdup]; [by eapply Tidy_dead_child|].
  revert s nd Hnd Hdup. induction fuel as [|fuel IH]; intros s nd Hnd Hdup; [done|].
  destruct (Tidy (S fuel) n s) as [[[] s']|] eqn:Hrun; [exfalso|done].
  destruct (Children nd) as [|x rest] eqn:Hch; [apply Hdup; constructor|].
  destruct (Tidy_cons_inv _ _ _ _ _ _ _ Hnd Hch Hrun)
    as (s1 & me' & nx & Hx & Hme' & Hch' & Hnx & Hne & Hrest).
  set (s4 := destroyed_state _ x nx) in Hrest.
  assert (heap s4 !! n = Some (set_Children rest me')) as Hn4.
  { simpl. rewrite lookup_delete_ne, lookup_insert_eq by done. done. }
  assert (heap s4 !! x = None) as Hx4 by (simpl; apply lookup_delete_eq).
  destruct (decide (x ∈ rest)) as [Hin|Hnin].
  - by rewrite (Tidy_dead_child _ _ _ _ x Hn4 Hin Hx4) in Hrest.
  - erewrite (IH s4) in Hrest; [done|exact Hn4|].
    simpl. intros Hnd'. apply Hdup. by constructor.
Qed.

Lemma Tidy_undefined_on_stale_child_witness :
  ∃ nd, heap demo_relisted !! 3%positive = Some nd ∧
        Children nd = [5; 5]%positive ∧
        Tidy 9 3 demo_relisted = None.
Proof.
  destruct (heap demo_relisted !! 3%positive) as [nd|] eqn:Hnd;
    [|by vm_compute in Hnd].
  assert (Children nd = [5; 5]%positive) as Hch.
  { vm_compute in Hnd. injection Hnd as <-. reflexivity. }
  exists nd. split; [reflexivity|]. split; [exact Hch|].
  apply (Tidy_undefined_on_stale_child 9 3 demo_relisted nd Hnd).
  right. rewrite Hch. intros Hd. apply NoDup_cons in Hd as [Hd _].
  apply Hd. left.
Defined.

(** * Links between nodes *)

#[local] Instance same_links_refl : Reflexive same_links.
Proof. by intros a. Qed.
#[local] Instance same_links_trans : Transitive same_links.
Proof. intros a b c [? ?] [? ?]. split; congruence. Qed.

Lemma step_keeps_links n o : relinks o = false → evolving n same_links (step o).
Proof.
  intros Ho. pose proof (evolving_reads n same_links) as Hreads.
  destruct o; simplify_eq/=; evo; try (by apply Hreads).
  - apply evolving_FinishBurst; evo; done.
  - apply evolving_FinishBurstInternal; evo; done.
  - apply evolving_QuitUsers; evo.
  - apply evolving_SetNextPingTime; evo. done.
  - unfold SetPingFlag. evo.
  - unfold SetVersion. evo.
  - apply evolving_cull; evo.
Qed.

Lemma step_keeps_dom o s s' :
  creates_or_destroys o = false → exec (step o) s = Some s' →
  dom (heap s') = dom (heap s).
Proof.
  intros Ho Hrun. apply exec_Some in Hrun as [[] Hrun].
  eapply (preserves_step_quiet
            (index_is (serverlist s) (sidlist s) (dom (heap s)))); try done.
  - intros. apply index_is_update.
  - intros. by apply index_is_modify.
Qed.

Lemma children_point_back_quiet s s' :
  dom (heap s') = dom (heap s) → (∀ n, evolves n same_links s s') →
  children_point_back s → children_point_back s'.
Proof.
  intros Hd Hev Hb y nd c Hy Hc.
  destruct (Hev y nd Hy) as (nd0 & Hy0 & [Hp Hch]). rewrite Hch in Hc.
  destruct (Hb y nd0 c Hy0 Hc) as (ndc & Hndc & Hpc).
  assert (is_Some (heap s' !! c)) as [ndc' Hc'].
  { apply elem_of_dom. rewrite Hd. apply elem_of_dom. eauto. }
  destruct (Hev c ndc' Hc') as (ndc0 & ? & [? ?]). simplify_eq.
  exists ndc'. split; congruence.
Qed.

Lemma children_point_back_alloc s s' this nd :
  heap s !! this = None → heap s' = <[this := nd]> (heap s) → Children nd = [] →
  children_point_back s → children_point_back s'.
Proof.
  intros Hf Hh Hch Hb y ndy c Hy Hc. rewrite Hh in Hy |- *.
  destruct (decide (y = this)) as [->|Hne].
  - rewrite lookup_insert_eq in Hy. simplify_eq. rewrite Hch in Hc.
    by apply elem_of_nil in Hc.
  - rewrite lookup_insert_ne in Hy by done.
    destruct (Hb y ndy c Hy Hc) as (ndc & Hndc & Hpc).
    exists ndc. split; [|done]. rewrite lookup_insert_ne; [done|].
    intros <-. congruence.
Qed.

Lemma children_point_back_set_Children s s' p nd l :
  heap s !! p = Some nd → heap s' = <[p := set_Children l nd]> (heap s) →
  (∀ c, c ∈ l → ∃ ndc, heap s !! c = Some ndc ∧ Parent ndc = Some p) →
  children_point_back s → children_point_back s'.
Proof.
  intros Hp Hh Hl Hb y ndy c Hy Hc. rewrite Hh in Hy |- *.
  assert (∀ c0 ndc0, heap s !! c0 = Some ndc0 →
            ∃ ndc', <[p := set_Children l nd]> (heap s) !! c0 = Some ndc' ∧
                    Parent ndc' = Parent ndc0) as Hkeep.
  { intros c0 ndc0 H0. destruct (decide (c0 = p)) as [->|].
    - rewrite lookup_insert_eq. simplify_eq. eauto.
    - rewrite lookup_insert_ne by done. eauto. }
  assert (∃ ndc, heap s !! c = Some ndc ∧ Parent ndc = Some y) as (ndc & H1 & H2).
  { destruct (decide (y = p)) as [->|Hne].
    - rewrite lookup_insert_eq in Hy. simplify_eq/=. by apply Hl.
    - rewrite lookup_insert_ne in Hy by done. by eapply Hb. }
  destruct (Hkeep _ _ H1) as (ndc' & ? & ?). exists ndc'. split; congruence.
Qed.

Lemma children_point_back_delete s s' p :
  heap s' = delete p (heap s) → unlisted p s →
  children_point_back s → children_point_back s'.
Proof.
  intros Hh Hun Hb y ndy c Hy Hc. rewrite Hh in Hy |- *.
  apply lookup_delete_Some in Hy as [Hne Hy].
  destruct (Hb y ndy c Hy Hc) as (ndc & Hndc & Hpc).
  exists ndc. split; [|done]. rewrite lookup_delete_ne; [done|].
  intros ->. by apply (Hun y ndy).
Qed.

Lemma children_point_back_Tidy fuel p :
  preserves children_point_back (Tidy fuel p).
Proof.
  revert p. induction fuel as [|fuel IH]; intros p s [] s' Hrun Hb.
  { by apply fail_Some in Hrun. }
  destruct (Tidy_live _ _ _ _ Hrun) as [nd Hnd].
  destruct (Children nd) as [|x rest] eqn:Hch.
  { erewrite Tidy_leaf in Hrun by done. by simplify_eq. }
  destruct (Tidy_cons_inv _ _ _ _ _ _ _ Hnd Hch Hrun)
    as (s1 & me' & nx & Hx & Hme' & Hch' & Hnx & Hne & Hrest).
  pose proof (IH _ _ _ _ Hx Hb) as Hb1.
  set (s3 := with_heap (<[p := set_Children rest me']> (heap s1)) (culled_state s1 nx))
    in Hrest.
  assert (children_point_back s3) as Hb3.
  { eapply (children_point_back_set_Children s1 s3 p me' rest); [done|done| |done].
    intros c Hc. apply (Hb1 p me' c Hme'). rewrite Hch'. by right. }
  eapply IH; [exact Hrest|].
  eapply (children_point_back_delete s3); [done| |done].
  intros y ndy Hy Hxin.
  destruct (Hb3 y ndy x Hy Hxin) as (ndx & Hndx & Hpx).
  destruct (Hb1 p me' x Hme') as (ndx' & Hndx' & Hpx'); [rewrite Hch'; left|].
  simpl in Hndx. rewrite lookup_insert_ne in Hndx by done.
  assert (y = p) as -> by congruence.
  simpl in Hy. rewrite lookup_insert_eq in Hy. simplify_eq/=.
  erewrite (Tidy_dead_child fuel p _ (set_Children rest me') x) in Hrest; [done| | |].
  - simpl. rewrite lookup_delete_ne, lookup_insert_eq by done. done.
  - done.
  - simpl. apply lookup_delete_eq.
Qed.

(** X5. Every operation of the class keeps the links of the tree sound,
    every node listed as a child being live and naming the lister as its
    parent, provided [AddChild] is handed a live node whose parent pointer
    is the receiver and [delete] a node that no child vector lists:
    the constructors list nothing, [DelChild] and [Tidy] unlist what they
    remove, and nothing else reaches a parent pointer or a child vector. *)
Theorem children_point_back_kept (o : Op) (s s' : State) :
  exec (step o) s = Some s' →
  children_point_back s → well_used s o →
  children_point_back s'.
Proof.
  intros Hrun Hb Huse. destruct (relinks o) eqn:Ho.
  - apply exec_Some in Hrun as [[] Hrun]. destruct o; simplify_eq/=.
    + apply bind_Some in Hrun as ([] & s1 & Hroot & ->%modify_Some).
      rewrite TreeServer_root_exact in Hroot.
      destruct (heap s !! this) eqn:Hf; simplify_eq/=.
      by eapply (children_point_back_alloc s _ this (root_node s junk_ping junk_good)).
    + apply TreeServer_child_inv in Hrun as (Hf & route & ->).
      by eapply (children_point_back_alloc s _ this
                   (child_node s Name Desc id Above Sock Hide route)).
    + unfold AddChild in Hrun. apply update_Some in Hrun as (nd & Hnd & ->).
      eapply (children_point_back_set_Children s _ this nd); [done|done| |done].
      intros c [Hc|Hc]%elem_of_app.
      * by eapply Hb.
      * apply list_elem_of_singleton in Hc as ->. done.
    + unfold ignore in Hrun. apply bind_Some in Hrun as (b & s1 & Hdel & Hret).
      apply ret_Some in Hret as [_ ->].
      destruct (heap s !! this) as [nd|] eqn:Hnd.
      2:{ unfold DelChild, bind, deref in Hdel. by rewrite Hnd in Hdel. }
      rewrite (DelChild_run _ _ _ _ Hnd) in Hdel.
      destruct (decide (Child ∈ Children nd)); simplify_eq; [|done].
      eapply (children_point_back_set_Children s _ this nd); [done|done| |done].
      intros c Hc%elem_of_erase_first. by eapply Hb.
    + by eapply children_point_back_Tidy.
    + rewrite delete_node_exact in Hrun.
      destruct (heap s !! this) as [nd|] eqn:Hnd; simplify_eq.
      by eapply (children_point_back_delete s).
  - eapply (children_point_back_quiet s); [| |done].
    + eapply step_keeps_dom; [|done]. by destruct o.
    + intros n. apply exec_Some in Hrun as [[] Hrun].
      by eapply step_keeps_links.
Qed.

Lemma children_point_back_kept_witness :
  children_point_back demo ∧ well_used demo (OpTidy 5 2) ∧
  ∃ s', exec (step (OpTidy 5 2)) demo = Some s' ∧ children_point_back s'.
Proof.
  assert (children_point_back demo) as Hback
    by (apply children_point_backb_sound; vm_compute; reflexivity).
  split; [exact Hback|]. split; [exact I|].
  destruct (exec (step (OpTidy 5 2)) demo) as [s'|] eqn:Hrun;
    [|by vm_compute in Hrun].
  exists s'. split; [reflexivity|].
  exact (children_point_back_kept (OpTidy 5 2) demo s' Hrun Hback I).
Defined.

Lemma delete_node_exact_run p s nd :
  heap s !! p = Some nd → delete_node p s = Some (tt, destroyed_state s p nd).
Proof. intros H. by rewrite delete_node_exact, H. Qed.

(** * Taking a link down *)

Lemma NoDup_erase_first (c : positive) l : NoDup l → c ∉ erase_first c l.
Proof.
  induction 1 as [|x l Hx _ IH]; simpl; [apply not_elem_of_nil|].
  destruct (decide (x = c)) as [->|Hne]; [done|].
  apply not_elem_of_cons. split; [congruence|done].
Qed.

(** X6. The whole of a link going down: [Tidy] on B, the root of a subtree
    laid out in the store without sharing, then [DelChild] on the node P
    that lists B, then [cull] and [delete] on B. The sequence returns;
    afterwards no node of the subtree, B included, is live or reachable
    through either map, P has lost its first entry for B and is otherwise
    as it was, every other node is untouched, the nodes were destroyed in
    post-order with B last, and the index is exact again. Where every
    child pointed back to its parent and P listed B once, no child vector
    names a node of the subtree any more, and children still point back
    to their parents. *)
Theorem teardown_removes_subtree (fuel : nat) (t : rose) (P : positive)
    (ndP : TreeServer) (s : State) :
  (length (nodes t) ≤ fuel)%nat →
  laid_out (heap s) t = true → NoDup (nodes t) → index_exact s →
  heap s !! P = Some ndP → root_of t ∈ Children ndP →
  ∃ s',
    run_ops (teardown_ops fuel P (root_of t)) s = Some s' ∧
    (∀ x, x ∈ nodes t →
          heap s' !! x = None ∧
          ∀ key, serverlist s' !! key ≠ Some x ∧ sidlist s' !! key ≠ Some x) ∧
    heap s' !! P =
      Some (set_Children (erase_first (root_of t) (Children ndP)) ndP) ∧
    (∀ x, x ∉ nodes t → x ≠ P → heap s' !! x = heap s !! x) ∧
    map fst (destroyed_log (events s')) =
      map fst (destroyed_log (events s)) ++ postorder t ∧
    index_exact s' ∧
    (children_point_back s → NoDup (Children ndP) →
     (∀ x, x ∈ nodes t → unlisted x s') ∧ children_point_back s').
Proof.
  intros Hsz Hlo Hnd Hidx HP Hin.
  destruct (Tidy_effect fuel t s Hsz Hlo Hnd Hidx)
    as (s1 & nd & Hrun & Hn & H2 & HN & HS & HPk & H1 & H3 & HE).
  set (B := root_of t) in *.
  assert (B ∉ strict t) as Hroot.
  { rewrite nodes_root in Hnd. by apply NoDup_cons in Hnd as [? _]. }
  assert (P ∉ nodes t) as HPt.
  { intros HPin. apply Hroot. by eapply laid_out_children. }
  assert (P ≠ B) as HPB.
  { intros ->. apply HPt. rewrite nodes_root. left. }
  pose proof (HPk P ndP HP Hin) as HP1.
  set (ndP' := set_Children (erase_first B (Children ndP)) ndP).
  set (s2 := with_heap (<[P := ndP']> (heap s1)) s1).
  set (s3 := culled_state s2 (set_Children [] nd)).
  set (s4 := destroyed_state s3 B (set_Children [] nd)).
  assert (heap s2 !! B = Some (set_Children [] nd)) as HB2.
  { simpl. by rewrite lookup_insert_ne. }
  assert (heap s3 = heap s2) as Hh3 by apply heap_culled_state.
  assert (run_ops (teardown_ops fuel P B) s = Some s4) as Hops.
  { unfold teardown_ops, run_ops, step, exec, ignore.
    rewrite Hrun. cbn [fmap option_fmap option_map snd].
    erewrite bind_run by (rewrite (DelChild_run _ _ _ _ HP1), decide_True; done).
    cbn [ret fmap option_fmap option_map snd]. fold ndP' s2.
    rewrite cull_exact, HB2. cbn [fmap option_fmap option_map snd].
    fold (culled_state s2 (set_Children [] nd)). fold s3.
    rewrite delete_node_exact, Hh3, HB2. done. }
  assert (index_exact s4) as Hidx4.
  { eapply index_exact_delete; [apply delete_node_exact_run; by rewrite Hh3|].
    assert (index_exact s1) as Hidx1 by (by eapply index_exact_Tidy).
    assert (index_exact s2) as Hidx2.
    { eapply (index_exact_update P (set_Children (erase_first B (Children ndP))));
        [by intros ?|by apply update_run|done]. }
    unfold s3, culled_state. destruct (IsRoot _); [done|].
    eapply (index_exact_modify
              (λ s, with_events
                      (events s ++ [EvCullUser (ServerUser (set_Children [] nd))]) s)
              ltac:(by intros ?) s2 tt); [by apply modify_Some|done]. }
  assert (∀ x, heap s4 !! x =
               if decide (x = B) then None
               else if decide (x = P) then Some ndP' else heap s1 !! x) as Hs4.
  { intros x. unfold s4, destroyed_state. cbn [heap]. rewrite Hh3. simpl.
    destruct (decide (x = B)) as [->|]; [by rewrite lookup_delete_eq|].
    rewrite lookup_delete_ne by done.
    destruct (decide (x = P)) as [->|]; [by rewrite lookup_insert_eq|].
    by rewrite lookup_insert_ne. }
  exists s4. split_and!; [done| | | | |done|].
  - intros x Hx.
    assert (heap s4 !! x = None) as Hdead.
    { rewrite Hs4. destruct (decide (x = B)); [done|].
      rewrite decide_False by (intros ->; done).
      apply H1. rewrite nodes_root in Hx. by apply elem_of_cons in Hx as [?|?]. }
    split; [done|]. intros key.
    split; intros Hk; apply Hidx4 in Hk as (ndx & Hndx & _); congruence.
  - by rewrite Hs4, decide_False, decide_True.
  - intros x Hx HxP. rewrite Hs4, !decide_False; [by apply H3|done|].
    intros ->. apply Hx. rewrite nodes_root. left.
  - unfold s4, destroyed_state. cbn [events]. rewrite destroyed_log_app.
    assert (destroyed_log (events s3) = destroyed_log (events s1)) as ->.
    { unfold s3, culled_state. destruct (IsRoot _); [done|]. simpl.
      rewrite destroyed_log_app. simpl. by rewrite app_nil_r. }
    rewrite HE, postorder_root, !map_app, map_map. simpl. rewrite map_id.
    rewrite <- app_assoc. f_equal. f_equal. by destruct (IsRoot _).
  - intros Hback HndP. subst B.
    assert (∀ x, x ∈ nodes t → unlisted x s4) as Hun.
    { intros x Hx y ndy Hy Hxy. rewrite Hs4 in Hy.
      destruct (decide (y = root_of t)) as [->|HyB]; [done|].
      assert (∃ ndy0, heap s !! y = Some ndy0 ∧ x ∈ Children ndy0 ∧ y ∉ nodes t)
        as (ndy0 & Hy0 & Hxy0 & Hyt).
      { destruct (decide (y = P)) as [->|HyP].
        - simplify_eq. exists ndP. split_and!; [done| |done].
          simpl in Hxy. by eapply elem_of_erase_first.
        - assert (y ∉ nodes t) as Hyt.
          { rewrite nodes_root. intros [?|Hys]%elem_of_cons; [done|].
            by rewrite (H1 y Hys) in Hy. }
          rewrite (H3 y Hyt) in Hy. eauto. }
      destruct (Hback y ndy0 x Hy0 Hxy0) as (ndx & Hndx & Hpx).
      rewrite nodes_root in Hx. apply elem_of_cons in Hx as [->|Hx].
      - destruct (Hback P ndP (root_of t) HP Hin) as (ndB & HndB & HpB).
        assert (y = P) as -> by congruence.
        rewrite decide_True in Hy by done. simplify_eq/=.
        by apply (NoDup_erase_first (root_of t) (Children ndP)).
      - destruct (laid_out_has_parent _ _ Hlo x Hx) as (q & ndq & Hq & Hndq & Hxq).
        destruct (Hback q ndq x Hndq Hxq) as (ndx' & Hndx' & Hpx').
        assert (y = q) as -> by congruence. done. }
    split; [done|].
    assert (children_point_back s1) as Hb1
      by (by eapply children_point_back_Tidy).
    assert (children_point_back s2) as Hb2.
    { eapply (children_point_back_set_Children s1 s2 P ndP); [done|done| |done].
      intros c Hc%elem_of_erase_first. by eapply Hb1. }
    eapply (children_point_back_delete s3 s4 (root_of t)); [done| |].
    + intros y ndy Hy. rewrite Hh3 in Hy. intros HBy.
      destruct (decide (y = root_of t)) as [->|HyB].
      * rewrite HB2 in Hy. simplify_eq/=. by apply elem_of_nil in HBy.
      * apply (Hun (root_of t) ltac:(rewrite nodes_root; left) y ndy); [|done].
        rewrite Hs4, decide_False by done.
        destruct (decide (y = P)) as [->|HyP].
        -- simpl in Hy. by rewrite lookup_insert_eq in Hy.
        -- simpl in Hy. by rewrite lookup_insert_ne in Hy.
    + intros y ndy c Hy Hc. rewrite Hh3 in Hy |- *. by eapply Hb2.
Qed.

Lemma teardown_removes_subtree_witness :
  ∃ ndP s',
    heap demo !! 1%positive = Some ndP ∧ root_of demo_tree ∈ Children ndP ∧
    run_ops (teardown_ops 5 1 (root_of demo_tree)) demo = Some s' ∧
    heap s' !! root_of demo_tree = None ∧ index_exact s'.
Proof.
  assert (NoDup (nodes demo_tree)) as Hnd
    by (apply (bool_decide_unpack _); vm_compute; exact I).
  assert (index_exact demo) as Hidx
    by (apply index_exactb_sound; vm_compute; reflexivity).
  destruct (heap demo !! 1%positive) as [ndP|] eqn:HP; [|by vm_compute in HP].
  assert (root_of demo_tree ∈ Children ndP) as Hin.
  { vm_compute in HP. injection HP as <-. simpl. left. }
  destruct (teardown_removes_subtree 5 demo_tree 1 ndP demo
              ltac:(vm_compute; lia) ltac:(vm_compute; reflexivity) Hnd Hidx HP Hin)
    as (s' & Hrun & Hgone & _ & _ & _ & Hidx' & _).
  exists ndP, s'. split_and!; [reflexivity|exact Hin|exact Hrun| |exact Hidx'].
  apply Hgone. simpl. left.
Defined.

(** * Sessions and topology *)

(** X7. [Tidy] is about topology only: whenever it returns, the user
    registry and the root pointer are as before and no node has been
    created; and all it has emitted is, for one node after the other, its
    synthetic user culled, the node destroyed and the synthetic user
    deleted, in this order. No [QuitUser] call is among it. *)
Theorem Tidy_leaves_sessions (fuel : nat) (p : positive) (s s' : State) :
  Tidy fuel p s = Some (tt, s') →
  clientlist s' = clientlist s ∧ TreeRoot s' = TreeRoot s ∧
  (∀ c, heap s !! c = None → heap s' !! c = None) ∧
  ∃ l, events s' = events s ++ concat (map destroy_events l).
Proof.
  intros Hrun. split_and!; [| |by intros c; eapply Tidy_keeps_dead|];
    revert p s s' Hrun; induction fuel as [|fuel IH]; intros p s s' Hrun;
    try (by apply fail_Some in Hrun);
    destruct (Tidy_live _ _ _ _ Hrun) as [nd Hnd];
    (destruct (Children nd) as [|x rest] eqn:Hch;
     [erewrite Tidy_leaf in Hrun by done; simplify_eq|
      destruct (Tidy_cons_inv _ _ _ _ _ _ _ Hnd Hch Hrun)
        as (s1 & me' & nx & Hx & _ & _ & _ & _ & Hrest)]).
  - done.
  - rewrite (IH _ _ _ Hrest). simpl. rewrite <- (IH _ _ _ Hx).
    unfold culled_state. by destruct (IsRoot nx).
  - done.
  - rewrite (IH _ _ _ Hrest). simpl. rewrite <- (IH _ _ _ Hx).
    unfold culled_state. by destruct (IsRoot nx).
  - exists []. by rewrite app_nil_r.
  - destruct (IH _ _ _ Hx) as (l1 & E1).
    destruct (IH _ _ _ Hrest) as (l2 & E2).
    exists (l1 ++ (x, nx) :: l2). rewrite E2. cbn [events destroyed_state with_heap].
    rewrite map_app, concat_app. cbn [map concat].
    change (destroy_events (x, nx))
      with ((if IsRoot nx then [] else [EvCullUser (ServerUser nx)]) ++
            EvDestroy x nx ::
            (if IsRoot nx then [] else [EvDeleteUser (ServerUser nx)])).
    unfold culled_state. destruct (IsRoot nx); simpl; rewrite E1;
      by rewrite <- ?app_assoc.
Qed.

Lemma Tidy_leaves_sessions_witness :
  ∃ s', Tidy 5 2 demo = Some (tt, s') ∧ clientlist s' = clientlist demo.
Proof.
  destruct (Tidy 5 2 demo) as [[[] s']|] eqn:Hrun; [|by vm_compute in Hrun].
  exists s'. split; [reflexivity|].
  exact (proj1 (Tidy_leaves_sessions 5 2 demo s' Hrun)).
Defined.


Lemma quit_all_frame reason l s :
  serverlist (quit_all reason l s) = serverlist s ∧
  sidlist (quit_all reason l s) = sidlist s ∧
  TreeRoot (quit_all reason l s) = TreeRoot s.
Proof.
  revert s. induction l as [|a l IH]; intros s; simpl; [done|].
  destruct (IH (if is_local a then s
                else with_events
                       (events s ++ [quit_event (quiet_bursts s) (HideSplits s) reason a])
                       (with_clientlist (filter (λ v, nick v ≠ nick a) (clientlist s)) s)))
    as (E1 & E2 & E3).
  rewrite E1, E2, E3. by destruct (is_local a).
Qed.

(** X8. [QuitUsers] is about sessions only: whenever it returns, the
    store, both maps and the root pointer are as before, and it has made
    one [QuitUser] call for each session of the registry that is
    affiliated with the node's name and not local, in registry order and
    no other: with the public reason ["*.net *.split"] and the given
    reason for operators when split hiding is on, with the given reason
    alone otherwise, and with [quietquit] set when quiet bursts are on. *)
Theorem QuitUsers_leaves_topology (this : positive) (reason : string)
    (s s' : State) (n : Z) :
  QuitUsers this reason s = Some (n, s') →
  heap s' = heap s ∧ serverlist s' = serverlist s ∧ sidlist s' = sidlist s ∧
  TreeRoot s' = TreeRoot s ∧
  ∃ me,
    heap s !! this = Some me ∧
    events s' =
      events s ++
      map (λ u, EvQuitUser (if quiet_bursts s then set_quietquit true u else u)
                  (if HideSplits s then "*.net *.split" else reason)
                  (if HideSplits s then Some reason else None))
        (filter (λ u, is_local u = false)
           (filter (λ u, server u = ServerName me) (clientlist s))).
Proof.
  rewrite QuitUsers_exact. destruct (heap s !! this) as [me|]; [|done].
  simpl. intros [= <- <-].
  destruct (quit_all_events reason
              (filter (λ u, server u = ServerName me) (clientlist s)) s)
    as (E1 & _ & _ & E4).
  destruct (quit_all_frame reason
              (filter (λ u, server u = ServerName me) (clientlist s)) s)
    as (F1 & F2 & F3).
  split_and!; [done..|]. exists me. split; [done|]. rewrite E1. f_equal.
  apply map_ext. intros u. unfold quit_event. by destruct (HideSplits s).
Qed.

Lemma QuitUsers_leaves_topology_witness :
  ∃ n s', QuitUsers 6 "bye" demo = Some (n, s') ∧ heap s' = heap demo.
Proof.
  destruct (QuitUsers 6 "bye" demo) as [[n s']|] eqn:Hrun; [|by vm_compute in Hrun].
  exists n, s'. split; [reflexivity|].
  exact (proj1 (QuitUsers_leaves_topology 6 "bye" demo s' n Hrun)).
Defined.



(** * What stays fixed while a node lives *)

#[local] Instance keeps_identity_refl : Reflexive keeps_identity.
Proof. intros a. unfold keeps_identity. by split_and!. Qed.
#[local] Instance keeps_identity_trans : Transitive keeps_identity.
Proof.
  intros a b c Hab Hbc. unfold keeps_identity in *.
  destruct_and!. split_and!; congruence.
Qed.
#[local] Instance same_version_refl : Reflexive same_version.
Proof. by intros a. Qed.
#[local] Instance same_version_trans : Transitive same_version.
Proof. intros a b c Hab Hbc. unfold same_version in *. congruence. Qed.

Lemma run_alive_keeps_identity n ops s s' :
  run_alive n ops s = Some s' →
  ∃ nd nd', heap s !! n = Some nd ∧ heap s' !! n = Some nd' ∧ keeps_identity nd nd'.
Proof.
  intros Hrun.
  assert (Forall (λ o, (is_finish o = true →
                          ∀ nd, keeps_identity nd (set_bursting false nd)) ∧
                       (reschedules n o = true →
                          ∀ t nd, keeps_identity nd (set_LastPingWasGood false
                                                       (set_NextPing t nd)))) ops)
    as Hops.
  { apply Forall_forall. intros o _.
    split; intros _; intros; unfold keeps_identity; by split_and!. }
  eapply (run_alive_evolves n keeps_identity); [..|exact Hops|exact Hrun];
    intros; unfold keeps_identity; by split_and!.
Qed.

(** X10. While a node lives, no operation of the class reassigns the
    members the constructor set: parent, route, name, description, SID,
    socket, synthetic user, age, burst start and the counters; in
    particular the route is never computed again, and the getters return
    at the end of any run what they returned at its start. *)
Theorem identity_never_changes (n : positive) (ops : list Op) (s s' : State) :
  run_alive n ops s = Some s' →
  ∃ nd nd',
    heap s !! n = Some nd ∧ heap s' !! n = Some nd' ∧ keeps_identity nd nd' ∧
    GetRoute n s' = Some (Route nd, s') ∧ GetParent n s' = Some (Parent nd, s') ∧
    GetID n s' = Some (sid nd, s') ∧ GetDesc n s' = Some (ServerDesc nd, s') ∧
    GetSocket n s' = Some (Socket nd, s').
Proof.
  intros Hrun.
  destruct (run_alive_keeps_identity _ _ _ _ Hrun) as (nd & nd' & Hnd & Hnd' & HR).
  exists nd, nd'. pose proof HR as (E1 & E2 & E3 & E4 & E5 & E6 & _).
  unfold GetRoute, GetParent, GetID, GetDesc, GetSocket.
  split_and!; [done..| | | | |];
    (erewrite bind_run by (by apply deref_Some)); unfold ret; congruence.
Qed.

Lemma identity_never_changes_witness :
  run_alive 3 demo_later_ops demo_finished = Some demo_later ∧
  GetRoute 3 demo_later = Some (Some 2%positive, demo_later).
Proof.
  split; [vm_compute; reflexivity|].
  destruct (identity_never_changes 3 demo_later_ops demo_finished demo_later
              ltac:(vm_compute; reflexivity))
    as (nd & nd' & Hnd & _ & _ & Hroute & _).
  assert (Route nd = Some 2%positive) as <-; [|exact Hroute].
  vm_compute in Hnd. injection Hnd as <-. reflexivity.
Defined.

Lemma step_keeps_version n o :
  sets_version n o = false → constructs o ≠ Some n →
  evolving n same_version (step o).
Proof.
  intros Hv Hnew. pose proof (evolving_reads n same_version) as Hreads.
  destruct o; simpl in *; evo; try (by apply Hreads).
  - apply evolving_root; evo. by intros ->.
  - apply evolving_child; evo. by intros ->.
  - apply evolving_FinishBurst; evo; done.
  - apply evolving_FinishBurstInternal; evo; done.
  - apply evolving_QuitUsers; evo.
  - apply evolving_SetNextPingTime; evo. done.
  - unfold SetPingFlag. evo.
  - unfold SetVersion. apply evolving_update; [exact _|]. intros ->.
    by rewrite bool_decide_eq_true_2 in Hv.
  - apply evolving_AddChild; evo. done.
  - apply evolving_DelChild; evo. done.
  - apply evolving_Tidy; evo. done.
  - apply evolving_cull; evo.
  - apply evolving_delete; evo.
Qed.

Lemma run_alive_keeps_version n ops s s' :
  Forall (λ o, sets_version n o = false) ops →
  run_alive n ops s = Some s' →
  ∃ nd nd', heap s !! n = Some nd ∧ heap s' !! n = Some nd' ∧
            VersionString nd' = VersionString nd.
Proof.
  intros Hops. revert s. induction Hops as [|o ops Ho _ IH]; intros s; simpl.
  - destruct (live n s) eqn:Hl; [|done]. intros [= <-].
    apply live_Some in Hl as [nd Hnd]. by exists nd, nd.
  - destruct (live n s) eqn:Hl; [|done].
    destruct (exec (step o) s) as [s1|] eqn:Hstep; [|done]. intros Hrun.
    destruct (IH _ Hrun) as (nd1 & nd' & H1 & Hn' & HR).
    assert (constructs o ≠ Some n) as Hnew.
    { intros Hc. pose proof (step_constructs_fresh _ _ _ _ Hc Hstep).
      apply live_Some in Hl as [? ?]. congruence. }
    apply exec_Some in Hstep as [[] Hstep].
    destruct (step_keeps_version n o Ho Hnew _ _ _ Hstep _ H1) as (nd0 & ? & HR0).
    exists nd0, nd'. unfold same_version in HR0. split_and!; [done..|congruence].
Qed.

(** X11. The version string: a node made by the child constructor has the
    empty one, the root the local version; [SetVersion] stores its
    argument, which [GetVersion] then returns; and along any run that
    keeps the node alive and holds no [SetVersion] on it, [GetVersion]
    returns at the end what it returned at the start. *)
Theorem version_changes_only_by_SetVersion :
  (∀ fuel this Name Desc id Above Sock Hide s s',
     TreeServer_child fuel this Name Desc id Above Sock Hide s = Some (tt, s') →
     GetVersion this s' = Some ("", s')) ∧
  (∀ this jp jg s s',
     TreeServer_root this jp jg s = Some (tt, s') →
     GetVersion this s' = Some (cfg_Version s, s')) ∧
  (∀ n v s,
     live n s = true →
     ∃ s1, SetVersion n v s = Some (tt, s1) ∧ GetVersion n s1 = Some (v, s1)) ∧
  (∀ n ops s s',
     run_alive n ops s = Some s' →
     Forall (λ o, sets_version n o = false) ops →
     ∃ v, GetVersion n s = Some (v, s) ∧ GetVersion n s' = Some (v, s')).
Proof.
  split_and!.
  - intros fuel this Name Desc id Above Sock Hide s s' Hrun.
    apply TreeServer_child_inv in Hrun as (_ & route & ->).
    unfold GetVersion. erewrite bind_run by (apply deref_Some; simpl; by rewrite lookup_insert_eq).
    done.
  - intros this jp jg s s' Hrun. rewrite TreeServer_root_exact in Hrun.
    destruct (heap s !! this); [done|]. injection Hrun as <-.
    unfold GetVersion. erewrite bind_run by (apply deref_Some; simpl; by rewrite lookup_insert_eq).
    done.
  - intros n v s [nd Hnd]%live_Some. eexists. split.
    + unfold SetVersion. by apply update_run.
    + unfold GetVersion.
      erewrite bind_run by (apply deref_Some; simpl; by rewrite lookup_insert_eq).
      done.
  - intros n ops s s' Hrun Hops.
    destruct (run_alive_keeps_version n ops s s' Hops Hrun)
      as (nd & nd' & Hnd & Hnd' & Hv).
    exists (VersionString nd). unfold GetVersion.
    split; (erewrite bind_run by (by apply deref_Some)); unfold ret; congruence.
Qed.

Lemma version_changes_only_by_SetVersion_witness :
  run_alive 2 [OpSetVersion 3 "v"; OpFinishBurst 3 2; OpTidy 5 2] demo ≠ None ∧
  ∀ s', run_alive 2 [OpSetVersion 3 "v"; OpFinishBurst 3 2; OpTidy 5 2] demo = Some s' →
        GetVersion 2 s' = Some ("", s').
Proof.
  split; [vm_compute; discriminate|]. intros s' Hrun.
  destruct (proj2 (proj2 (proj2 version_changes_only_by_SetVersion))
              2%positive _ demo s' Hrun) as (v & Hv & Hv').
  - repeat constructor.
  - assert (v = "") as ->; [|exact Hv'].
    vm_compute in Hv. by injection Hv as <-.
Defined.

(** * The index under duplicate and fresh keys *)

(** X12. The child constructor does not look for its name in the index:
    given the name of a live node it returns all the same, the name now
    leads to the new node and the index is no longer exact; and when the
    new node is deleted the name is erased, the older node staying live
    but out of the map. *)
Theorem duplicate_name_takes_over_the_index (fuel : nat) (this : positive)
    (Name Desc id : string) (Above : ptr) (Sock : option nat) (Hide : bool)
    (s : State) (b : positive) (nb : TreeServer) :
  heap s !! this = None → routable fuel s Above →
  heap s !! b = Some nb → ServerName nb = Name →
  ∃ s',
    TreeServer_child fuel this Name Desc id Above Sock Hide s = Some (tt, s') ∧
    heap s' !! b = Some nb ∧ serverlist s' !! Name = Some this ∧
    ¬ index_exact s' ∧
    ∃ s'', delete_node this s' = Some (tt, s'') ∧
           heap s'' !! b = Some nb ∧ serverlist s'' !! Name = None.
Proof.
  intros Hf Hroute Hb Hname.
  destruct (TreeServer_child_returns fuel this Name Desc id Above Sock Hide s
              Hf Hroute) as [r Hr].
  assert (b ≠ this) as Hne by (intros ->; congruence).
  eexists. split; [exact Hr|].
  assert (heap (child_state s this Name Desc id Above Sock Hide (Some r)) !! b
          = Some nb) as Hb'.
  { simpl. by rewrite lookup_insert_ne. }
  split_and!.
  - exact Hb'.
  - simpl. apply lookup_insert_eq.
  - intros Hidx. apply Hne.
    apply (index_exact_distinct _ Hidx b this nb
             (child_node s Name Desc id Above Sock Hide (Some r)) Hb');
      [simpl; apply lookup_insert_eq | by left].
  - rewrite delete_node_exact. cbn [heap child_state].
    rewrite lookup_insert_eq. eexists. split; [done|]. simpl.
    rewrite lookup_delete_ne, lookup_insert_ne, lookup_delete_eq by done. done.
Qed.

Lemma duplicate_name_takes_over_the_index_witness :
  ∃ nb s',
    heap demo !! 3%positive = Some nb ∧ ServerName nb = "d.example" ∧
    TreeServer_child 4 9 "d.example" "D again" "00X" (Some 1%positive) None false demo
      = Some (tt, s') ∧
    serverlist s' !! "d.example" = Some 9%positive.
Proof.
  destruct (heap demo !! 3%positive) as [nb|] eqn:Hnb; [|by vm_compute in Hnb].
  assert (ServerName nb = "d.example") as Hname.
  { vm_compute in Hnb. injection Hnb as <-. reflexivity. }
  destruct (duplicate_name_takes_over_the_index 4 9 "d.example" "D again" "00X"
              (Some 1%positive) None false demo 3 nb
              ltac:(vm_compute; reflexivity) ltac:(left; vm_compute; reflexivity)
              Hnb Hname) as (s' & Hrun & _ & Hidx & _).
  exists nb, s'. split_and!; [reflexivity|exact Hname|exact Hrun|exact Hidx].
Defined.

(** X13. Constructing a node under a name and a SID that the index does
    not hold and deleting it again is a round trip: the store, both maps,
    the root pointer and the user registry are what they were. *)
Theorem construct_then_delete_restores (fuel : nat) (this : positive)
    (Name Desc id : string) (Above : ptr) (Sock : option nat) (Hide : bool)
    (s : State) :
  heap s !! this = None → routable fuel s Above →
  serverlist s !! Name = None → sidlist s !! id = None →
  ∃ s' s'',
    TreeServer_child fuel this Name Desc id Above Sock Hide s = Some (tt, s') ∧
    delete_node this s' = Some (tt, s'') ∧
    heap s'' = heap s ∧ serverlist s'' = serverlist s ∧
    sidlist s'' = sidlist s ∧ TreeRoot s'' = TreeRoot s ∧
    clientlist s'' = clientlist s.
Proof.
  intros Hf Hroute Hn Hs.
  destruct (TreeServer_child_returns fuel this Name Desc id Above Sock Hide s
              Hf Hroute) as [r Hr].
  eexists _, _. split; [exact Hr|]. split.
  - rewrite delete_node_exact. cbn [heap child_state].
    by rewrite lookup_insert_eq.
  - simpl. by rewrite !delete_insert_id.
Qed.

Lemma construct_then_delete_restores_witness :
  ∃ s' s'',
    TreeServer_child 4 9 "g.example" "G" "00G" (Some 3%positive) None false demo
      = Some (tt, s') ∧
    delete_node 9 s' = Some (tt, s'') ∧ heap s'' = heap demo.
Proof.
  destruct (construct_then_delete_restores 4 9 "g.example" "G" "00G"
              (Some 3%positive) None false demo
              ltac:(vm_compute; reflexivity)
              ltac:(right; exists 3%positive, 2%positive;
                    split; vm_compute; reflexivity)
              ltac:(vm_compute; reflexivity) ltac:(vm_compute; reflexivity))
    as (s' & s'' & H1 & H2 & H3 & _).
  exists s', s''. split_and!; assumption.
Defined.

(** * The constructor without a usable parent *)

(** X14. With the root in place, the child constructor has no result when
    its parent argument is null, points to no live object, or points to a
    node other than the root that has no parent itself: the walk towards
    the root then follows a null or dangling pointer. Before any root
    exists a null parent is taken for the root, and the node routes
    through itself. *)
Theorem child_constructor_needs_a_parent (fuel : nat) (this : positive)
    (Name Desc id : string) (Above : ptr) (Sock : option nat) (Hide : bool)
    (s : State) :
  (∀ rt, TreeRoot s = Some rt →
     Above = None ∨
     (∃ p, Above = Some p ∧ p ≠ rt ∧ p ≠ this ∧ heap s !! p = None) ∨
     (∃ p nd, Above = Some p ∧ p ≠ rt ∧ heap s !! p = Some nd ∧ Parent nd = None) →
     TreeServer_child fuel this Name Desc id Above Sock Hide s = None) ∧
  (TreeRoot s = None → Above = None → heap s !! this = None →
     ∃ s' nd,
       TreeServer_child fuel this Name Desc id Above Sock Hide s = Some (tt, s') ∧
       heap s' !! this = Some nd ∧ Route nd = Some this ∧ Parent nd = None).
Proof.
  split.
  - intros rt Hrt Hcase.
    destruct (heap s !! this) as [x|] eqn:Hf.
    { destruct (TreeServer_child fuel this Name Desc id Above Sock Hide s)
        as [r'|] eqn:Hrun; [|done].
      apply TreeServer_child_fresh in Hrun. congruence. }
    rewrite TreeServer_child_exact by done. unfold child_route. rewrite Hrt.
    destruct Hcase as [->|[(p & -> & Hp & Hpt & Hdead)|(p & nd & -> & Hp & Hnd & Hpar)]].
    + by rewrite decide_False.
    + rewrite decide_False by congruence. destruct fuel; [done|]. simpl.
      by rewrite lookup_insert_ne, Hdead.
    + rewrite decide_False by congruence. destruct fuel; [done|]. simpl.
      rewrite lookup_insert_ne, Hnd by (intros ->; congruence).
      rewrite Hpar. by rewrite decide_False.
  - intros Hroot -> Hf. rewrite TreeServer_child_exact by done.
    unfold child_route. rewrite Hroot, decide_True by done.
    eexists _, _. split; [done|]. simpl. by rewrite lookup_insert_eq.
Qed.

Lemma child_constructor_needs_a_parent_witness :
  TreeRoot demo = Some 1%positive ∧
  TreeServer_child 50 9 "g.example" "G" "00G" None None false demo = None ∧
  TreeServer_child 50 9 "g.example" "G" "00G" (Some 7%positive) None false demo = None.
Proof.
  split; [vm_compute; reflexivity|]. split.
  - apply (proj1 (child_constructor_needs_a_parent 50 9 "g.example" "G" "00G"
                    None None false demo) 1%positive); [vm_compute; reflexivity|].
    by left.
  - apply (proj1 (child_constructor_needs_a_parent 50 9 "g.example" "G" "00G"
                    (Some 7%positive) None false demo) 1%positive);
      [vm_compute; reflexivity|].
    right. left. exists 7%positive.
    split_and!; [reflexivity|discriminate|discriminate|vm_compute; reflexivity].
Defined.

(** * The burst time against the clock *)

Lemma burst_time_wraps ts (me : TreeServer) :
  ts < StartBurst me → StartBurst me - ts ≤ 2 ^ 63 →
  burst_time ts me = 2 ^ 64 - (StartBurst me - ts).
Proof.
  intros Hlt Hle. unfold burst_time, to_ulong, to_long.
  replace ((ts - StartBurst me + 2 ^ 63) mod 2 ^ 64)
    with (ts - StartBurst me + 2 ^ 63) by (symmetry; apply Z.mod_small; lia).
  replace (ts - StartBurst me + 2 ^ 63 - 2 ^ 63)
    with (2 ^ 64 - (StartBurst me - ts) + (-1) * 2 ^ 64) by lia.
  rewrite Z_mod_plus_full. apply Z.mod_small. lia.
Qed.

(** X15. The burst time is the difference of two clock readings taken as
    an unsigned number: when the clock has gone back by [d] ms since the
    node began bursting, [FinishBurst] still returns, and its notice
    gives the burst time as 2^64 - d ms, in whole seconds. *)
Theorem burst_time_after_clock_set_back (fuel : nat) (B : positive) (s : State)
    (nb : TreeServer) :
  bounded fuel (heap s) B = true → heap s !! B = Some nb →
  now_ms s < StartBurst nb → StartBurst nb - now_ms s ≤ 2 ^ 63 →
  ∃ s',
    FinishBurst fuel B s = Some (tt, s') ∧
    events s' = events s ++
      [ EvApplyLines;
        EvSnoNotice (if decide (Parent nb = TreeRoot s) then "l" else "L")%char
          ("Received end of netburst from " +:+ bold +:+ ServerName nb +:+ bold +:+
           " (burst time: " +:+
           fmt_lu ((2 ^ 64 - (StartBurst nb - now_ms s)) / 1000) +:+ " secs)");
        EvServerEvent (ServerName nb) ].
Proof.
  intros Hb Hnb Hlt Hle. destruct (FinishBurstInternal_total _ _ _ Hb) as [s1 Hs1].
  destruct (FinishBurstInternal_spec _ _ _ _ Hs1) as (Hfr & _).
  eexists. split; [by apply FinishBurst_exact|].
  cbn [events with_events]. f_equal. f_equal. f_equal.
  unfold burst_notice, burst_amount, burst_unit.
  rewrite burst_time_wraps by done.
  assert ((10000 <? 2 ^ 64 - (StartBurst nb - now_ms s)) = true) as ->
    by (apply Z.ltb_lt; lia).
  done.
Qed.

Lemma burst_time_after_clock_set_back_witness :
  ∃ nb s',
    heap demo_set_back !! 2%positive = Some nb ∧
    now_ms demo_set_back < StartBurst nb ∧
    FinishBurst 3 2 demo_set_back = Some (tt, s') ∧
    events s' = events demo_set_back ++
      [ EvApplyLines;
        EvSnoNotice "l"
          ("Received end of netburst from " +:+ bold +:+ "b.example" +:+ bold +:+
           " (burst time: 18446744073709550 secs)");
        EvServerEvent "b.example" ].
Proof.
  destruct (heap demo_set_back !! 2%positive) as [nb|] eqn:Hnb;
    [|by vm_compute in Hnb].
  assert (Parent nb = Some 1%positive ∧ ServerName nb = "b.example" ∧
          StartBurst nb = 1000500) as (Hp & Hname & Hsb).
  { vm_compute in Hnb. injection Hnb as <-. by split_and!. }
  assert (now_ms demo_set_back = 999000) as Hnow by (vm_compute; reflexivity).
  destruct (burst_time_after_clock_set_back 3 2 demo_set_back nb
              ltac:(vm_compute; reflexivity) Hnb
              ltac:(rewrite Hnow, Hsb; lia) ltac:(rewrite Hnow, Hsb; lia))
    as (s' & Hrun & Hev).
  exists nb, s'. split_and!; [reflexivity| |exact Hrun|].
  - rewrite Hnow, Hsb. lia.
  - rewrite Hev, Hp, Hname, Hsb, Hnow. reflexivity.
Defined.

(** * A new node and the burst of its parent *)

Lemma bounded_reach_insert_fresh k (h : gmap positive TreeServer) this x p n :
  h !! this = None → bounded k h p = true →
  reach (<[this := x]> h) p n → reach h p n.
Proof.
  intros Hf Hb Hr. revert k Hb.
  induction Hr as [p nd Hp | p nd c n Hp Hc _ IH]; intros k Hb.
  - destruct k as [|k]; [done|]. simpl in Hb.
    destruct (h !! p) as [nd0|] eqn:Hp0; [|done]. by eapply reach_self.
  - destruct k as [|k]; [done|]. simpl in Hb.
    destruct (h !! p) as [nd0|] eqn:Hp0; [|done].
    rewrite lookup_insert_ne in Hp by (intros ->; congruence). simplify_eq.
    rewrite forallb_forall in Hb.
    eapply reach_child; [done..|]. eapply (IH k). by apply Hb, list_elem_of_In.
Qed.

Lemma bounded_insert_fresh k (h : gmap positive TreeServer) this x p :
  h !! this = None → bounded k h p = true → bounded k (<[this := x]> h) p = true.
Proof.
  intros Hf. revert p. induction k as [|k IH]; intros p Hb; [done|]. simpl in *.
  destruct (h !! p) as [nd|] eqn:Hp; [|done].
  rewrite lookup_insert_ne, Hp by (intros ->; congruence).
  rewrite forallb_forall in Hb |- *. intros c Hc. by apply IH, Hb.
Qed.

Lemma bounded_add_leaf k (h : gmap positive TreeServer) this leaf p ndp q :
  h !! this = None → h !! p = Some ndp → Children leaf = [] →
  bounded k h q = true →
  bounded (S k)
    (<[p := set_Children (Children ndp ++ [this]) ndp]> (<[this := leaf]> h)) q = true.
Proof.
  intros Hf Hp Hleaf. assert (p ≠ this) as Hne by (intros ->; congruence).
  revert q. induction k as [|k IH]; intros q Hb; [done|].
  simpl in Hb. destruct (h !! q) as [nd|] eqn:Hq; [|done].
  assert (q ≠ this) as Hqt by (intros ->; congruence).
  rewrite forallb_forall in Hb.
  change (bounded (S (S k)) ?h' q) with
    (match h' !! q with
     | Some nd => forallb (bounded (S k) h') (Children nd)
     | None => false
     end).
  destruct (decide (q = p)) as [->|Hqp].
  - rewrite lookup_insert_eq. simplify_eq. cbn [Children set_Children].
    rewrite forallb_app. apply andb_true_intro. split.
    + apply forallb_forall. intros c Hc. by apply IH, Hb.
    + cbn [forallb]. rewrite andb_true_r. simpl.
      rewrite lookup_insert_ne, lookup_insert_eq by done. by rewrite Hleaf.
  - rewrite !lookup_insert_ne, Hq by done.
    apply forallb_forall. intros c Hc. by apply IH, Hb.
Qed.

(** X16. The constructor does not put the new node into the child vector
    of its parent, and [FinishBurst] follows child vectors only: run on
    the parent right after the constructor it leaves the new node
    bursting; once [AddChild] has linked the node, it clears the flag of
    the new node as well. Both runs return, the subtree of the parent
    being live and of bounded depth. *)
Theorem new_node_joins_the_burst_once_linked (k fuel : nat) (this p : positive)
    (Name Desc id : string) (Sock : option nat) (Hide : bool) (s : State) :
  heap s !! this = None → routable fuel s (Some p) →
  bounded k (heap s) p = true →
  (∃ s1 s2,
     TreeServer_child fuel this Name Desc id (Some p) Sock Hide s = Some (tt, s1) ∧
     FinishBurst k p s1 = Some (tt, s2) ∧
     bursting <$> heap s2 !! this = Some true) ∧
  (∃ s1 s2 s3,
     TreeServer_child fuel this Name Desc id (Some p) Sock Hide s = Some (tt, s1) ∧
     AddChild p this s1 = Some (tt, s2) ∧
     FinishBurst (S k) p s2 = Some (tt, s3) ∧
     bursting <$> heap s3 !! this = Some false).
Proof.
  intros Hf Hroute Hb.
  destruct (TreeServer_child_returns fuel this Name Desc id (Some p) Sock Hide s
              Hf Hroute) as [r Hr].
  set (leaf := child_node s Name Desc id (Some p) Sock Hide (Some r)) in *.
  set (s1 := child_state s this Name Desc id (Some p) Sock Hide (Some r)) in *.
  assert (heap s1 = <[this := leaf]> (heap s)) as Hh1 by done.
  assert (∃ ndp, heap s !! p = Some ndp) as [ndp Hp].
  { destruct k; [done|]. simpl in Hb. destruct (heap s !! p); [eauto|done]. }
  assert (p ≠ this) as Hne by (intros ->; congruence).
  split.
  - assert (bounded k (heap s1) p = true) as Hb1
      by (rewrite Hh1; by apply bounded_insert_fresh).
    destruct (FinishBurstInternal_total _ _ _ Hb1) as [s2 Hs2].
    destruct (FinishBurstInternal_spec _ _ _ _ Hs2) as (_ & _ & _ & Hnre).
    assert (heap s1 !! p = Some ndp) as Hp1
      by (rewrite Hh1; by rewrite lookup_insert_ne).
    eexists s1, _. split; [exact Hr|]. split; [by eapply FinishBurst_exact|].
    cbn [heap with_events]. rewrite Hnre.
    + rewrite Hh1, lookup_insert_eq. done.
    + rewrite Hh1. intros Hreach.
      apply (bounded_reach_insert_fresh k) in Hreach; [|done..].
      destruct (reach_live _ _ _ Hreach) as [? ?]. congruence.
  - set (ndp' := set_Children (Children ndp ++ [this]) ndp).
    set (s2 := with_heap (<[p := ndp']> (heap s1)) s1).
    assert (AddChild p this s1 = Some (tt, s2)) as Hadd.
    { apply AddChild_run. rewrite Hh1. by rewrite lookup_insert_ne. }
    assert (bounded (S k) (heap s2) p = true) as Hb2.
    { unfold s2. cbn [heap with_heap]. rewrite Hh1.
      by apply bounded_add_leaf. }
    destruct (FinishBurstInternal_total _ _ _ Hb2) as [s3 Hs3].
    destruct (FinishBurstInternal_spec _ _ _ _ Hs3) as (_ & _ & Hre & _).
    assert (heap s2 !! p = Some ndp') as Hp2 by (simpl; apply lookup_insert_eq).
    assert (heap s2 !! this = Some leaf) as Ht2.
    { simpl. rewrite lookup_insert_ne by done. apply lookup_insert_eq. }
    eexists s1, s2, _.
    split; [exact Hr|]. split; [exact Hadd|].
    split; [by eapply FinishBurst_exact|].
    cbn [heap with_events]. rewrite Hre.
    + by rewrite Ht2.
    + eapply (reach_child _ p ndp' this); [done| |by eapply reach_self].
      simpl. apply elem_of_app. right. left.
Qed.

Lemma new_node_joins_the_burst_once_linked_witness :
  ∃ s1 s2,
    TreeServer_child 4 9 "g.example" "G" "00G" (Some 3%positive) None false demo
      = Some (tt, s1) ∧
    FinishBurst 2 3 s1 = Some (tt, s2) ∧
    bursting <$> heap s2 !! 9%positive = Some true.
Proof.
  exact (proj1 (new_node_joins_the_burst_once_linked 2 4 9 3 "g.example" "G" "00G"
                  None false demo
                  ltac:(vm_compute; reflexivity)
                  ltac:(right; exists 3%positive, 2%positive;
                        split; vm_compute; reflexivity)
                  ltac:(vm_compute; reflexivity))).
Defined.

(** * Routes as an invariant *)

#[local] Instance same_route_refl : Reflexive same_route.
Proof. by intros a. Qed.
#[local] Instance same_route_trans : Transitive same_route.
Proof. intros a b c [? ?] [? ?]. split; congruence. Qed.

Lemma step_keeps_TreeRoot o s s' :
  creates_or_destroys o = false → exec (step o) s = Some s' →
  TreeRoot s' = TreeRoot s.
Proof.
  intros Ho Hrun. apply exec_Some in Hrun as [[] Hrun].
  destruct o; simplify_eq/=.
  - unfold FinishBurst in Hrun. apply bind_Some in Hrun as ([] & s1 & H1 & Hrun).
    destruct (FinishBurstInternal_spec _ _ _ _ H1) as (Hfr & _).
    minv. simpl. by rewrite Hfr.
  - destruct (FinishBurstInternal_spec _ _ _ _ Hrun) as (Hfr & _). by rewrite Hfr.
  - unfold ignore in Hrun. apply bind_Some in Hrun as (n & s1 & H1 & Hret).
    apply ret_Some in Hret as [_ ->]. rewrite QuitUsers_exact in H1.
    destruct (heap s !! this); simplify_eq/=. apply quit_all_frame.
  - unfold SetNextPingTime in Hrun. by minv.
  - unfold ignore, NextPingTime in Hrun. by minv.
  - unfold ignore, AnsweredLastPing in Hrun. by minv.
  - unfold SetPingFlag in Hrun. by minv.
  - unfold ignore, GetID in Hrun. by minv.
  - unfold ignore, GetRoute in Hrun. by minv.
  - unfold ignore, GetDesc in Hrun. by minv.
  - unfold ignore, GetVersion in Hrun. by minv.
  - unfold ignore, GetSocket in Hrun. by minv.
  - unfold ignore, GetParent in Hrun. by minv.
  - unfold SetVersion in Hrun. by minv.
  - unfold AddChild in Hrun. by minv.
  - unfold ignore, DelChild in Hrun. apply bind_Some in Hrun as (b & s1 & H1 & Hret).
    apply ret_Some in Hret as [_ ->].
    apply bind_Some in H1 as (nd & s2 & [Hnd ->]%deref_Some & H1).
    destruct (decide (Child ∈ Children nd)); by minv.
  - rewrite cull_exact in Hrun. destruct (heap s !! this) as [nd|]; simplify_eq.
    by destruct (IsRoot nd).
  - by minv.
Qed.

(** X17. That every stored route is the one the recurrence gives is an
    invariant of the class: the child constructor and every operation
    that neither replaces the root pointer nor destroys a node keep it. *)
Theorem routes_stay_sound (o : Op) (s s' : State) :
  exec (step o) s = Some s' → unroutes o = false →
  routes_sound s → routes_sound s'.
Proof.
  intros Hrun Ho Hsound. destruct (creates_or_destroys o) eqn:Hcd.
  - destruct o; simplify_eq/=. apply exec_Some in Hrun as [[] Hrun].
    pose proof (TreeServer_child_fresh _ _ _ _ _ _ _ _ _ _ Hrun) as Hf.
    rewrite TreeServer_child_exact in Hrun by done.
    destruct (child_route fuel s this Name Desc id Above Sock Hide) as [r|] eqn:Hr;
      simplify_eq.
    by eapply routes_sound_child.
  - pose proof (step_keeps_dom _ _ _ Hcd Hrun) as Hdom.
    pose proof (step_keeps_TreeRoot _ _ _ Hcd Hrun) as Hroot.
    apply exec_Some in Hrun as [[] Hrun].
    assert (∀ n, evolves n same_route s s') as Hev.
    { intros n.
      apply (evolving_step n same_route ltac:(done) ltac:(done) ltac:(done)
               ltac:(done) o ltac:(done) ltac:(done) ltac:(by destruct o)
               s tt s' Hrun). }
    assert (∀ q, Parent <$> heap s' !! q = Parent <$> heap s !! q) as Hpar.
    { intros q. destruct (heap s' !! q) as [nd'|] eqn:Hq'.
      - destruct (Hev q nd' Hq') as (nd & -> & [? _]). simpl. congruence.
      - apply not_elem_of_dom in Hq'. rewrite Hdom in Hq'.
        apply not_elem_of_dom in Hq'. by rewrite Hq'. }
    intros n nd' r Hn' Hr'.
    destruct (Hev n nd' Hn') as (nd & Hn & [_ HR]).
    destruct (Hsound n nd r Hn) as [k Hk]; [congruence|].
    exists k. rewrite Hroot. by rewrite (spec_route_same_parents _ (heap s)).
Qed.

Lemma routes_soundb_sound k s : routes_soundb k s = true → routes_sound s.
Proof.
  unfold routes_soundb. rewrite forallb_forall. intros H n nd r Hn Hr.
  apply elem_of_map_to_list, list_elem_of_In, H in Hn. simpl in Hn.
  rewrite Hr in Hn. apply bool_decide_eq_true in Hn. eauto.
Qed.

Lemma routes_stay_sound_witness :
  routes_sound demo ∧
  ∃ s', exec (step (OpDelChild 2 4)) demo = Some s' ∧ routes_sound s'.
Proof.
  assert (routes_sound demo) as Hsound
    by (apply (routes_soundb_sound 4); vm_compute; reflexivity).
  split; [exact Hsound|].
  destruct (exec (step (OpDelChild 2 4)) demo) as [s'|] eqn:Hrun;
    [|by vm_compute in Hrun].
  exists s'. split; [reflexivity|].
  exact (routes_stay_sound (OpDelChild 2 4) demo s' Hrun eq_refl Hsound).
Defined.

(** * When the burst recursion returns *)

Lemma forallb_bounded_same_shape k h h' l :
  same_shape h h' → forallb (bounded k h') l = forallb (bounded k h) l.
Proof.
  intros Hs. induction l as [|c l IH]; simpl; [done|].
  by rewrite (bounded_same_shape _ _ _ _ Hs), IH.
Qed.

Lemma for_each_FinishBurstInternal_bounded fuel l s s' :
  (∀ c s1 s2, FinishBurstInternal fuel c s1 = Some (tt, s2) →
              bounded fuel (heap s1) c = true) →
  for_each (FinishBurstInternal fuel) l s = Some (tt, s') →
  forallb (bounded fuel (heap s)) l = true.
Proof.
  intros IH. revert s. induction l as [|c l IHl]; intros s Hrun; simpl in *; [done|].
  apply bind_Some in Hrun as ([] & s1 & Hc & Hrest).
  rewrite (IH _ _ _ Hc). simpl.
  destruct (FinishBurstInternal_spec _ _ _ _ Hc) as (_ & Hei & _).
  rewrite <- (forallb_bounded_same_shape fuel (heap s) (heap s1));
    [by eapply IHl | by eapply either_same_shape].
Qed.

Lemma FinishBurstInternal_bounded fuel p s s' :
  FinishBurstInternal fuel p s = Some (tt, s') → bounded fuel (heap s) p = true.
Proof.
  revert p s s'. induction fuel as [|fuel IH]; intros p s s' Hrun.
  { by apply fail_Some in Hrun. }
  destruct (FinishBurstInternal_live _ _ _ _ Hrun) as [me Hme].
  rewrite (FinishBurstInternal_unfold _ _ _ _ Hme) in Hrun.
  apply (for_each_FinishBurstInternal_bounded _ _ _ _ IH) in Hrun.
  simpl. rewrite Hme. rewrite <- Hrun. symmetry.
  apply forallb_bounded_same_shape. intros q. simpl.
  destruct (decide (q = p)) as [->|].
  - by rewrite lookup_insert_eq, Hme.
  - by rewrite lookup_insert_ne.
Qed.

(** X18. [FinishBurstInternal] and [FinishBurst] return exactly when the
    child vectors below the node lead to live nodes only and to no more
    levels than the recursion may take: on a child pointer to a destroyed
    node, or on a node listed below itself, they have no result. *)
Theorem FinishBurst_returns_iff (fuel : nat) (p : positive) (s : State) :
  ((∃ s', FinishBurstInternal fuel p s = Some (tt, s')) ↔
   bounded fuel (heap s) p = true) ∧
  ((∃ s', FinishBurst fuel p s = Some (tt, s')) ↔
   bounded fuel (heap s) p = true).
Proof.
  split; split.
  - intros [s' Hrun]. by eapply FinishBurstInternal_bounded.
  - apply FinishBurstInternal_total.
  - intros [s' Hrun]. apply FinishBurst_inv in Hrun as (s1 & Hrun & _).
    by eapply FinishBurstInternal_bounded.
  - intros Hb. destruct (FinishBurstInternal_total _ _ _ Hb) as [s1 Hs1].
    destruct (FinishBurstInternal_live _ _ _ _ Hs1) as [nb Hnb].
    eexists. by apply FinishBurst_exact.
Qed.

Lemma FinishBurst_returns_iff_witness :
  bounded 3 (heap demo) 2 = true ∧ ∃ s', FinishBurst 3 2 demo = Some (tt, s').
Proof.
  split; [vm_compute; reflexivity|].
  apply (proj2 (proj2 (FinishBurst_returns_iff 3 2 demo))).
  vm_compute; reflexivity.
Defined.

(** * A link from beginning to end *)

(** X19. A node constructed under P with a name and a SID the index does
    not hold, linked with [AddChild] and taken down again by [Tidy],
    [DelChild], [cull] and [delete] leaves no trace in the tree: the
    store, the child vector of P included, both maps, the root pointer
    and the user registry are what they were before the constructor. *)
Theorem lifecycle_round_trip (fuel fuel' : nat) (this p : positive)
    (Name Desc id : string) (Sock : option nat) (Hide : bool) (s : State)
    (ndp : TreeServer) :
  heap s !! this = None → routable fuel s (Some p) →
  heap s !! p = Some ndp → this ∉ Children ndp →
  serverlist s !! Name = None → sidlist s !! id = None →
  ∃ s',
    run_ops (lifecycle_ops fuel (S fuel') this p Name Desc id Sock Hide) s = Some s' ∧
    heap s' = heap s ∧ serverlist s' = serverlist s ∧ sidlist s' = sidlist s ∧
    TreeRoot s' = TreeRoot s ∧ clientlist s' = clientlist s.
Proof.
  intros Hf Hroute Hp Hnin Hn Hs.
  destruct (TreeServer_child_returns fuel this Name Desc id (Some p) Sock Hide s
              Hf Hroute) as [r Hr].
  set (leaf := child_node s Name Desc id (Some p) Sock Hide (Some r)) in *.
  set (s1 := child_state s this Name Desc id (Some p) Sock Hide (Some r)) in *.
  assert (p ≠ this) as Hne by (intros ->; congruence).
  set (ndp' := set_Children (Children ndp ++ [this]) ndp).
  set (s2 := with_heap (<[p := ndp']> (heap s1)) s1).
  assert (heap s1 !! p = Some ndp) as Hp1 by (simpl; by rewrite lookup_insert_ne).
  assert (heap s2 !! this = Some leaf) as Ht2.
  { simpl. rewrite lookup_insert_ne by done. apply lookup_insert_eq. }
  assert (heap s2 !! p = Some ndp') as Hp2 by (simpl; apply lookup_insert_eq).
  set (s3 := with_heap (<[p := set_Children (erase_first this (Children ndp')) ndp']>
                          (heap s2)) s2).
  assert (heap s3 !! this = Some leaf) as Ht3.
  { simpl. rewrite !lookup_insert_ne by done. apply lookup_insert_eq. }
  set (s4 := culled_state s3 leaf).
  assert (heap s4 = heap s3) as Hh4 by apply heap_culled_state.
  exists (destroyed_state s4 this leaf). split.
  - unfold lifecycle_ops, teardown_ops, run_ops, step, exec, ignore.
    cbn [app]. rewrite Hr. cbn [fmap option_fmap option_map snd].
    rewrite (AddChild_run _ _ _ _ Hp1). cbn [fmap option_fmap option_map snd].
    fold ndp' s2. rewrite (Tidy_leaf _ _ _ _ Ht2) by done.
    cbn [fmap option_fmap option_map snd].
    erewrite bind_run by (rewrite (DelChild_run _ _ _ _ Hp2), decide_True;
                          [done | simpl; apply elem_of_app; right; left]).
    cbn [ret fmap option_fmap option_map snd]. fold s3.
    rewrite cull_exact, Ht3. cbn [fmap option_fmap option_map snd].
    fold (culled_state s3 leaf). fold s4.
    rewrite delete_node_exact, Hh4, Ht3. done.
  - assert (serverlist s4 = serverlist s1 ∧ sidlist s4 = sidlist s1 ∧
            TreeRoot s4 = TreeRoot s1 ∧ clientlist s4 = clientlist s1)
      as (E1 & E2 & E3 & E4).
    { unfold s4, culled_state. by destruct (IsRoot leaf). }
    cbn [heap serverlist sidlist TreeRoot clientlist destroyed_state].
    rewrite Hh4, E1, E2, E3, E4. simpl.
    rewrite !delete_insert_id by done. split_and!; [|done..].
    rewrite erase_first_app, app_nil_r by done.
    rewrite !insert_insert_eq.
    rewrite delete_insert_ne by done. rewrite delete_insert_id by done.
    apply insert_id. rewrite Hp. f_equal. unfold ndp'. by destruct ndp.
Qed.

Lemma lifecycle_round_trip_witness :
  ∃ s', run_ops (lifecycle_ops 4 1 9 3 "g.example" "G" "00G" None false) demo
          = Some s' ∧
        heap s' = heap demo ∧ serverlist s' = serverlist demo.
Proof.
  destruct (heap demo !! 3%positive) as [ndp|] eqn:Hp; [|by vm_compute in Hp].
  assert (9%positive ∉ Children ndp) as Hnin.
  { vm_compute in Hp. injection Hp as <-.
    apply (bool_decide_unpack _). vm_compute. exact I. }
  destruct (lifecycle_round_trip 4 0 9 3 "g.example" "G" "00G" None false demo ndp
              ltac:(vm_compute; reflexivity)
              ltac:(right; exists 3%positive, 2%positive;
                    split; vm_compute; reflexivity)
              Hp Hnin ltac:(vm_compute; reflexivity) ltac:(vm_compute; reflexivity))
    as (s' & H1 & H2 & H3 & _).
  exists s'. split_and!; assumption.
Defined.

(** * The burst time, from the constructor to the notice *)

Lemma burst_time_mod ts (me : TreeServer) :
  burst_time ts me = (ts - StartBurst me) mod 2 ^ 64.
Proof.
  unfold burst_time, to_ulong, to_long.
  rewrite Zminus_mod, Zmod_mod, <- Zminus_mod. f_equal. lia.
Qed.

Lemma now_ms_range s : - 2 ^ 63 ≤ now_ms s < 2 ^ 63.
Proof.
  unfold now_ms, to_long.
  pose proof (Z.mod_pos_bound
                ((Time s * 1000 + 2 ^ 63) mod 2 ^ 64 - 2 ^ 63 +
                 Time_ns s ÷ 1000000 + 2 ^ 63) (2 ^ 64) ltac:(lia)).
  lia.
Qed.

(** X20. The burst time in the notice counts from the constructor: for a
    node made by the child constructor and alive since, whatever was done
    to it or to the clock in between, [FinishBurst] reports the clock
    reading at the call less the clock reading at construction, provided
    the clock has not gone back behind the latter. *)
Theorem burst_time_counts_from_construction (fuel fuel' : nat) (this : positive)
    (Name Desc id : string) (Above : ptr) (Sock : option nat) (Hide : bool)
    (ops : list Op) (s s1 s2 : State) :
  TreeServer_child fuel this Name Desc id Above Sock Hide s = Some (tt, s1) →
  run_alive this ops s1 = Some s2 →
  bounded fuel' (heap s2) this = true →
  now_ms s ≤ now_ms s2 →
  ∃ s3,
    FinishBurst fuel' this s2 = Some (tt, s3) ∧
    events s3 = events s2 ++
      [ EvApplyLines;
        EvSnoNotice (if decide (Above = TreeRoot s2) then "l" else "L")%char
          (burst_notice Name (now_ms s2 - now_ms s));
        EvServerEvent Name ].
Proof.
  intros Hnew Hrun Hb Hclock.
  apply TreeServer_child_inv in Hnew as (_ & route & ->).
  destruct (run_alive_keeps_identity _ _ _ _ Hrun)
    as (nd & nb & Hnd & Hnb & HR).
  simpl in Hnd. rewrite lookup_insert_eq in Hnd. simplify_eq.
  destruct HR as (HP & _ & HN & _ & _ & _ & _ & _ & HSB & _). simpl in HP, HN, HSB.
  destruct (FinishBurstInternal_total _ _ _ Hb) as [s3 Hs3].
  eexists. split; [by apply FinishBurst_exact|].
  cbn [events with_events]. unfold burst_mask. rewrite HP, HN. do 3 f_equal.
  f_equal. f_equal. rewrite burst_time_mod, HSB. apply Z.mod_small.
  pose proof (now_ms_range s). pose proof (now_ms_range s2). lia.
Qed.

Lemma burst_time_counts_from_construction_witness :
  ∃ s1 s2 s3,
    TreeServer_child 4 9 "g.example" "G" "00G" (Some 3%positive) None false demo
      = Some (tt, s1) ∧
    run_alive 9 [OpSetVersion 9 "v"; OpClock 1003 0] s1 = Some s2 ∧
    FinishBurst 1 9 s2 = Some (tt, s3) ∧
    events s3 = events s2 ++
      [ EvApplyLines;
        EvSnoNotice "L" ("Received end of netburst from " +:+ bold +:+
                         "g.example" +:+ bold +:+ " (burst time: 2500 msecs)");
        EvServerEvent "g.example" ].
Proof.
  destruct (TreeServer_child 4 9 "g.example" "G" "00G" (Some 3%positive) None
              false demo) as [[[] s1]|] eqn:Hnew; [|by vm_compute in Hnew].
  destruct (run_alive 9 [OpSetVersion 9 "v"; OpClock 1003 0] s1) as [s2|] eqn:Hrun.
  2:{ vm_compute in Hnew. injection Hnew as <-. by vm_compute in Hrun. }
  assert (now_ms s2 = 1003000 ∧ TreeRoot s2 = Some 1%positive ∧
          bounded 1 (heap s2) 9 = true) as (Hnow & Hroot & Hb).
  { vm_compute in Hnew. injection Hnew as <-.
    vm_compute in Hrun. injection Hrun as <-. by vm_compute. }
  destruct (burst_time_counts_from_construction 4 1 9 "g.example" "G" "00G"
              (Some 3%positive) None false _ demo s1 s2 Hnew Hrun Hb)
    as (s3 & Hfin & Hev).
  { rewrite Hnow. by vm_compute. }
  exists s1, s2, s3. split_and!; [reflexivity|exact Hrun|exact Hfin|].
  rewrite Hev, Hnow, Hroot. reflexivity.
Defined.

(** * Synthetic users *)

(** X21. The synthetic user of a node lives and dies with the node: the
    child constructor, given a parent, makes a new one from the SID and
    the name, [cull] culls that one and [delete] destroys the node and
    deletes it; the root uses the shared [FakeClient], which [cull] and
    [delete] on the root neither cull nor delete. *)
Theorem synthetic_user_goes_with_the_node :
  (∀ fuel this Name Desc id p Sock Hide s s1,
     TreeServer_child fuel this Name Desc id (Some p) Sock Hide s = Some (tt, s1) →
     ∃ nd s2 s3,
       heap s1 !! this = Some nd ∧ ServerUser nd = NewFakeUser id Name ∧
       cull this s1 = Some (tt, s2) ∧
       events s2 = events s1 ++ [EvCullUser (NewFakeUser id Name)] ∧
       delete_node this s2 = Some (tt, s3) ∧
       events s3 = events s2 ++
                   [EvDestroy this nd; EvDeleteUser (NewFakeUser id Name)]) ∧
  (∀ this jp jg s s1,
     TreeServer_root this jp jg s = Some (tt, s1) →
     ∃ nd s3,
       heap s1 !! this = Some nd ∧ ServerUser nd = FakeClient ∧
       cull this s1 = Some (tt, s1) ∧
       delete_node this s1 = Some (tt, s3) ∧
       events s3 = events s1 ++ [EvDestroy this nd]).
Proof.
  split.
  - intros fuel this Name Desc id p Sock Hide s s1 Hrun.
    apply TreeServer_child_inv in Hrun as (_ & route & ->).
    eexists _, _, _. split; [simpl; apply lookup_insert_eq|]. split; [done|].
    split; [rewrite cull_exact; simpl; by rewrite lookup_insert_eq|].
    split; [done|].
    split; [rewrite delete_node_exact; simpl; by rewrite lookup_insert_eq|].
    done.
  - intros this jp jg s s1 Hrun. rewrite TreeServer_root_exact in Hrun.
    destruct (heap s !! this); [done|]. injection Hrun as <-.
    eexists _, _. split; [simpl; apply lookup_insert_eq|]. split; [done|].
    split; [rewrite cull_exact; simpl; by rewrite lookup_insert_eq|].
    split; [rewrite delete_node_exact; simpl; by rewrite lookup_insert_eq|].
    done.
Qed.

Lemma synthetic_user_goes_with_the_node_witness :
  ∃ s1 nd s2 s3,
    TreeServer_child 4 9 "g.example" "G" "00G" (Some 3%positive) None false demo
      = Some (tt, s1) ∧
    heap s1 !! 9%positive = Some nd ∧
    cull 9 s1 = Some (tt, s2) ∧ delete_node 9 s2 = Some (tt, s3) ∧
    events s3 = events s1 ++
      [ EvCullUser (NewFakeUser "00G" "g.example"); EvDestroy 9 nd;
        EvDeleteUser (NewFakeUser "00G" "g.example") ].
Proof.
  destruct (TreeServer_child 4 9 "g.example" "G" "00G" (Some 3%positive) None
              false demo) as [[[] s1]|] eqn:Hnew; [|by vm_compute in Hnew].
  destruct (proj1 synthetic_user_goes_with_the_node _ _ _ _ _ _ _ _ _ _ Hnew)
    as (nd & s2 & s3 & Hnd & _ & Hcull & Hev2 & Hdel & Hev3).
  exists s1, nd, s2, s3. split_and!; [reflexivity|exact Hnd|exact Hcull|exact Hdel|].
  rewrite Hev3, Hev2, <- app_assoc. reflexivity.
Defined.

(** * When [Tidy] returns *)

Lemma Tidy_fuel_mono fuel fuel' p s r :
  Tidy fuel p s = Some r → (fuel ≤ fuel')%nat → Tidy fuel' p s = Some r.
Proof.
  revert fuel' p s r. induction fuel as [|fuel IH]; intros fuel' p s r Hrun Hle.
  { by apply fail_Some in Hrun. }
  destruct fuel' as [|fuel']; [lia|]. simpl in *.
  unfold bind in *. destruct (deref p s) as [[me s0]|]; [|done].
  destruct (Children me) as [|x rest]; [done|].
  destruct (Tidy fuel x s0) as [[[] s1]|] eqn:Hx; [|done].
  rewrite (IH fuel' _ _ _ Hx) by lia.
  destruct (cull x s1) as [[[] s2]|]; [|done].
  destruct (deref p s2) as [[me' s3]|]; [|done].
  destruct (decide (Children me' = x :: rest)); [|done].
  destruct (update p (set_Children rest) s3) as [[[] s4]|]; [|done].
  destruct (delete_node x s4) as [[[] s5]|]; [|done].
  apply IH; [done|lia].
Qed.

Lemma laid_out_live h t y : laid_out h t = true → y ∈ nodes t → is_Some (h !! y).
Proof.
  induction t as [a kids IH] using rose_induction. intros Hlo Hy.
  destruct (laid_out_inv _ _ _ Hlo) as (me & Hme & _ & Hks).
  rewrite nodes_root in Hy. apply elem_of_cons in Hy as [->|Hy]; [eauto|].
  apply elem_of_strict in Hy as (k & Hk & Hy). simpl in Hk.
  rewrite Forall_forall in IH. apply (IH k Hk); [|done].
  rewrite forallb_forall in Hks. by apply Hks, list_elem_of_In.
Qed.

(** A run of [Tidy] that returns was on the root of a tree. *)
Lemma Tidy_on_a_tree fuel p s s' :
  Tidy fuel p s = Some (tt, s') →
  ∃ t, root_of t = p ∧ laid_out (heap s) t = true ∧ NoDup (nodes t).
Proof.
  revert p s s'. induction fuel as [|fuel IH]; intros p s s' Hrun.
  { by apply fail_Some in Hrun. }
  destruct (Tidy_live _ _ _ _ Hrun) as [nd Hnd].
  destruct (Children nd) as [|x rest] eqn:Hch.
  { exists (Rose p []). split_and!; [done| |].
    - simpl. rewrite Hnd, Hch. by rewrite bool_decide_eq_true_2.
    - simpl. apply NoDup_singleton. }
  destruct (Tidy_cons_inv _ _ _ _ _ _ _ Hnd Hch Hrun)
    as (s1 & me' & nx & Hx & Hme' & Hch' & Hnx & Hne & Hrest).
  destruct (IH _ _ _ Hx) as (tx & Hrx & Hlox & Hndx).
  destruct (IH _ _ _ Hrest) as ([p' ks] & Hrp & Hlo' & Hnd'). simpl in Hrp. subst p'.
  set (s4 := destroyed_state _ x nx) in *.
  (* what the inner call did, from its specification *)
  destruct (Tidy_spec (length (nodes tx)) tx s ltac:(lia) Hlox Hndx)
    as (s1' & Hx' & K1 & K2 & K3 & _).
  rewrite Hrx in Hx', K2.
  assert (s1' = s1) as ->.
  { apply (Tidy_fuel_mono _ (fuel `max` length (nodes tx))) in Hx; [|lia].
    apply (Tidy_fuel_mono _ (fuel `max` length (nodes tx))) in Hx'; [|lia].
    congruence. }
  assert (∀ y, heap s4 !! y =
               if decide (y = x) then None
               else if decide (y = p) then Some (set_Children rest me')
               else heap s1 !! y) as Hs4.
  { intros y. unfold s4. simpl.
    destruct (decide (y = x)) as [->|]; [by rewrite lookup_delete_eq|].
    rewrite lookup_delete_ne by done.
    destruct (decide (y = p)) as [->|]; [by rewrite lookup_insert_eq|].
    by rewrite lookup_insert_ne. }
  clearbody s4.
  assert (∀ y, y ∈ nodes tx → heap s4 !! y = None ∨ y = p) as Hdead.
  { intros y Hy. rewrite Hs4. destruct (decide (y = x)); [by left|].
    destruct (decide (y = p)); [by right|]. left. apply K1.
    rewrite nodes_root, Hrx in Hy. by apply elem_of_cons in Hy as [?|?]. }
  assert (p ∉ nodes tx) as Hptx.
  { rewrite nodes_root, Hrx. intros [?|Hp]%elem_of_cons; [done|].
    rewrite (K1 p Hp) in Hme'. done. }
  destruct (laid_out_inv _ _ _ Hlo') as (me4 & Hme4 & Hch4 & Hks).
  rewrite Hs4, decide_False, decide_True in Hme4 by done.
  injection Hme4 as <-. simpl in Hch4, Hnd'.
  apply NoDup_cons in Hnd' as [Hpks Hndks].
  assert (∀ y, y ∈ concat (map nodes ks) →
               (y ∉ nodes tx) ∧ heap s !! y = heap s4 !! y) as Hfar.
  { intros y Hy.
    destruct (laid_out_live (heap s4) (Rose p ks) y Hlo') as [ndy Hy4];
      [simpl; by right|].
    assert (y ≠ p) as Hyp by (intros ->; done).
    assert (y ∉ nodes tx) as Hytx.
    { intros Hin. destruct (Hdead y Hin) as [?|?]; [congruence|done]. }
    split; [done|]. rewrite Hs4. rewrite Hs4 in Hy4.
    destruct (decide (y = x)); [done|].
    rewrite decide_False by done. symmetry. by apply K3. }
  exists (Rose p (tx :: ks)). split_and!; [done| |].
  - simpl. rewrite Hnd, Hch, Hch4, Hrx. rewrite bool_decide_eq_true_2 by done.
    rewrite Hlox. simpl. rewrite <- Hks.
    apply forallb_laid_out_ext. intros y Hy. by apply Hfar.
  - simpl. apply NoDup_cons. split.
    + intros [?|?]%elem_of_app; done.
    + apply NoDup_app. split_and!; [done| |done].
      intros y Hy Hy'. by destruct (Hfar y Hy').
Qed.

(** X22. [Tidy] returns, given enough fuel, exactly when the child
    vectors below the node lay out a tree in the store: every node named
    is live and none is named twice, neither in one vector nor through
    two paths. *)
Theorem Tidy_returns_iff (p : positive) (s : State) :
  (∃ fuel s', Tidy fuel p s = Some (tt, s')) ↔
  (∃ t, root_of t = p ∧ laid_out (heap s) t = true ∧ NoDup (nodes t)).
Proof.
  split.
  - intros (fuel & s' & Hrun). by eapply Tidy_on_a_tree.
  - intros (t & <- & Hlo & Hnd).
    destruct (Tidy_spec (length (nodes t)) t s ltac:(lia) Hlo Hnd) as (s' & Hrun & _).
    eauto.
Qed.

Lemma Tidy_returns_iff_witness :
  root_of demo_tree = 2%positive ∧ laid_out (heap demo) demo_tree = true ∧
  NoDup (nodes demo_tree) ∧ ∃ fuel s', Tidy fuel 2 demo = Some (tt, s').
Proof.
  assert (NoDup (nodes demo_tree)) as Hnd
    by (apply (bool_decide_unpack _); vm_compute; exact I).
  split; [reflexivity|]. split; [vm_compute; reflexivity|]. split; [exact Hnd|].
  apply (proj2 (Tidy_returns_iff 2 demo)). exists demo_tree.
  split_and!; [reflexivity|vm_compute; reflexivity|exact Hnd].
Defined.

(** * Unloading modules *)

(** X23. /UNLOADMODULE never unloads the two module loading commands: for
    "cmd_unloadmodule.so" and "cmd_loadmodule.so" the handler fails with
    one ERR_CANTUNLOADMODULE numeric and the module manager is as it was,
    whatever the configuration and whatever the manager would have done.
    The same holds for every name the matcher takes for a core command,
    unless [allowcoreunload] is set. *)
Theorem Handle_protects_commands {Mod St : Type}
    (core : cmd_unloadmodule.Core Mod St) (p0 : string) (rest : list string)
    (user : User) (st : St) :
  (p0 = "cmd_unloadmodule.so" ∨ p0 = "cmd_loadmodule.so") ∨
  (cmd_unloadmodule.allowcoreunload core = false ∧
   cmd_unloadmodule.Match core p0 "cmd_*.so" = true) →
  ∃ text,
    cmd_unloadmodule.Handle core (p0 :: rest) user st =
    Some (cmd_unloadmodule.CMD_FAILURE,
          [cmd_unloadmodule.WriteNumeric cmd_unloadmodule.ERR_CANTUNLOADMODULE text],
          st).
Proof.
  intros Hcase. unfold cmd_unloadmodule.Handle.
  destruct (negb (cmd_unloadmodule.allowcoreunload core) &&
            cmd_unloadmodule.Match core p0 "cmd_*.so") eqn:Hguard; [by eexists|].
  destruct Hcase as [Hname|[Hallow Hmatch]].
  - rewrite decide_True by done. by eexists.
  - by rewrite Hallow, Hmatch in Hguard.
Qed.

Lemma Handle_protects_commands_witness :
  ∃ text,
    cmd_unloadmodule.Handle (cmd_unloadmodule.demo_core true)
      ["cmd_loadmodule.so"] (mkUser "oper" "a.example" true false)
      ["cmd_loadmodule.so"; "m_opermodes.so"] =
    Some (cmd_unloadmodule.CMD_FAILURE,
          [cmd_unloadmodule.WriteNumeric cmd_unloadmodule.ERR_CANTUNLOADMODULE text],
          ["cmd_loadmodule.so"; "m_opermodes.so"]).
Proof.
  apply (Handle_protects_commands (cmd_unloadmodule.demo_core true)
           "cmd_loadmodule.so" [] (mkUser "oper" "a.example" true false)
           ["cmd_loadmodule.so"; "m_opermodes.so"]).
  left. by right.
Defined.

(** X24. /UNLOADMODULE succeeds exactly when the name passes both guards,
    the module manager finds a module of that name and unloads it; it
    then leaves the manager as [Unload] left it and writes the notice to
    the operators and RPL_UNLOADEDMODULE, in this order. In every other
    case it fails and writes a single ERR_CANTUNLOADMODULE. *)
Theorem Handle_succeeds_iff {Mod St : Type}
    (core : cmd_unloadmodule.Core Mod St) (p0 : string) (rest : list string)
    (user : User) (st : St) :
  ∃ res out st',
    cmd_unloadmodule.Handle core (p0 :: rest) user st = Some (res, out, st') ∧
    (res = cmd_unloadmodule.CMD_SUCCESS ↔
     cmd_unloadmodule.unguarded core p0 ∧
     ∃ m, cmd_unloadmodule.Find core st p0 = Some m ∧
          (cmd_unloadmodule.Unload core st m).1 = true) ∧
    (res = cmd_unloadmodule.CMD_SUCCESS →
     ∃ m, cmd_unloadmodule.Find core st p0 = Some m ∧
          st' = (cmd_unloadmodule.Unload core st m).2 ∧
          out = [cmd_unloadmodule.WriteGlobalSno "a"
                   ("MODULE UNLOADED: " +:+ nick user +:+ " unloaded " +:+ p0);
                 cmd_unloadmodule.WriteNumeric cmd_unloadmodule.RPL_UNLOADEDMODULE
                   (p0 +:+ " :Module successfully unloaded.")]) ∧
    (res = cmd_unloadmodule.CMD_FAILURE →
     ∃ text, out = [cmd_unloadmodule.WriteNumeric
                      cmd_unloadmodule.ERR_CANTUNLOADMODULE text]).
Proof.
  unfold cmd_unloadmodule.Handle, cmd_unloadmodule.unguarded.
  destruct (negb (cmd_unloadmodule.allowcoreunload core) &&
            cmd_unloadmodule.Match core p0 "cmd_*.so") eqn:Hguard.
  { apply andb_prop in Hguard as [Hallow%negb_true_iff Hmatch].
    eexists _, _, _. split; [done|]. split_and!; [|done|by eexists].
    split; [done|]. intros [[[?|?] _] _]; congruence. }
  assert (cmd_unloadmodule.allowcoreunload core = true ∨
          cmd_unloadmodule.Match core p0 "cmd_*.so" = false) as Hpass.
  { destruct (cmd_unloadmodule.allowcoreunload core); [by left|by right]. }
  destruct (decide (p0 = "cmd_unloadmodule.so" ∨ p0 = "cmd_loadmodule.so"))
    as [Hname|Hname].
  { eexists _, _, _. split; [done|]. split_and!; [|done|by eexists].
    split; [done|]. intros [(_ & ? & ?) _]. tauto. }
  destruct (cmd_unloadmodule.Find core st p0) as [m|] eqn:Hfind.
  2:{ eexists _, _, _. split; [done|]. split_and!; [|done|by eexists].
      split; [done|]. by intros (_ & m & ? & _). }
  destruct (cmd_unloadmodule.Unload core st m).1 eqn:Hun.
  - eexists _, _, _. split; [done|]. split_and!; [|by eauto|done].
    split; [intros _|done]. split; [|by eauto].
    split_and!; [done|intros ->; apply Hname; by left
                |intros ->; apply Hname; by right].
  - eexists _, _, _. split; [done|]. split_and!; [|done|by eexists].
    split; [done|]. intros (_ & m' & ? & ?). congruence.
Qed.

Lemma Handle_succeeds_iff_witness :
  ∃ out st',
    cmd_unloadmodule.Handle (cmd_unloadmodule.demo_core false)
      ["m_opermodes.so"] (mkUser "oper" "a.example" true false)
      ["cmd_loadmodule.so"; "m_opermodes.so"] =
    Some (cmd_unloadmodule.CMD_SUCCESS, out, st').
Proof.
  destruct (Handle_succeeds_iff (cmd_unloadmodule.demo_core false)
              "m_opermodes.so" [] (mkUser "oper" "a.example" true false)
              ["cmd_loadmodule.so"; "m_opermodes.so"])
    as (res & out & st' & Hrun & Hiff & _).
  assert (res = cmd_unloadmodule.CMD_SUCCESS) as ->.
  { apply Hiff. split.
    - split_and!; [by right|discriminate|discriminate].
    - exists "m_opermodes.so". split; reflexivity. }
  exists out, st'. exact Hrun.
Defined.

(** * Modes on oper *)

Lemma OnOper_from_first (Conf : m_opermodes.ConfigReader)
    (user : m_opermodes.userrec) (k : Z) (fuel : nat) (j : Z) :
  0 ≤ j ≤ k → k < m_opermodes.Enumerate Conf "type" →
  (Z.to_nat (k - j) < fuel)%nat →
  m_opermodes.ReadValue Conf "type" "name" k = m_opermodes.oper user →
  (∀ i, j ≤ i < k →
        m_opermodes.ReadValue Conf "type" "name" i ≠ m_opermodes.oper user) →
  m_opermodes.OnOper_from Conf user fuel j =
  Some (if decide (m_opermodes.ReadValue Conf "type" "modes" k = "") then []
        else [m_opermodes.SendMode
                [m_opermodes.nick user; m_opermodes.ReadValue Conf "type" "modes" k]
                2 user]).
Proof.
  revert j. induction fuel as [|fuel IH]; intros j Hj Hk Hfuel Hname Hfirst; [lia|].
  simpl. assert ((j <? m_opermodes.Enumerate Conf "type") = true) as ->
    by (apply Z.ltb_lt; lia).
  destruct (decide (j = k)) as [->|Hjk].
  - rewrite decide_True by done.
    destruct (decide (m_opermodes.ReadValue Conf "type" "modes" k = ""));
      [by rewrite decide_False by tauto | by rewrite decide_True].
  - rewrite decide_False by (apply Hfirst; lia).
    apply IH; [lia|done|lia|done|]. intros i Hi. apply Hfirst. lia.
Qed.

Lemma OnOper_from_none (Conf : m_opermodes.ConfigReader)
    (user : m_opermodes.userrec) (fuel : nat) (j : Z) :
  0 ≤ j →
  (Z.to_nat (m_opermodes.Enumerate Conf "type" - j) < fuel)%nat →
  (∀ i, j ≤ i < m_opermodes.Enumerate Conf "type" →
        m_opermodes.ReadValue Conf "type" "name" i ≠ m_opermodes.oper user) →
  m_opermodes.OnOper_from Conf user fuel j = Some [].
Proof.
  revert j. induction fuel as [|fuel IH]; intros j Hj Hfuel Hnone; [lia|].
  simpl. destruct (j <? m_opermodes.Enumerate Conf "type") eqn:Hlt; [|done].
  apply Z.ltb_lt in Hlt. rewrite decide_False by (apply Hnone; lia).
  apply IH; [lia|lia|]. intros i Hi. apply Hnone. lia.
Qed.

(** X25. [OnOper] applies the modes of the first [<type>] tag whose name
    is the oper type of the user, in one [SendMode] call for that user.
    The first tag of that name decides alone: when its modes are empty
    nothing is sent, whatever later tags of the same name say. *)
Theorem OnOper_first_type_decides (Conf : m_opermodes.ConfigReader)
    (user : m_opermodes.userrec) (k : Z) :
  0 ≤ k < m_opermodes.Enumerate Conf "type" →
  m_opermodes.ReadValue Conf "type" "name" k = m_opermodes.oper user →
  (∀ i, 0 ≤ i < k →
        m_opermodes.ReadValue Conf "type" "name" i ≠ m_opermodes.oper user) →
  m_opermodes.OnOper Conf user =
  Some (if decide (m_opermodes.ReadValue Conf "type" "modes" k = "") then []
        else [m_opermodes.SendMode
                [m_opermodes.nick user; m_opermodes.ReadValue Conf "type" "modes" k]
                2 user]).
Proof.
  intros Hk Hname Hfirst. unfold m_opermodes.OnOper.
  apply OnOper_from_first; [lia|lia|lia|done|done].
Qed.

Lemma OnOper_first_type_decides_witness :
  m_opermodes.OnOper m_opermodes.demo_conf (m_opermodes.mkuserrec "nick" "Helper")
  = Some [].
Proof.
  apply (OnOper_first_type_decides m_opermodes.demo_conf
           (m_opermodes.mkuserrec "nick" "Helper") 1).
  - vm_compute. split; [discriminate|reflexivity].
  - reflexivity.
  - intros i Hi. assert (i = 0) as -> by lia. discriminate.
Defined.

(** X26. [OnOper] always returns, with at most one [SendMode] call; when
    no [<type>] tag has the oper type of the user as its name, with
    none. *)
Theorem OnOper_sends_at_most_once (Conf : m_opermodes.ConfigReader)
    (user : m_opermodes.userrec) :
  (∃ calls, m_opermodes.OnOper Conf user = Some calls ∧ (length calls ≤ 1)%nat) ∧
  ((∀ i, 0 ≤ i < m_opermodes.Enumerate Conf "type" →
         m_opermodes.ReadValue Conf "type" "name" i ≠ m_opermodes.oper user) →
   m_opermodes.OnOper Conf user = Some []).
Proof.
  assert (∀ fuel j, 0 ≤ j →
            (Z.to_nat (m_opermodes.Enumerate Conf "type" - j) < fuel)%nat →
            ∃ calls, m_opermodes.OnOper_from Conf user fuel j = Some calls ∧
                     (length calls ≤ 1)%nat) as Htotal.
  { induction fuel as [|fuel IH]; intros j Hj Hfuel; [lia|]. simpl.
    destruct (j <? m_opermodes.Enumerate Conf "type") eqn:Hlt;
      [|exists []; split; [done|simpl; lia]].
    apply Z.ltb_lt in Hlt.
    destruct (decide (m_opermodes.ReadValue Conf "type" "name" j
                      = m_opermodes.oper user)).
    - destruct (decide (m_opermodes.ReadValue Conf "type" "modes" j ≠ ""));
        eexists; (split; [done|simpl; lia]).
    - apply IH; lia. }
  split.
  - apply Htotal; lia.
  - intros Hnone. apply OnOper_from_none; [lia|lia|done].
Qed.

Lemma OnOper_sends_at_most_once_witness :
  m_opermodes.OnOper m_opermodes.demo_conf (m_opermodes.mkuserrec "nick" "IRCop")
  = Some [].
Proof.
  apply (proj2 (OnOper_sends_at_most_once m_opermodes.demo_conf
                  (m_opermodes.mkuserrec "nick" "IRCop"))).
  intros i Hi. change (m_opermodes.Enumerate m_opermodes.demo_conf "type") with 3 in Hi.
  assert (i = 0 ∨ i = 1 ∨ i = 2) as [->|[->| ->]] by lia; discriminate.
Defined.
